(** * URL monitor: probes, failure streaks, scheduling and the result store

    A shallow embedding of the monitoring core of the repository. The
    source holds two generations of the monitor and of the store side by
    side; both are embedded, each under its own name:

    - [Js]: the JavaScript the code relies on: [x || d] on optional
      strings and numbers, how a call settles (returns or throws),
      [Math.round], the keys of a plain object, and the timers of the
      event loop;
    - [Binary64]: the numbers of JavaScript and of SQLite's [AVG], as
      rationals rounded to 53 significant bits;
    - [URLConfig], [RequestResult], [GroupHierarchy], [URLStats]: the
      records of [types.ts]; [Row] and [Sql]: the [requests] table and the
      SQL the queries use; [Dict]: insertion-ordered maps;
    - [Database]: the store of [database.ts]: [insertResult], [getResults],
      [getGroupHierarchy], [getStats], [cleanup];
    - [Monitor]: the fetch-based monitor of [monitor.ts]: [checkURL],
      [scheduleURL], [start], [stop];
    - [Legacy], [LegacyDatabase], [UrlMonitor]: the axios-based monitor of
      [monitor.ts] with its records and its store: [checkUrl],
      [handleFailureTracking] up to its [await] and [resume] after it,
      with the runs of handlers that overlap, [startMonitoring],
      [saveResult], and the [getGroupHierarchy] that coalesces absent
      labels;
    - [Clock]: a reading of SQLite's date functions, for the examples;
    - [LegacyQueries]: the other queries of the legacy store:
      [getResults], [getFailedRequests], [getGroupStats], [getUrlsByGroup];
    - [SlackNotifier]: the notifier behind the failure and recovery alerts;
    - [ConfigLoader]: [loadFromCSV] of the fetch-based monitor;
    - [HeadlessApplication]: one task of [runSingleCycle];
    - [Registry], [Invariants]: notions the properties are stated with.

    Whatever the code obtains from its environment (the clock, how the
    HTTP request settles, whether the store accepts a statement, SQLite's
    [datetime]) is an explicit argument of the embedded function. *)

From Stdlib Require Import ZArith QArith Qround Qpower Lqa Floats Lia List Permutation Sorted
  Ascii String.
From stdpp Require Import base gmap strings list sorting pretty.
Import ListNotations.

Local Open Scope string_scope.
Local Open Scope Z_scope.
Local Open Scope list_scope.

(** ** JavaScript idioms *)

Module Js.

(** [s || d] for an optional string: [undefined], [null] and the empty
    string are falsy. *)
Definition truthy_str (o : option string) : bool :=
  match o with
  | Some s => negb (String.eqb s "")
  | None => false
  end.

Definition or_str (o : option string) (d : string) : string :=
  match o with
  | Some s => if String.eqb s "" then d else s
  | None => d
  end.

(** [s || null] and [s || undefined]: a falsy string becomes absent. *)
Definition or_null (o : option string) : option string :=
  match o with
  | Some s => if String.eqb s "" then None else Some s
  | None => None
  end.

(** [n || 0] for the result of [Map.get]: [undefined] and [0] are falsy. *)
Definition or_zero (o : option nat) : nat :=
  match o with
  | Some n => n
  | None => O
  end.

(** A plain object used as a dictionary. [obj[k]] finds the object's own
    property [k] or, failing that, what [Object.prototype] holds under
    [k]; and when the object is enumerated, the keys that read as a
    number come first, in numeric order, whenever they were set. A key is
    [plain] when neither applies, and then the object behaves as an
    insertion-ordered map. [inherits] says which names [Object.prototype]
    holds when the code runs; [standard] is a realm to which nothing has
    been added. *)
Definition Object_prototype : list string :=
  ["constructor"; "__defineGetter__"; "__defineSetter__"; "hasOwnProperty";
   "__lookupGetter__"; "__lookupSetter__"; "isPrototypeOf";
   "propertyIsEnumerable"; "toString"; "valueOf"; "__proto__"; "toLocaleString"].

Definition standard (k : string) : bool := bool_decide (k ∈ Object_prototype).

Definition is_digit (c : ascii) : bool :=
  (48 <=? Z.of_N (N_of_ascii c)) && (Z.of_N (N_of_ascii c) <=? 57).

Fixpoint digits (s : string) : bool :=
  match s with
  | EmptyString => true
  | String c rest => is_digit c && digits rest
  end.

(** The canonical numeric keys: ["0"], or digits that do not start with
    ["0"]. *)
Definition numeric (k : string) : bool :=
  match k with
  | EmptyString => false
  | String c rest => digits k && (negb (Ascii.eqb c "0") || String.eqb rest "")
  end.

Definition plain (inherits : string -> bool) (k : string) : bool :=
  negb (inherits k) && negb (numeric k).

(** How an [async] function settles: it returns or it throws. *)
Inductive completion (E A : Type) : Type :=
| Returns (a : A)
| Throws (e : E).
Arguments Returns {E A} a.
Arguments Throws {E A} e.

(** The values the code throws or catches, by origin: a rejected HTTP
    request (whatever was thrown, with its [message] property if it has
    one), a rejected storage call, and [new Error(msg)] raised by the
    code itself. *)
Inductive Exn :=
| RequestFailed (message : option string)
| SqliteFailed (message : string)
| Raised (message : string).

(** [error.message] of whatever was caught. *)
Definition message (e : Exn) : option string :=
  match e with
  | RequestFailed m => m
  | SqliteFailed m => Some m
  | Raised m => Some m
  end.

(** [Math.round]: the nearest integer, halves towards plus infinity. *)
Definition round (x : Q) : Z := Qfloor (x + (1 # 2)).

(** Timers of the event loop. [setInterval] arms a timer and returns a
    fresh handle; [clearInterval] disarms it. [P] is what the callback
    closes over. *)
Record Timer (P : Type) := {
  handle : nat;
  period : Z;
  payload : P
}.
Arguments handle {P} _.
Arguments period {P} _.
Arguments payload {P} _.

Record Loop (P : Type) := {
  armed : list (Timer P);
  next_handle : nat
}.
Arguments armed {P} _.
Arguments next_handle {P} _.

Definition idle {P} : Loop P := {| armed := []; next_handle := 0 |}.

Definition setInterval {P} (l : Loop P) (p : P) (ms : Z) : Loop P * nat :=
  ({| armed := armed l ++ [{| handle := next_handle l; period := ms; payload := p |}];
      next_handle := S (next_handle l) |},
   next_handle l).

Definition clearInterval {P} (l : Loop P) (h : nat) : Loop P :=
  {| armed := List.filter (fun t => negb (Nat.eqb (handle t) h)) (armed l);
     next_handle := next_handle l |}.

End Js.

(** ** Binary64 numbers

    JavaScript numbers and SQLite's [REAL] values are IEEE binary64. A
    finite one is a rational, and the result of an operation is the exact
    result rounded to the nearest rational with 53 significant bits, ties
    to the even one. That is [round] here, for results in the range of
    normal numbers, which quotients of counts and sums of milliseconds
    are. *)

Module Binary64.

(** The exponent of a positive rational: [2^e <= x < 2^(e+1)]. *)
Definition exponent (x : Q) : Z :=
  let d := Z.log2 (Qnum x) - Z.log2 (Z.pos (Qden x)) in
  if Qle_bool (2 ^ d) x then d else d - 1.

(** The nearest integer, the even one of two that are equally near. *)
Definition nearest_even (m : Q) : Z :=
  let q := Qfloor m in
  match (m - inject_Z q ?= 1 # 2)%Q with
  | Lt => q
  | Gt => q + 1
  | Eq => if Z.even q then q else q + 1
  end.

Definition round_pos (x : Q) : Q :=
  let e := exponent x in
  Qred (inject_Z (nearest_even (x * 2 ^ (52 - e))) * 2 ^ (e - 52)).

Definition round (x : Q) : Q :=
  match (x ?= 0)%Q with
  | Eq => 0%Q
  | Gt => round_pos x
  | Lt => (- round_pos (- x))%Q
  end.

(** A positive rational with at most 53 significant bits: rounding
    leaves it as it is. *)
Definition representable (y : Q) : Prop :=
  exists (M j : Z), 0 < M < 2 ^ 53 /\ (y == inject_Z M * 2 ^ j)%Q.

Definition div (x y : Q) : Q := round (x / y).
Definition mul (x y : Q) : Q := round (x * y).

(** The rational a finite primitive float stands for, and the float of
    an integer; they tie [round] to the floats of the kernel. *)
Definition of_float (f : float) : option Q :=
  match Prim2SF f with
  | S754_zero _ => Some 0%Q
  | S754_finite s m e =>
      Some ((if s then - inject_Z (Z.pos m) else inject_Z (Z.pos m)) * 2 ^ e)%Q
  | _ => None
  end.

Definition to_float (z : Z) : float :=
  if z <? 0 then (- of_uint63 (Uint63.of_Z (- z)))%float
  else of_uint63 (Uint63.of_Z z).

(** The percentage [s / t * 100] on primitive floats and on [round]
    agree; [grid n] asks it of every [0 <= s <= t <= n]. *)
Definition agrees (s t : Z) : bool :=
  match of_float (to_float s / to_float t * 100)%float with
  | Some q => Qeq_bool q (mul (div (inject_Z s) (inject_Z t)) 100)
  | None => false
  end.

Definition grid (n : Z) (f : Z -> Z -> bool) : bool :=
  forallb (fun t => forallb (fun s => f s t) (map Z.of_nat (seq 0 (S (Z.to_nat t)))))
          (map Z.of_nat (seq 1 (Z.to_nat n))).

End Binary64.

(** ** Records of [types.ts] (the variant used by [Monitor] and [Database]) *)

Module URLConfig.
Record t := {
  url : string;
  name : string;
  countryCode : option string;
  group_name : option string;
  interval : option Z
}.
End URLConfig.

Module RequestResult.
Record t := {
  id : option Z;
  url : string;
  name : string;
  countryCode : option string;
  group_name : option string;
  timestamp : string;
  status : Z;
  responseTime : Z;
  success : bool;
  error : option string
}.
End RequestResult.

Module GroupHierarchy.
Record link := { url : string; name : string }.
Record t := {
  group_name : string;
  countryCode : option string;
  urls : list link
}.
End GroupHierarchy.

Module URLStats.
Record t := {
  url : string;
  name : string;
  group_name : option string;
  countryCode : option string;
  totalRequests : Z;
  successfulRequests : Z;
  failedRequests : Z;
  successRate : Q;
  averageResponseTime : Z;
  lastChecked : option string;
  lastStatus : option Z
}.
End URLStats.

(** ** The [requests] table *)

Module Row.
(** One row of [requests]; a nullable column is an [option], the
    [BOOLEAN] column holds the integer it was given. *)
Record t := {
  id : Z;
  url : string;
  name : string;
  countryCode : option string;
  group_name : option string;
  timestamp : string;
  status : Z;
  responseTime : Z;
  success : Z;
  error : option string
}.
End Row.

Module Sql.

(** The table and the counter behind [AUTOINCREMENT]. *)
Record Store := {
  requests : list Row.t;
  last_id : Z
}.

Definition empty : Store := {| requests := []; last_id := 0 |}.

(** Comparison of two [datetime(...)] values; a [NULL] operand makes the
    comparison [NULL], which a [WHERE] clause treats as false. Valid
    values are compared as instants, which for SQLite's
    [YYYY-MM-DD HH:MM:SS] texts is their text order. *)
Definition ge (a b : option Z) : bool :=
  match a, b with
  | Some x, Some y => y <=? x
  | _, _ => false
  end.

Definition lt (a b : option Z) : bool :=
  match a, b with
  | Some x, Some y => x <? y
  | _, _ => false
  end.

(** [col = ?] on a nullable text column. *)
Definition text_eq (col : option string) (v : string) : bool :=
  match col with
  | Some s => String.eqb s v
  | None => false
  end.

(** [COALESCE(col, d)] *)
Definition coalesce (col : option string) (d : string) : string :=
  match col with
  | Some s => s
  | None => d
  end.

(** [SUM(CASE WHEN p THEN 1 ELSE 0 END)] *)
Definition count_where {A} (p : A -> bool) (l : list A) : Z :=
  Z.of_nat (length (List.filter p l)).

Definition sum_of {A} (f : A -> Z) (l : list A) : Z :=
  fold_right (fun x acc => f x + acc) 0 l.

(** [AVG(col)] over a non-empty group of integers: the sum divided by
    the count, as binary64 numbers. (SQLite adds the values up as a
    binary64 number too; the sum is the exact one as long as the values
    add up to less than [2^53] in magnitude.) *)
Definition avg {A} (f : A -> Z) (l : list A) : Q :=
  Binary64.div (inject_Z (sum_of f l)) (inject_Z (Z.of_nat (length l))).

(** [MAX(col)] of a text column. *)
Definition max_text {A} (f : A -> string) (l : list A) : option string :=
  fold_right (fun x acc =>
                match acc with
                | None => Some (f x)
                | Some m => if String.leb m (f x) then Some (f x) else Some m
                end) None l.

End Sql.

(** ** Insertion-ordered maps

    A JavaScript [Map] enumerates its keys in insertion order, and setting
    an existing key keeps its place. So does a plain object for the keys
    that are [Js.plain]. *)

Module Dict.

Definition t (V : Type) := list (string * V).

Fixpoint get {V} (k : string) (m : t V) : option V :=
  match m with
  | [] => None
  | (k', v) :: rest => if String.eqb k k' then Some v else get k rest
  end.

Definition has {V} (k : string) (m : t V) : bool :=
  match get k m with Some _ => true | None => false end.

Fixpoint set {V} (k : string) (v : V) (m : t V) : t V :=
  match m with
  | [] => [(k, v)]
  | (k', v') :: rest =>
      if String.eqb k k' then (k, v) :: rest else (k', v') :: set k v rest
  end.

Definition keys {V} (m : t V) : list string := map fst m.
Definition values {V} (m : t V) : list V := map snd m.

End Dict.

(** ** The store of [database.ts] *)

Module Database.

(** [insertResult]: one [INSERT]; a rejected statement is logged and
    rethrown. [fault] is the rejection of [db.run], if any. *)
Definition to_row (new_id : Z) (result : RequestResult.t) : Row.t :=
  {| Row.id := new_id;
     Row.url := RequestResult.url result;
     Row.name := RequestResult.name result;
     Row.countryCode := Js.or_null (RequestResult.countryCode result);
     Row.group_name := Js.or_null (RequestResult.group_name result);
     Row.timestamp := RequestResult.timestamp result;
     Row.status := RequestResult.status result;
     Row.responseTime := RequestResult.responseTime result;
     Row.success := if RequestResult.success result then 1 else 0;
     Row.error := Js.or_null (RequestResult.error result) |}.

Definition insertResult (fault : option string) (db : Sql.Store)
    (result : RequestResult.t) : Js.completion Js.Exn Sql.Store :=
  match fault with
  | Some msg => Js.Throws (Js.SqliteFailed msg)
  | None =>
      let new_id := Sql.last_id db + 1 in
      Js.Returns {| Sql.requests := Sql.requests db ++ [to_row new_id result];
                    Sql.last_id := new_id |}
  end.

(** A row as [getResults] hands it out: the columns spread into an
    object, [success] converted with [Boolean]. *)
Definition of_row (row : Row.t) : RequestResult.t :=
  {| RequestResult.id := Some (Row.id row);
     RequestResult.url := Row.url row;
     RequestResult.name := Row.name row;
     RequestResult.countryCode := Row.countryCode row;
     RequestResult.group_name := Row.group_name row;
     RequestResult.timestamp := Row.timestamp row;
     RequestResult.status := Row.status row;
     RequestResult.responseTime := Row.responseTime row;
     RequestResult.success := negb (Row.success row =? 0);
     RequestResult.error := Row.error row |}.

(** A result with the [id] the store generated for it. *)
Definition with_id (new_id : Z) (result : RequestResult.t) : RequestResult.t :=
  {| RequestResult.id := Some new_id;
     RequestResult.url := RequestResult.url result;
     RequestResult.name := RequestResult.name result;
     RequestResult.countryCode := RequestResult.countryCode result;
     RequestResult.group_name := RequestResult.group_name result;
     RequestResult.timestamp := RequestResult.timestamp result;
     RequestResult.status := RequestResult.status result;
     RequestResult.responseTime := RequestResult.responseTime result;
     RequestResult.success := RequestResult.success result;
     RequestResult.error := RequestResult.error result |}.

(** [ORDER BY timestamp DESC]: the text of the column, largest first. *)
Definition newest_first (r1 r2 : Row.t) : Prop :=
  String.le (Row.timestamp r2) (Row.timestamp r1).

Global Instance newest_first_dec : RelDecision newest_first.
Proof. intros r1 r2. unfold newest_first. apply _. Defined.

(** [ORDER BY name] *)
Definition by_name {A} (name : A -> string) (a b : A) : Prop :=
  String.le (name a) (name b).

Global Instance by_name_dec {A} (name : A -> string) : RelDecision (by_name name).
Proof. intros a b. unfold by_name. apply _. Defined.

(** The grouping key of [getStats]:
    [GROUP BY url, name, group_name, countryCode]. *)
Definition stats_key : Type := string * string * option string * option string.

Definition key_of (r : Row.t) : stats_key :=
  (Row.url r, Row.name r, Row.group_name r, Row.countryCode r).

Definition key_name (k : stats_key) : string :=
  let '(_, n, _, _) := k in n.

Definition in_group (k : stats_key) (r : Row.t) : bool :=
  bool_decide (key_of r = k).

Definition key_of_stats (s : URLStats.t) : stats_key :=
  (URLStats.url s, URLStats.name s, URLStats.group_name s, URLStats.countryCode s).

(** [row.totalRequests > 0 ? (row.successfulRequests / row.totalRequests) * 100 : 0]
    on JavaScript numbers: the quotient is rounded, then the product. *)
Definition successRate (successfulRequests totalRequests : Z) : Q :=
  if 0 <? totalRequests
  then Binary64.mul (Binary64.div (inject_Z successfulRequests) (inject_Z totalRequests)) 100
  else 0.

(** The same expression on the primitive floats of the kernel; used to
    cross-check concrete rates. *)
Definition successRate_binary64 (successfulRequests totalRequests : float) : float :=
  if (0 <? totalRequests)%float
  then (successfulRequests / totalRequests * 100)%float
  else 0%float.

(** The distinct rows [getGroupHierarchy] selects. *)
Record Combo := {
  c_group_name : string;
  c_countryCode : option string;
  c_url : string;
  c_name : string
}.

Global Instance Combo_eq_dec : EqDecision Combo.
Proof. solve_decision. Defined.

(** [WHERE group_name IS NOT NULL AND group_name != ''] (the [url] and
    [name] columns are [NOT NULL] by the schema). *)
Definition combo_of (r : Row.t) : option Combo :=
  match Row.group_name r with
  | Some g =>
      if String.eqb g "" then None
      else Some {| c_group_name := g;
                   c_countryCode := Row.countryCode r;
                   c_url := Row.url r;
                   c_name := Row.name r |}
  | None => None
  end.

Definition lex (c1 c2 : comparison) : comparison :=
  match c1 with Eq => c2 | _ => c1 end.

Definition compare_nullable (a b : option string) : comparison :=
  match a, b with
  | None, None => Eq
  | None, Some _ => Lt
  | Some _, None => Gt
  | Some x, Some y => String.compare x y
  end.

(** [ORDER BY group_name, countryCode, name] *)
Definition combo_leb (a b : Combo) : bool :=
  match lex (String.compare (c_group_name a) (c_group_name b))
            (lex (compare_nullable (c_countryCode a) (c_countryCode b))
                 (String.compare (c_name a) (c_name b))) with
  | Gt => false
  | _ => true
  end.

Definition combo_le (a b : Combo) : Prop := Is_true (combo_leb a b).

Global Instance combo_le_dec : RelDecision combo_le.
Proof. intros a b. unfold combo_le. apply _. Defined.

Definition select_combos (db : Sql.Store) : list Combo :=
  merge_sort combo_le (remove_dups (omap combo_of (Sql.requests db))).

(** The body of [rows.forEach]: find or create the entry of the row's
    group and country, then add the url unless the entry has it. *)
Definition hierarchy_key (row : Combo) : string :=
  c_group_name row ++ "|" ++ Js.or_str (c_countryCode row) "no-country".

Definition has_url (u : string) (urls : list GroupHierarchy.link) : bool :=
  existsb (fun l => String.eqb (GroupHierarchy.url l) u) urls.

Definition add_combo (hierarchyMap : Dict.t GroupHierarchy.t) (row : Combo)
  : Dict.t GroupHierarchy.t :=
  let key := hierarchy_key row in
  let entry :=
    match Dict.get key hierarchyMap with
    | Some e => e
    | None => {| GroupHierarchy.group_name := c_group_name row;
                 GroupHierarchy.countryCode := Js.or_null (c_countryCode row);
                 GroupHierarchy.urls := [] |}
    end in
  let entry' :=
    if has_url (c_url row) (GroupHierarchy.urls entry) then entry
    else {| GroupHierarchy.group_name := GroupHierarchy.group_name entry;
            GroupHierarchy.countryCode := GroupHierarchy.countryCode entry;
            GroupHierarchy.urls :=
              GroupHierarchy.urls entry ++
              [{| GroupHierarchy.url := c_url row;
                  GroupHierarchy.name := c_name row |}] |} in
  Dict.set key entry' hierarchyMap.

(** What an entry of [hierarchyMap] under key [k] owes to the rows handled
    so far, and what the map owes to each of them. *)
Definition entry_ok (rows : list Combo) (k : string) (e : GroupHierarchy.t) : Prop :=
  (∃ row, In row rows ∧ hierarchy_key row = k
          ∧ GroupHierarchy.group_name e = c_group_name row
          ∧ GroupHierarchy.countryCode e = Js.or_null (c_countryCode row))
  ∧ ∀ l, In l (GroupHierarchy.urls e) →
         ∃ row, In row rows ∧ hierarchy_key row = k
                ∧ GroupHierarchy.url l = c_url row ∧ GroupHierarchy.name l = c_name row.

Definition hierarchy_inv (rows : list Combo) (m : Dict.t GroupHierarchy.t) : Prop :=
  NoDup (Dict.keys m)
  ∧ (∀ k e, In (k, e) m → entry_ok rows k e)
  ∧ (∀ row, In row rows →
       ∃ e, Dict.get (hierarchy_key row) m = Some e
            ∧ has_url (c_url row) (GroupHierarchy.urls e) = true).

Definition getGroupHierarchy (db : Sql.Store) : list GroupHierarchy.t :=
  let rows := select_combos db in
  match rows with
  | [] => []
  | _ => Dict.values (fold_left add_combo rows [])
  end.

Section WithSqlite.

(** SQLite's date functions, as the queries use them:
    [datetime t] is [datetime(t)], the instant a time text denotes in
    whole seconds, [None] when it denotes none;
    [datetime_now m] is [datetime('now', m)] at the time the statement
    runs, [None] when [m] is not a modifier. *)
Variable datetime : string -> option Z.
Variable datetime_now : string -> option Z.

(** [WHERE datetime(timestamp) >= datetime('now', ?)] *)
Definition in_range (timeRange : string) (r : Row.t) : bool :=
  Sql.ge (datetime (Row.timestamp r)) (datetime_now timeRange).

(** [getResults]: the rows in the time range, of the group if one is
    given ([if (groupName)]), newest first. *)
Definition getResults (db : Sql.Store) (timeRange : string)
    (groupName : option string) : list RequestResult.t :=
  let wanted r :=
    in_range timeRange r &&
    match groupName with
    | Some g => if String.eqb g "" then true else Sql.text_eq (Row.group_name r) g
    | None => true
    end in
  let rows := merge_sort newest_first (List.filter wanted (Sql.requests db)) in
  map of_row rows.

(** The correlated subquery of [getStats]: the status of the newest
    row of the whole table with the group's url. *)
Definition last_status (db : Sql.Store) (u : string) : option Z :=
  match merge_sort newest_first
          (List.filter (fun r => String.eqb (Row.url r) u) (Sql.requests db)) with
  | r :: _ => Some (Row.status r)
  | [] => None
  end.

(** One entry of [getStats]: the aggregates of the group with key [k]
    among the selected rows, as the [SELECT] computes them, then the
    object [rows.map] builds (for a number [x || 0] is [x]). *)
Definition stats_of (db : Sql.Store) (selected : list Row.t) (k : stats_key)
  : URLStats.t :=
  let '(u, n, g, c) := k in
  let rows := List.filter (in_group k) selected in
  let totalRequests := Z.of_nat (length rows) in
  let successfulRequests := Sql.count_where (fun r => Row.success r =? 1) rows in
  let failedRequests := Sql.count_where (fun r => Row.success r =? 0) rows in
  {| URLStats.url := u;
     URLStats.name := n;
     URLStats.group_name := g;
     URLStats.countryCode := c;
     URLStats.totalRequests := totalRequests;
     URLStats.successfulRequests := successfulRequests;
     URLStats.failedRequests := failedRequests;
     URLStats.successRate := successRate successfulRequests totalRequests;
     URLStats.averageResponseTime := Js.round (Sql.avg Row.responseTime rows);
     URLStats.lastChecked := Sql.max_text Row.timestamp rows;
     URLStats.lastStatus := last_status db u |}.

(** [getStats]: the rows in the time range, grouped, in the order of the
    name. (Where SQL leaves the order of equal keys open, [merge_sort]
    fixes one; no property below depends on it.) *)
Definition getStats (db : Sql.Store) (timeRange : string) : list URLStats.t :=
  let selected := List.filter (in_range timeRange) (Sql.requests db) in
  let groups := merge_sort (by_name key_name) (remove_dups (map key_of selected)) in
  map (stats_of db selected) groups.

(** [cleanup]: the rows whose [datetime] is before
    [datetime("now", "-" || ? || " days")] are deleted; the number of
    rows changed is returned. *)
Definition cutoff (olderThanDays : Z) : option Z :=
  datetime_now ("-" ++ pretty olderThanDays ++ " days").

Definition expired (olderThanDays : Z) (r : Row.t) : bool :=
  Sql.lt (datetime (Row.timestamp r)) (cutoff olderThanDays).

Definition cleanup (db : Sql.Store) (olderThanDays : Z) : Sql.Store * Z :=
  let changes := Z.of_nat (length (List.filter (expired olderThanDays) (Sql.requests db))) in
  ({| Sql.requests :=
        List.filter (fun r => negb (expired olderThanDays r)) (Sql.requests db);
      Sql.last_id := Sql.last_id db |},
   changes).

End WithSqlite.

End Database.

(** ** The fetch-based monitor of [monitor.ts] *)

Module Monitor.

(** What one probe meets in its environment: the clock readings before
    and after the request, the text of [new Date().toISOString()], how
    [fetch] settles (the status of the response, or the rejection), and
    whether the store rejects the insert. The request headers do not
    enter the result and are left out. *)
Record Probe := {
  startTime : Z;
  endTime : Z;
  isoNow : string;
  fetched : Js.completion Js.Exn Z;
  storage_fault : option string
}.

(** [response.ok] of the Fetch standard: a status from 200 to 299. *)
Definition ok (status : Z) : bool := (200 <=? status) && (status <=? 299).

(** The [try]/[catch] of [checkURL]: the result record of a probe. *)
Definition probe_result (config : URLConfig.t) (p : Probe) : RequestResult.t :=
  match fetched p with
  | Js.Returns status =>
      let responseTime := endTime p - startTime p in
      let success := ok status in
      {| RequestResult.id := None;
         RequestResult.url := URLConfig.url config;
         RequestResult.name := URLConfig.name config;
         RequestResult.countryCode := URLConfig.countryCode config;
         RequestResult.group_name := URLConfig.group_name config;
         RequestResult.timestamp := isoNow p;
         RequestResult.status := status;
         RequestResult.responseTime := responseTime;
         RequestResult.success := success;
         RequestResult.error :=
           if success then None else Some ("HTTP " +:+ pretty status) |}
  | Js.Throws error =>
      let responseTime := endTime p - startTime p in
      {| RequestResult.id := None;
         RequestResult.url := URLConfig.url config;
         RequestResult.name := URLConfig.name config;
         RequestResult.countryCode := URLConfig.countryCode config;
         RequestResult.group_name := URLConfig.group_name config;
         RequestResult.timestamp := isoNow p;
         RequestResult.status := 0;
         RequestResult.responseTime := responseTime;
         RequestResult.success := false;
         RequestResult.error := Some (Js.or_str (Js.message error) "Request failed") |}
  end.

(** [checkURL]: probe, then [await this.database.insertResult(result)]
    outside the [try]. *)
Definition checkURL (db : Sql.Store) (config : URLConfig.t) (p : Probe)
  : Js.completion Js.Exn Sql.Store :=
  Database.insertResult (storage_fault p) db (probe_result config p).

(** The monitor object, the event loop it arms timers on, and the probes
    it has launched without awaiting them. *)
Record State := {
  isRunning : bool;
  intervals : gmap string nat;
  loop : Js.Loop URLConfig.t;
  launched : list URLConfig.t
}.

Definition fresh : State :=
  {| isRunning := false; intervals := ∅; loop := Js.idle; launched := [] |}.

(** [config.interval || 60000] *)
Definition interval_of (config : URLConfig.t) : Z :=
  match URLConfig.interval config with
  | Some ms => if ms =? 0 then 60000 else ms
  | None => 60000
  end.

(** The timer [scheduleURL] arms for a target, given the handle. *)
Definition timer_of (h : nat) (config : URLConfig.t) : Js.Timer URLConfig.t :=
  {| Js.handle := h; Js.period := interval_of config; Js.payload := config |}.

Definition scheduleURL (s : State) (config : URLConfig.t) : State :=
  let '(loop', intervalId) := Js.setInterval (loop s) config (interval_of config) in
  {| isRunning := isRunning s;
     intervals := <[URLConfig.url config := intervalId]> (intervals s);
     loop := loop';
     launched := launched s ++ [config] |}.

(** [start] returns the state it leaves behind and how it settles; the
    [throw] comes before any assignment. *)
Definition start (s : State) (urls : list URLConfig.t)
  : State * Js.completion Js.Exn unit :=
  if isRunning s then (s, Js.Throws (Js.Raised "Monitor is already running"))
  else
    (fold_left scheduleURL urls
       {| isRunning := true;
          intervals := intervals s;
          loop := loop s;
          launched := launched s |},
     Js.Returns tt).

Definition stop (s : State) : State :=
  if negb (isRunning s) then s
  else
    {| isRunning := false;
       intervals := ∅;
       loop := fold_left (fun l e => Js.clearInterval l (snd e))
                 (map_to_list (intervals s)) (loop s);
       launched := launched s |}.

Definition getMonitoredURLs (s : State) : gset string := dom (intervals s).

End Monitor.

(** ** The axios-based monitor with failure tracking *)

Module Legacy.

(** [UrlConfig], [RequestResult] and [MonitoringConfig] of the second
    [types.ts]. *)
Module UrlConfig.
Record t := {
  url : string;
  name : string;
  interval : Z;
  countryCode : option string;
  group : option string
}.
End UrlConfig.

Module RequestResult.
Record t := {
  id : option Z;
  url : string;
  name : string;
  group : option string;
  timestamp : string;
  status : Z;
  responseTime : Z;
  success : bool;
  error : option string
}.
End RequestResult.

Module MonitoringConfig.
Record t := {
  urls : list UrlConfig.t;
  defaultInterval : Z;
  retryAttempts : Z;
  timeout : Z
}.
End MonitoringConfig.

End Legacy.

Module LegacyDatabase.

(** [saveResult]: the columns it lists; [countryCode] is not among them,
    the boolean is bound as 1 or 0. *)
Definition to_row (new_id : Z) (result : Legacy.RequestResult.t) : Row.t :=
  {| Row.id := new_id;
     Row.url := Legacy.RequestResult.url result;
     Row.name := Legacy.RequestResult.name result;
     Row.countryCode := None;
     Row.group_name := Legacy.RequestResult.group result;
     Row.timestamp := Legacy.RequestResult.timestamp result;
     Row.status := Legacy.RequestResult.status result;
     Row.responseTime := Legacy.RequestResult.responseTime result;
     Row.success := if Legacy.RequestResult.success result then 1 else 0;
     Row.error := Legacy.RequestResult.error result |}.

Definition saveResult (fault : option string) (db : Sql.Store)
    (result : Legacy.RequestResult.t) : Js.completion Js.Exn Sql.Store :=
  match fault with
  | Some msg => Js.Throws (Js.SqliteFailed msg)
  | None =>
      let new_id := Sql.last_id db + 1 in
      Js.Returns {| Sql.requests := Sql.requests db ++ [to_row new_id result];
                    Sql.last_id := new_id |}
  end.

(** The rows of the hierarchy query: one per distinct
    [(group_name, countryCode, name, url)] of the table ([GROUP BY] names
    the columns), shown with the labels coalesced, in the order of the
    shown labels and the name ([ORDER BY] names the result columns).
    These are the rows on a table that has the [countryCode] column. *)
Record Shown := {
  s_group_name : string;
  s_countryCode : string;
  s_name : string;
  s_url : string
}.

Definition raw_key : Type := option string * option string * string * string.

Definition raw_of (r : Row.t) : raw_key :=
  (Row.group_name r, Row.countryCode r, Row.name r, Row.url r).

Definition show (k : raw_key) : Shown :=
  let '(g, c, n, u) := k in
  {| s_group_name := Sql.coalesce g "Ungrouped";
     s_countryCode := Sql.coalesce c "Unknown";
     s_name := n;
     s_url := u |}.

Definition shown_leb (a b : Shown) : bool :=
  match Database.lex (String.compare (s_group_name a) (s_group_name b))
          (Database.lex (String.compare (s_countryCode a) (s_countryCode b))
                        (String.compare (s_name a) (s_name b))) with
  | Gt => false
  | _ => true
  end.

Definition shown_le (a b : Shown) : Prop := Is_true (shown_leb a b).

Global Instance shown_le_dec : RelDecision shown_le.
Proof. intros a b. unfold shown_le. apply _. Defined.

Definition select_rows (db : Sql.Store) : list Shown :=
  merge_sort shown_le (map show (remove_dups (map raw_of (Sql.requests db)))).

Record link := { name : string; url : string }.

Record Group := {
  group_name : string;
  countryCode : string;
  urls : list link
}.

(** The loop body: [result[group][country]] is created on first use and
    the row's link pushed onto it. *)
Definition add_row (result : Dict.t (Dict.t (list link))) (row : Shown)
  : Dict.t (Dict.t (list link)) :=
  let countries :=
    match Dict.get (s_group_name row) result with
    | Some cs => cs
    | None => []
    end in
  let links :=
    match Dict.get (s_countryCode row) countries with
    | Some ls => ls
    | None => []
    end in
  Dict.set (s_group_name row)
    (Dict.set (s_countryCode row)
       (links ++ [{| name := s_name row; url := s_url row |}]) countries)
    result.





(** The conversion to an array: every group, every country in it. *)
Definition flatten (result : Dict.t (Dict.t (list link))) : list Group :=
  flat_map (fun gc =>
              map (fun cl => {| group_name := fst gc;
                                countryCode := fst cl;
                                urls := snd cl |}) (snd gc)) result.

(** What the loop and the conversion make of the rows when [result] and
    the objects in it behave as insertion-ordered maps. *)
Definition hierarchy_of (db : Sql.Store) : list Group :=
  flatten (fold_left add_row (select_rows db) []).

(** The [requests] table the class finds. Both classes create it with
    [CREATE TABLE IF NOT EXISTS], so the first to open the file decides:
    [own_table] is the one of this class's [initializeDatabase], which has
    no [countryCode] column; [shared_table] the one of [database.ts],
    which has it. *)
Inductive Table := own_table | shared_table.

(** The message of SQLite's error for the query on [own_table]. *)
Definition no_such_column : string := "SQLITE_ERROR: no such column: countryCode".

(** Every label the loop uses as a key is [Js.plain]. *)
Definition plain_labels (inherits : string -> bool) (db : Sql.Store) : bool :=
  forallb (fun row => Js.plain inherits (s_group_name row)
                      && Js.plain inherits (s_countryCode row))
          (select_rows db).

(** [getGroupHierarchy]. On [own_table] the statement does not compile
    and the promise is rejected with [new Error(err)]. On [shared_table]
    the promise is resolved with the hierarchy, when the labels are plain
    keys. When one is not, the loop reads or writes a member of
    [Object.prototype], or the enumeration reorders the keys: the row is
    then not listed under its labels, and what else happens depends on
    state outside the store; the embedding does not follow it and
    returns [None]. *)
Definition getGroupHierarchy (inherits : string -> bool) (table : Table)
    (db : Sql.Store) : option (Js.completion Js.Exn (list Group)) :=
  match table with
  | own_table => Some (Js.Throws (Js.Raised ("Error: " +:+ no_such_column)))
  | shared_table =>
      if plain_labels inherits db then Some (Js.Returns (hierarchy_of db)) else None
  end.

End LegacyDatabase.

Module UrlMonitor.

Import Legacy.

(** The payload handed to the Slack notifier. *)
Module SlackNotification.
Record t := {
  url : string;
  name : string;
  consecutiveFailures : nat;
  lastError : option string;
  groupName : option string
}.
End SlackNotification.

(** One call on [slackNotifier]. Both methods catch their own transport
    errors and return, whether notifications are enabled or not. *)
Inductive Alert :=
| sendFailureAlert (n : SlackNotification.t)
| sendRecoveryAlert (n : SlackNotification.t).

(** The two private collections of the class: [failureTracker] is a
    [Map<string, number>], [notifiedUrls] a [Set<string>]. The counter is
    a natural number (a double is exact far beyond any streak). *)
Record Tracking := {
  failureTracker : gmap string nat;
  notifiedUrls : gset string
}.

Definition empty_tracking : Tracking :=
  {| failureTracker := ∅; notifiedUrls := ∅ |}.

(** [this.failureTracker.get(urlKey) || 0] *)
Definition currentFailures (t : Tracking) (urlKey : string) : nat :=
  Js.or_zero (failureTracker t !! urlKey).

(** [this.notifiedUrls.has(urlKey)] *)
Definition notified (t : Tracking) (urlKey : string) : bool :=
  bool_decide (urlKey ∈ notifiedUrls t).

(** The two notifications, as [handleFailureTracking] builds them. *)
Definition recovery_of (result : RequestResult.t) : Alert :=
  sendRecoveryAlert
    {| SlackNotification.url := RequestResult.url result;
       SlackNotification.name := RequestResult.name result;
       SlackNotification.consecutiveFailures := 0;
       SlackNotification.lastError := None;
       SlackNotification.groupName := RequestResult.group result |}.

Definition failure_of (newFailureCount : nat) (result : RequestResult.t) : Alert :=
  sendFailureAlert
    {| SlackNotification.url := RequestResult.url result;
       SlackNotification.name := RequestResult.name result;
       SlackNotification.consecutiveFailures := newFailureCount;
       SlackNotification.lastError := RequestResult.error result;
       SlackNotification.groupName := RequestResult.group result |}.

(** [handleFailureTracking] is an [async] function. It runs without
    interruption from its call to [await this.slackNotifier.send...Alert],
    where the notifier call has been made, and goes on when that call has
    settled; in between, other handlers run on the same two collections.
    [Rest] is what a waiting call still has to do:
    [then_delete]: [this.notifiedUrls.delete(urlKey)] and
    [this.failureTracker.delete(urlKey)], after [sendRecoveryAlert];
    [then_add]: [this.notifiedUrls.add(urlKey)], after [sendFailureAlert]. *)
Inductive Rest :=
| then_delete (urlKey : string)
| then_add (urlKey : string).

(** [handleFailureTracking] from its call to its [await], or to its end
    when it awaits nothing: the collections as it leaves them, the
    notifier call it has made, and what it still has to do. *)
Definition handleFailureTracking (t : Tracking) (result : RequestResult.t)
  : Tracking * list Alert * option Rest :=
  let urlKey := RequestResult.url result in
  if RequestResult.success result then
    if notified t urlKey then (t, [recovery_of result], Some (then_delete urlKey))
    else
      ({| failureTracker := delete urlKey (failureTracker t);
          notifiedUrls := notifiedUrls t |}, [], None)
  else
    let newFailureCount := S (currentFailures t urlKey) in
    let t1 := {| failureTracker := <[urlKey := newFailureCount]> (failureTracker t);
                 notifiedUrls := notifiedUrls t |} in
    if (3 <=? newFailureCount)%nat && negb (notified t urlKey) then
      (t1, [failure_of newFailureCount result], Some (then_add urlKey))
    else (t1, [], None).

(** [handleFailureTracking] from its [await] to its end, on the
    collections as they are when the notifier call has settled. *)
Definition resume (t : Tracking) (rest : Rest) : Tracking :=
  match rest with
  | then_delete urlKey =>
      {| failureTracker := delete urlKey (failureTracker t);
         notifiedUrls := notifiedUrls t ∖ {[urlKey]} |}
  | then_add urlKey =>
      {| failureTracker := failureTracker t;
         notifiedUrls := notifiedUrls t ∪ {[urlKey]} |}
  end.

(** A call of [handleFailureTracking] during which no other handler
    runs: the collections at its end and the notifier call it made. *)
Definition uninterrupted (t : Tracking) (result : RequestResult.t)
  : Tracking * list Alert :=
  let '(t1, alerts, rest) := handleFailureTracking t result in
  (match rest with Some k => resume t1 k | None => t1 end, alerts).

(** Calls of [handleFailureTracking] that overlap. [called result]: a
    handler is called and runs to its [await] or to its end;
    [settled i]: the notifier call of the [i]-th waiting handler has
    settled and the handler runs to its end. [checkUrl] calls the
    handler for every result, and [startMonitoring] checks all the
    configured targets in parallel. *)
Inductive Event :=
| called (result : RequestResult.t)
| settled (i : nat).

Record Handlers := {
  tracked : Tracking;
  waiting : list Rest;
  sent : list Alert
}.

Definition quiet (t : Tracking) : Handlers :=
  {| tracked := t; waiting := []; sent := [] |}.

Definition step (h : Handlers) (e : Event) : Handlers :=
  match e with
  | called result =>
      let '(t1, alerts, rest) := handleFailureTracking (tracked h) result in
      {| tracked := t1;
         waiting := waiting h ++ option_list rest;
         sent := sent h ++ alerts |}
  | settled i =>
      match waiting h !! i with
      | Some k =>
          {| tracked := resume (tracked h) k;
             waiting := delete i (waiting h);
             sent := sent h |}
      | None => h
      end
  end.

Definition run (h : Handlers) (events : list Event) : Handlers :=
  fold_left step events h.

(** The invariant of the two collections: a notified url has a recorded
    count of at least 3. *)
Definition notified_counts_ok (t : Tracking) : Prop :=
  ∀ u, u ∈ notifiedUrls t → ∃ n, failureTracker t !! u = Some n ∧ (3 ≤ n)%nat.

(** A sequence of probe results handled one after the other, each call
    ending before the next begins. *)
Fixpoint track (t : Tracking) (results : list RequestResult.t)
  : Tracking * list Alert :=
  match results with
  | [] => (t, [])
  | r :: rest =>
      let '(t1, a1) := uninterrupted t r in
      let '(t2, a2) := track t1 rest in
      (t2, a1 ++ a2)
  end.

(** The environment of one probe, as for [Monitor.checkURL]; here the
    request is [axios.get] with [validateStatus: () => true], so every
    response, whatever its status, is a returned response. *)
Record Probe := {
  startTime : Z;
  endTime : Z;
  isoNow : string;
  requested : Js.completion Js.Exn Z;
  storage_fault : option string
}.

Definition probe_result (urlConfig : UrlConfig.t) (p : Probe) : RequestResult.t :=
  match requested p with
  | Js.Returns status =>
      let responseTime := endTime p - startTime p in
      {| RequestResult.id := None;
         RequestResult.url := UrlConfig.url urlConfig;
         RequestResult.name := UrlConfig.name urlConfig;
         RequestResult.group := UrlConfig.group urlConfig;
         RequestResult.timestamp := isoNow p;
         RequestResult.status := status;
         RequestResult.responseTime := responseTime;
         RequestResult.success := (200 <=? status) && (status <? 400);
         RequestResult.error := None |}
  | Js.Throws error =>
      let responseTime := endTime p - startTime p in
      {| RequestResult.id := None;
         RequestResult.url := UrlConfig.url urlConfig;
         RequestResult.name := UrlConfig.name urlConfig;
         RequestResult.group := UrlConfig.group urlConfig;
         RequestResult.timestamp := isoNow p;
         RequestResult.status := 0;
         RequestResult.responseTime := responseTime;
         RequestResult.success := false;
         RequestResult.error := Js.message error |}
  end.

(** The monitor object: its store, its tracking collections, its timer
    registry, the event loop and the probes launched without waiting. *)
Record State := {
  database : Sql.Store;
  tracking : Tracking;
  intervals : gmap string nat;
  loop : Js.Loop (list UrlConfig.t);
  launched : list UrlConfig.t
}.

Definition fresh : State :=
  {| database := Sql.empty; tracking := empty_tracking;
     intervals := ∅; loop := Js.idle; launched := [] |}.

(** [checkUrl]: probe; save, logging a storage error instead of
    rethrowing it; track; return the result. The tracking is that of a
    check during whose handler no other handler runs; [run] has the
    handlers of checks that overlap. The result and the stored row do not
    depend on the tracking. *)
Definition checkUrl (s : State) (urlConfig : UrlConfig.t) (p : Probe)
  : Js.completion Js.Exn (State * RequestResult.t * list Alert) :=
  let result := probe_result urlConfig p in
  let database' :=
    match LegacyDatabase.saveResult (storage_fault p) (database s) result with
    | Js.Returns db => db
    | Js.Throws _ => database s
    end in
  let '(tracking', alerts) := uninterrupted (tracking s) result in
  Js.Returns
    ({| database := database'; tracking := tracking';
        intervals := intervals s; loop := loop s; launched := launched s |},
     result, alerts).

(** [startMonitoring]: launch a first check of every url, arm one timer
    for the cycle over all urls and register it under ["main"]. *)
Definition startMonitoring (config : MonitoringConfig.t) (s : State)
  : State * Js.completion Js.Exn unit :=
  let '(loop', intervalId) :=
    Js.setInterval (loop s) (MonitoringConfig.urls config)
      (MonitoringConfig.defaultInterval config) in
  ({| database := database s; tracking := tracking s;
      intervals := <["main" := intervalId]> (intervals s);
      loop := loop';
      launched := launched s ++ MonitoringConfig.urls config |},
   Js.Returns tt).

Definition stopMonitoring (s : State) : State :=
  {| database := database s; tracking := tracking s;
     intervals := ∅;
     loop := fold_left (fun l e => Js.clearInterval l (snd e))
               (map_to_list (intervals s)) (loop s);
     launched := launched s |}.

End UrlMonitor.

(** ** A reading of SQLite's date functions

    The theorems about the store hold for any [datetime] and
    [datetime('now', m)]; the examples instantiate them with this reading
    of the texts the monitors store ([Date.toISOString]) and of the
    modifiers the callers pass (["-7 days"], ["-24 hours"]). *)

Module Clock.

Fixpoint number_go (s : string) (acc : Z) : option Z :=
  match s with
  | EmptyString => Some acc
  | String c rest =>
      match Ascii.is_nat c with
      | Some d => number_go rest (10 * acc + Z.of_nat d)
      | None => None
      end
  end.

Definition number (s : string) : option Z :=
  match s with
  | EmptyString => None
  | _ => number_go s 0
  end.

(** No white space in a text: it is one word of a modifier. *)
Fixpoint no_space (s : string) : bool :=
  match s with
  | EmptyString => true
  | String a rest => negb (Ascii.is_space a) && no_space rest
  end.

Definition field (s : string) (pos len : nat) : option Z :=
  number (String.substring pos len s).

(** Days between 1970-01-01 and a date of the proleptic Gregorian
    calendar. *)
Definition days_from_civil (y m d : Z) : Z :=
  let y' := if m <=? 2 then y - 1 else y in
  let era := y' / 400 in
  let yoe := y' - era * 400 in
  let doy := (153 * (if 2 <? m then m - 3 else m + 9) + 2) / 5 + d - 1 in
  let doe := yoe * 365 + yoe / 4 - yoe / 100 + doy in
  era * 146097 + doe - 719468.

(** [datetime(t)] for [YYYY-MM-DDTHH:MM:SS...]: whole seconds since the
    epoch, the fraction dropped. *)
Definition datetime (t : string) : option Z :=
  y ← field t 0 4; mo ← field t 5 2; d ← field t 8 2;
  h ← field t 11 2; mi ← field t 14 2; s ← field t 17 2;
  Some (days_from_civil y mo d * 86400 + h * 3600 + mi * 60 + s).

Definition seconds_per (unit : string) : option Z :=
  if String.eqb unit "days" then Some 86400
  else if String.eqb unit "hours" then Some 3600
  else if String.eqb unit "minutes" then Some 60
  else if String.eqb unit "seconds" then Some 1
  else None.

(** [datetime('now', m)] for a modifier [-N unit], at instant [now]. *)
Definition datetime_now (now : Z) (modifier : string) : option Z :=
  match String.words modifier with
  | [String c digits; unit] =>
      if Ascii.eqb c "-"%char
      then n ← number digits; per ← seconds_per unit; Some (now - n * per)
      else None
  | _ => None
  end.

End Clock.

(** ** Concrete data for the examples *)

Module Examples.

Definition down : Legacy.RequestResult.t :=
  {| Legacy.RequestResult.id := None;
     Legacy.RequestResult.url := "https://example.org/health";
     Legacy.RequestResult.name := "Example";
     Legacy.RequestResult.group := Some "Web";
     Legacy.RequestResult.timestamp := "2024-05-01T10:00:00.000Z";
     Legacy.RequestResult.status := 0;
     Legacy.RequestResult.responseTime := 10000;
     Legacy.RequestResult.success := false;
     Legacy.RequestResult.error := Some "timeout of 10000ms exceeded" |}.

Definition up : Legacy.RequestResult.t :=
  {| Legacy.RequestResult.id := None;
     Legacy.RequestResult.url := "https://example.org/health";
     Legacy.RequestResult.name := "Example";
     Legacy.RequestResult.group := Some "Web";
     Legacy.RequestResult.timestamp := "2024-05-01T10:05:00.000Z";
     Legacy.RequestResult.status := 200;
     Legacy.RequestResult.responseTime := 120;
     Legacy.RequestResult.success := true;
     Legacy.RequestResult.error := None |}.

Definition site : URLConfig.t :=
  {| URLConfig.url := "https://example.org/health";
     URLConfig.name := "Example";
     URLConfig.countryCode := Some "DE";
     URLConfig.group_name := Some "Web";
     URLConfig.interval := Some 30000 |}.

Definition legacy_site : Legacy.UrlConfig.t :=
  {| Legacy.UrlConfig.url := "https://example.org/health";
     Legacy.UrlConfig.name := "Example";
     Legacy.UrlConfig.interval := 30000;
     Legacy.UrlConfig.countryCode := None;
     Legacy.UrlConfig.group := Some "Web" |}.

(** A probe of [Monitor.checkURL] that gets a response with this status. *)
Definition responded (status : Z) : Monitor.Probe :=
  {| Monitor.startTime := 1714557600000;
     Monitor.endTime := 1714557600120;
     Monitor.isoNow := "2024-05-01T10:00:00.120Z";
     Monitor.fetched := Js.Returns status;
     Monitor.storage_fault := None |}.

(** A probe of [Monitor.checkURL] whose request is rejected. *)
Definition rejected (msg : string) : Monitor.Probe :=
  {| Monitor.startTime := 1714557600000;
     Monitor.endTime := 1714557630000;
     Monitor.isoNow := "2024-05-01T10:00:30.000Z";
     Monitor.fetched := Js.Throws (Js.RequestFailed (Some msg));
     Monitor.storage_fault := None |}.

(** A probe of [Monitor.checkURL] answered with 200 shortly before [now]
    below. *)
Definition recent : Monitor.Probe :=
  {| Monitor.startTime := 1717149300000;
     Monitor.endTime := 1717149300095;
     Monitor.isoNow := "2024-05-31T09:55:00.095Z";
     Monitor.fetched := Js.Returns 200;
     Monitor.storage_fault := None |}.

(** The same two for [UrlMonitor.checkUrl]. *)
Definition answered (status : Z) : UrlMonitor.Probe :=
  {| UrlMonitor.startTime := 1714557600000;
     UrlMonitor.endTime := 1714557600120;
     UrlMonitor.isoNow := "2024-05-01T10:00:00.120Z";
     UrlMonitor.requested := Js.Returns status;
     UrlMonitor.storage_fault := None |}.

Definition refused (msg : string) : UrlMonitor.Probe :=
  {| UrlMonitor.startTime := 1714557600000;
     UrlMonitor.endTime := 1714557610000;
     UrlMonitor.isoNow := "2024-05-01T10:00:10.000Z";
     UrlMonitor.requested := Js.Throws (Js.RequestFailed (Some msg));
     UrlMonitor.storage_fault := None |}.

Definition legacy_config : Legacy.MonitoringConfig.t :=
  {| Legacy.MonitoringConfig.urls := [legacy_site];
     Legacy.MonitoringConfig.defaultInterval := 60000;
     Legacy.MonitoringConfig.retryAttempts := 3;
     Legacy.MonitoringConfig.timeout := 10000 |}.

Definition other_site : URLConfig.t :=
  {| URLConfig.url := "https://example.org/login";
     URLConfig.name := "Login";
     URLConfig.countryCode := None;
     URLConfig.group_name := None;
     URLConfig.interval := None |}.

(** The instant the example statements run at: 2024-05-31T10:00:00Z. *)
Definition now : Z := 1717149600.

Definition stored (id : Z) (ts : string) (status ms ok : Z) : Row.t :=
  {| Row.id := id;
     Row.url := "https://example.org/health";
     Row.name := "Example";
     Row.countryCode := Some "DE";
     Row.group_name := Some "Web";
     Row.timestamp := ts;
     Row.status := status;
     Row.responseTime := ms;
     Row.success := ok;
     Row.error := None |}.

(** Three rows around the 30-day cutoff of [now]: one second older, exactly
    at it, one second younger. *)
Definition aged : Sql.Store :=
  {| Sql.requests :=
       [stored 1 "2024-05-01T09:59:59.000Z" 200 100 1;
        stored 2 "2024-05-01T10:00:00.000Z" 200 110 1;
        stored 3 "2024-05-01T10:00:01.000Z" 200 120 1];
     Sql.last_id := 3 |}.

(** Ten results of one target within the last day of [now]: seven
    successes and three failures, response times summing to 1234. *)
Definition ten : Sql.Store :=
  {| Sql.requests :=
       [stored 1 "2024-05-31T09:00:00.000Z" 200 100 1;
        stored 2 "2024-05-31T09:05:00.000Z" 200 110 1;
        stored 3 "2024-05-31T09:10:00.000Z" 500 120 0;
        stored 4 "2024-05-31T09:15:00.000Z" 200 130 1;
        stored 5 "2024-05-31T09:20:00.000Z" 200 140 1;
        stored 6 "2024-05-31T09:25:00.000Z" 0 150 0;
        stored 7 "2024-05-31T09:30:00.000Z" 200 100 1;
        stored 8 "2024-05-31T09:35:00.000Z" 404 124 0;
        stored 9 "2024-05-31T09:40:00.000Z" 200 130 1;
        stored 10 "2024-05-31T09:45:00.000Z" 200 130 1];
     Sql.last_id := 10 |}.

(** A result whose country code is the empty string. *)
Definition blank_country : RequestResult.t :=
  {| RequestResult.id := None;
     RequestResult.url := "https://example.org/health";
     RequestResult.name := "Example";
     RequestResult.countryCode := Some "";
     RequestResult.group_name := Some "Web";
     RequestResult.timestamp := "2024-05-31T09:50:00.000Z";
     RequestResult.status := 200;
     RequestResult.responseTime := 95;
     RequestResult.success := true;
     RequestResult.error := None |}.

Definition labelled_row (id : Z) (u n : string) (c g : option string) : Row.t :=
  {| Row.id := id;
     Row.url := u;
     Row.name := n;
     Row.countryCode := c;
     Row.group_name := g;
     Row.timestamp := "2024-05-31T09:00:00.000Z";
     Row.status := 200;
     Row.responseTime := 100;
     Row.success := 1;
     Row.error := None |}.

(** One row without a group, one with a group and without a country. *)
Definition sparse : Sql.Store :=
  {| Sql.requests :=
       [labelled_row 1 "https://example.org/a" "A" (Some "DE") None;
        labelled_row 2 "https://example.org/b" "B" None (Some "Web")];
     Sql.last_id := 2 |}.

End Examples.

Import Examples.

(** ** The timer registry after scheduling *)

Module Registry.

(** The position of the last entry of [urls] with url [u]: the entry whose
    timer [intervals.set(config.url, intervalId)] leaves registered. *)
Fixpoint last_index (u : string) (urls : list URLConfig.t) : option nat :=
  match urls with
  | [] => None
  | c :: rest =>
      match last_index u rest with
      | Some j => Some (S j)
      | None => if String.eqb (URLConfig.url c) u then Some O else None
      end
  end.

(** The handles a registry holds. *)
Definition handles (intervals : gmap string nat) : list nat :=
  map snd (map_to_list intervals).

End Registry.

(** ** Stores as the monitors leave them *)

Module Invariants.

(** Every row stores its [success] flag as [0] or [1], which is what
    [insertResult] writes ([result.success ? 1 : 0]). *)
Definition flags_ok (db : Sql.Store) : Prop :=
  Forall (fun r => Row.success r = 0 ∨ Row.success r = 1) (Sql.requests db).

(** The sum of a field over the entries a query returns. *)
Definition total {A} (f : A -> Z) (l : list A) : Z := Sql.sum_of f l.

(** The key under which [getGroupHierarchy] files an entry, as a function
    of the entry, with what the entry's fields owe to the way it is built. *)
Definition keyed (k : string) (e : GroupHierarchy.t) : Prop :=
  k = GroupHierarchy.group_name e +:+ "|"
      +:+ Js.or_str (GroupHierarchy.countryCode e) "no-country"
  ∧ GroupHierarchy.countryCode e ≠ Some ""
  ∧ NoDup (map GroupHierarchy.url (GroupHierarchy.urls e)).

(** What the monitor and the store need of a target to treat it as
    configured: an http(s) url, a name, labels that are absent or not
    empty, an interval that is set and not zero. *)
Definition usable (c : URLConfig.t) : Prop :=
  String.prefix "http" (URLConfig.url c) = true
  ∧ URLConfig.name c ≠ ""
  ∧ URLConfig.countryCode c ≠ Some ""
  ∧ URLConfig.group_name c ≠ Some ""
  ∧ ∃ ms, URLConfig.interval c = Some ms ∧ ms ≠ 0.

End Invariants.

(** ** The other queries of the legacy store

    The legacy class compares the [timestamp] column with
    [datetime("now", ?)] directly, as texts: the stored timestamps are the
    ISO texts of [toISOString], which do not read as numbers, and SQLite
    compares two texts byte by byte. Where a query has no [ORDER BY] the
    groups come in the order of their first row; no property depends on
    that order. *)

Module LegacyQueries.

Module GroupStats.
Record t := {
  group_name : string;
  url_count : Z;
  total_requests : Z;
  avg_response_time : Q;
  success_rate : Q;
  last_check : option string
}.
End GroupStats.

Module UrlStats.
Record t := {
  name : string;
  url : string;
  total_requests : Z;
  avg_response_time : Q;
  success_rate : Q;
  last_check : option string
}.
End UrlStats.

Module FailedRequest.
Record t := {
  id : Z;
  url : string;
  name : string;
  group_name : string;
  timestamp : string;
  status : Z;
  responseTime : Z;
  error : option string
}.
End FailedRequest.

(** [AVG(CASE WHEN success = 1 THEN 1.0 ELSE 0.0 END) * 100] *)
Definition success_rate (rows : list Row.t) : Q :=
  Binary64.mul (Sql.avg (fun r => if Row.success r =? 1 then 1 else 0) rows) 100.

(** [COUNT(DISTINCT name)] *)
Definition count_distinct (f : Row.t -> string) (rows : list Row.t) : Z :=
  Z.of_nat (length (remove_dups (map f rows))).

(** [getGroupStats]: [GROUP BY group_name] on the column, the label
    coalesced in the result. *)
Definition group_stats_of (table : list Row.t) (g : option string) : GroupStats.t :=
  let rows := List.filter (fun r => bool_decide (Row.group_name r = g)) table in
  {| GroupStats.group_name := Sql.coalesce g "Ungrouped";
     GroupStats.url_count := count_distinct Row.name rows;
     GroupStats.total_requests := Z.of_nat (length rows);
     GroupStats.avg_response_time := Sql.avg Row.responseTime rows;
     GroupStats.success_rate := success_rate rows;
     GroupStats.last_check := Sql.max_text Row.timestamp rows |}.

Definition getGroupStats (db : Sql.Store) : list GroupStats.t :=
  map (group_stats_of (Sql.requests db))
      (remove_dups (map Row.group_name (Sql.requests db))).

(** [getUrlsByGroup]: [WHERE group_name = ?], [GROUP BY name, url]. *)
Definition url_stats_of (selected : list Row.t) (k : string * string) : UrlStats.t :=
  let rows := List.filter (fun r => bool_decide ((Row.name r, Row.url r) = k)) selected in
  {| UrlStats.name := fst k;
     UrlStats.url := snd k;
     UrlStats.total_requests := Z.of_nat (length rows);
     UrlStats.avg_response_time := Sql.avg Row.responseTime rows;
     UrlStats.success_rate := success_rate rows;
     UrlStats.last_check := Sql.max_text Row.timestamp rows |}.

Definition getUrlsByGroup (db : Sql.Store) (groupName : string) : list UrlStats.t :=
  let selected :=
    List.filter (fun r => Sql.text_eq (Row.group_name r) groupName) (Sql.requests db) in
  map (url_stats_of selected)
      (remove_dups (map (fun r => (Row.name r, Row.url r)) selected)).

(** A condition that is added only [if (param)]. *)
Definition condition (param : option string) (test : string -> Row.t -> bool)
    (r : Row.t) : bool :=
  match param with
  | Some v => if String.eqb v "" then true else test v r
  | None => true
  end.

Definition failed_of (r : Row.t) : FailedRequest.t :=
  {| FailedRequest.id := Row.id r;
     FailedRequest.url := Row.url r;
     FailedRequest.name := Row.name r;
     FailedRequest.group_name := Sql.coalesce (Row.group_name r) "Ungrouped";
     FailedRequest.timestamp := Row.timestamp r;
     FailedRequest.status := Row.status r;
     FailedRequest.responseTime := Row.responseTime r;
     FailedRequest.error := Row.error r |}.

Section WithSqlite.

(** [datetime("now", m)] as the text SQLite returns,
    [YYYY-MM-DD HH:MM:SS], [None] when [m] is not a modifier. *)
Variable datetime_now_text : string -> option string.

(** [timestamp >= datetime("now", ?)] *)
Definition since (timeRange : string) (r : Row.t) : bool :=
  match datetime_now_text timeRange with
  | Some cutoff => String.leb cutoff (Row.timestamp r)
  | None => false
  end.

(** [getResults]: the rows as stored ([SELECT *]), newest first. *)
Definition getResults (db : Sql.Store) (timeRange urlName groupName : option string)
  : list Row.t :=
  merge_sort Database.newest_first
    (List.filter
       (fun r => condition timeRange since r
                 && condition urlName (fun v r => String.eqb (Row.name r) v) r
                 && condition groupName (fun v r => Sql.text_eq (Row.group_name r) v) r)
       (Sql.requests db)).

(** [getFailedRequests]: [WHERE success = 0], newest first. *)
Definition getFailedRequests (db : Sql.Store) (timeRange : option string)
  : list FailedRequest.t :=
  map failed_of
      (merge_sort Database.newest_first
         (List.filter (fun r => (Row.success r =? 0) && condition timeRange since r)
            (Sql.requests db))).

End WithSqlite.

End LegacyQueries.

(** ** The Slack notifier *)

Module SlackNotifier.

Import UrlMonitor.

Record t := {
  webhookUrl : string;
  enableNotifications : bool
}.

(** The constructor, given [process.env.SLACK_WEBHOOK_URL]. *)
Definition make (SLACK_WEBHOOK_URL : option string) : t :=
  let webhookUrl := Js.or_str SLACK_WEBHOOK_URL "" in
  {| webhookUrl := webhookUrl;
     enableNotifications := negb (String.eqb webhookUrl "") |}.

(** One [axios.post]: the address and the texts of the body that depend
    on the notification (the footer only shows the local time). *)
Record Post := {
  address : string;
  headline : string;
  fields : list string;
  error_section : option string
}.

Definition newline : string := String (Ascii.ascii_of_nat 10) "".

Definition failure_post (n : t) (notification : SlackNotification.t) : Post :=
  {| address := webhookUrl n;
     headline := "🚨 URL Monitor Alert";
     fields :=
       ["*URL:* " +:+ SlackNotification.name notification +:+ newline
        +:+ SlackNotification.url notification;
        "*Group:* " +:+ Js.or_str (SlackNotification.groupName notification) "Ungrouped"
        +:+ newline +:+ "*Consecutive Failures:* "
        +:+ pretty (SlackNotification.consecutiveFailures notification)];
     error_section :=
       Some ("*Error:* "
             +:+ Js.or_str (SlackNotification.lastError notification) "Connection failed") |}.

Definition recovery_post (n : t) (notification : SlackNotification.t) : Post :=
  {| address := webhookUrl n;
     headline := "✅ URL Monitor Recovery";
     fields :=
       ["*URL:* " +:+ SlackNotification.name notification +:+ newline
        +:+ SlackNotification.url notification;
        "*Group:* " +:+ Js.or_str (SlackNotification.groupName notification) "Ungrouped"
        +:+ newline +:+ "*Status:* Back Online! 🎉"];
     error_section := None |}.

(** [sendFailureAlert] and [sendRecoveryAlert]: the posts attempted and
    how the call settles; [posted] is how [axios.post] settles, a
    rejection is logged and not rethrown. *)
Definition sendFailureAlert (n : t) (posted : Js.completion Js.Exn unit)
    (notification : SlackNotification.t) : list Post * Js.completion Js.Exn unit :=
  if negb (enableNotifications n) then ([], Js.Returns tt)
  else
    match posted with
    | Js.Returns _ => ([failure_post n notification], Js.Returns tt)
    | Js.Throws _ => ([failure_post n notification], Js.Returns tt)
    end.

Definition sendRecoveryAlert (n : t) (posted : Js.completion Js.Exn unit)
    (notification : SlackNotification.t) : list Post * Js.completion Js.Exn unit :=
  if negb (enableNotifications n) then ([], Js.Returns tt)
  else
    match posted with
    | Js.Returns _ => ([recovery_post n notification], Js.Returns tt)
    | Js.Throws _ => ([recovery_post n notification], Js.Returns tt)
    end.

(** The call [handleFailureTracking] makes for an alert. *)
Definition deliver (n : t) (posted : Js.completion Js.Exn unit) (a : Alert)
  : list Post * Js.completion Js.Exn unit :=
  match a with
  | UrlMonitor.sendFailureAlert notification => sendFailureAlert n posted notification
  | UrlMonitor.sendRecoveryAlert notification => sendRecoveryAlert n posted notification
  end.

Definition isEnabled (n : t) : bool := enableNotifications n.

End SlackNotifier.

(** ** Loading the targets (the loader of the fetch-based monitor) *)

Module ConfigLoader.

(** A row as [csv-parser] hands it over: a column that the file does
    not have is [undefined]. *)
Module CsvRow.
Record t := {
  url : option string;
  name : option string;
  countryCode : option string;
  group : option string;
  interval : option string
}.
End CsvRow.

Module MonitorConfig.
Record t := {
  urls : list URLConfig.t;
  defaultInterval : Z;
  timeout : Z;
  userAgent : string
}.
End MonitorConfig.

(** [Partial<MonitorConfig>], as far as the loader reads it. *)
Module Defaults.
Record t := {
  defaultInterval : option Z;
  timeout : option Z;
  userAgent : option string
}.
End Defaults.

(** [x || d] on numbers: [undefined], [NaN] and [0] are falsy. *)
Definition or_num (o : option Z) (d : Z) : Z :=
  match o with
  | Some n => if n =? 0 then d else n
  | None => d
  end.

(** [defaultConfig?.field] *)
Definition opt {A} (defaultConfig : option Defaults.t) (field : Defaults.t -> option A)
  : option A :=
  match defaultConfig with
  | Some d => field d
  | None => None
  end.

Section WithJs.

(** [String.prototype.trim] and [parseInt] ([None] is [NaN]). *)
Variable trim : string -> string.
Variable parseInt : option string -> option Z.

(** The ['data'] handler: the entry pushed for a row, if any. *)
Definition parse_row (defaultConfig : option Defaults.t) (row : CsvRow.t)
  : option URLConfig.t :=
  match option_map trim (CsvRow.url row) with
  | Some u =>
      if String.prefix "http" u then
        Some {| URLConfig.url := u;
                URLConfig.name := Js.or_str (option_map trim (CsvRow.name row)) u;
                URLConfig.countryCode := Js.or_null (option_map trim (CsvRow.countryCode row));
                URLConfig.group_name := Js.or_null (option_map trim (CsvRow.group row));
                URLConfig.interval :=
                  Some (or_num (parseInt (CsvRow.interval row))
                          (or_num (opt defaultConfig Defaults.defaultInterval) 60000)) |}
      else None
  | None => None
  end.

(** [loadFromCSV]: [file] is the rows of the file, [None] when there is
    no such file. *)
Definition loadFromCSV (csvPath : string) (file : option (list CsvRow.t))
    (defaultConfig : option Defaults.t) : Js.completion Js.Exn MonitorConfig.t :=
  match file with
  | None => Js.Throws (Js.Raised ("CSV file not found: " +:+ csvPath))
  | Some rows =>
      Js.Returns
        {| MonitorConfig.urls := omap (parse_row defaultConfig) rows;
           MonitorConfig.defaultInterval :=
             or_num (opt defaultConfig Defaults.defaultInterval) 60000;
           MonitorConfig.timeout := or_num (opt defaultConfig Defaults.timeout) 30000;
           MonitorConfig.userAgent :=
             Js.or_str (opt defaultConfig Defaults.userAgent) "URL-Monitor/1.0" |}
  end.

End WithJs.

End ConfigLoader.

(** ** One task of the headless cycle *)

Module HeadlessApplication.

(** What a task of [runSingleCycle] meets: the clock before and after
    the request, the two readings of [Date.now() - Date.now()] in the
    [catch], the texts of [toISOString] in the [try] and in the [catch],
    how [fetch] settles, and whether the store rejects the insert of the
    [try] and the one of the [catch]. *)
Record Task := {
  startTime : Z;
  endTime : Z;
  isoNow : string;
  fetched : Js.completion Js.Exn Z;
  storage_fault : option string;
  caughtAt : Z;
  caughtAt' : Z;
  caughtIsoNow : string;
  retry_fault : option string
}.

Definition answered_result (urlConfig : URLConfig.t) (t : Task) (status : Z)
  : RequestResult.t :=
  let responseTime := endTime t - startTime t in
  let success := Monitor.ok status in
  {| RequestResult.id := None;
     RequestResult.url := URLConfig.url urlConfig;
     RequestResult.name := URLConfig.name urlConfig;
     RequestResult.countryCode := URLConfig.countryCode urlConfig;
     RequestResult.group_name := URLConfig.group_name urlConfig;
     RequestResult.timestamp := isoNow t;
     RequestResult.status := status;
     RequestResult.responseTime := responseTime;
     RequestResult.success := success;
     RequestResult.error := if success then None else Some ("HTTP " +:+ pretty status) |}.

Definition caught_result (urlConfig : URLConfig.t) (t : Task) (error : Js.Exn)
  : RequestResult.t :=
  let responseTime := caughtAt t - caughtAt' t in
  {| RequestResult.id := None;
     RequestResult.url := URLConfig.url urlConfig;
     RequestResult.name := URLConfig.name urlConfig;
     RequestResult.countryCode := URLConfig.countryCode urlConfig;
     RequestResult.group_name := URLConfig.group_name urlConfig;
     RequestResult.timestamp := caughtIsoNow t;
     RequestResult.status := 0;
     RequestResult.responseTime := responseTime;
     RequestResult.success := false;
     RequestResult.error := Some (Js.or_str (Js.message error) "Request failed") |}.

(** The body of the [map] callback: the insert is inside the [try], so
    its rejection is caught like the request's; the insert of the
    [catch] is not guarded. *)
Definition runTask (db : Sql.Store) (urlConfig : URLConfig.t) (t : Task)
  : Js.completion Js.Exn Sql.Store :=
  let caught error :=
    Database.insertResult (retry_fault t) db (caught_result urlConfig t error) in
  match fetched t with
  | Js.Returns status =>
      match Database.insertResult (storage_fault t) db (answered_result urlConfig t status) with
      | Js.Returns db' => Js.Returns db'
      | Js.Throws error => caught error
      end
  | Js.Throws error => caught error
  end.

(** The probe of [Monitor.checkURL] that meets the same request. *)
Definition as_probe (t : Task) : Monitor.Probe :=
  {| Monitor.startTime := startTime t;
     Monitor.endTime := endTime t;
     Monitor.isoNow := isoNow t;
     Monitor.fetched := fetched t;
     Monitor.storage_fault := storage_fault t |}.

End HeadlessApplication.

(** ** More data for the examples *)

Module MoreExamples.

(** [datetime("now", "-1 hour")] as SQLite returns it for a statement
    run at [now], 2024-05-31T10:00:00Z. *)
Definition text_now (m : string) : option string :=
  if String.eqb m "-1 hour" then Some "2024-05-31 09:00:00" else None.

(** Three rows of the last day of May 2024: one just after midnight, one
    from the evening before, one from the last hour. *)
Definition night : Sql.Store :=
  {| Sql.requests :=
       [stored 1 "2024-05-30T23:59:59.000Z" 200 100 1;
        stored 2 "2024-05-31T00:00:01.000Z" 200 110 1;
        stored 3 "2024-05-31T09:30:00.000Z" 200 120 1];
     Sql.last_id := 3 |}.

(** The ten results of [ten], two results of a second target without a
    country, with response times of 1 and 2 ms, and an older result of
    the first target, from two days before [now]. *)
Definition login (id : Z) (ts : string) (status ms ok : Z) : Row.t :=
  {| Row.id := id;
     Row.url := "https://example.org/login";
     Row.name := "Login";
     Row.countryCode := None;
     Row.group_name := Some "Web";
     Row.timestamp := ts;
     Row.status := status;
     Row.responseTime := ms;
     Row.success := ok;
     Row.error := None |}.

Definition two_targets : Sql.Store :=
  {| Sql.requests :=
       login 11 "2024-05-31T09:46:00.000Z" 200 1 1
       :: Sql.requests ten
       ++ [login 12 "2024-05-31T09:47:00.000Z" 500 2 0;
           stored 13 "2024-05-29T09:00:00.000Z" 200 5000 1];
     Sql.last_id := 13 |}.

(** Twenty results of one target within the last day of [now]: eleven
    successes, then nine failures. *)
Definition twenty : Sql.Store :=
  {| Sql.requests :=
       map (fun id => stored id "2024-05-31T09:00:00.000Z"
                        (if id <=? 11 then 200 else 500) 100 (if id <=? 11 then 1 else 0))
           (map Z.of_nat (seq 1 20));
     Sql.last_id := 20 |}.

End MoreExamples.

Import MoreExamples.

(** * Properties *)

(** ** Failure streaks *)

Section FailureStreak.

Import Legacy UrlMonitor.

Implicit Types (t : Tracking) (r : RequestResult.t) (u : string).

Lemma notified_true t u : notified t u = true ↔ u ∈ notifiedUrls t.
Proof. unfold notified. apply bool_decide_eq_true. Qed.

Lemma notified_false t u : notified t u = false ↔ u ∉ notifiedUrls t.
Proof. unfold notified. apply bool_decide_eq_false. Qed.

Lemma on_success t r :
  RequestResult.success r = true →
  uninterrupted t r =
    ({| failureTracker := delete (RequestResult.url r) (failureTracker t);
        notifiedUrls := notifiedUrls t ∖ {[RequestResult.url r]} |},
     if notified t (RequestResult.url r) then [recovery_of r] else []).
Proof.
  intros Hs. unfold uninterrupted, handleFailureTracking. rewrite Hs.
  destruct (notified t (RequestResult.url r)) eqn:Hn; [reflexivity|].
  apply notified_false in Hn. do 2 f_equal.
  set_solver.
Qed.

Lemma on_failure t r :
  RequestResult.success r = false →
  let n := S (currentFailures t (RequestResult.url r)) in
  let fire := (3 <=? n)%nat && negb (notified t (RequestResult.url r)) in
  uninterrupted t r =
    ({| failureTracker := <[RequestResult.url r := n]> (failureTracker t);
        notifiedUrls :=
          if fire then notifiedUrls t ∪ {[RequestResult.url r]}
          else notifiedUrls t |},
     if fire then [failure_of n r] else []).
Proof.
  intros Hs n fire. unfold uninterrupted, handleFailureTracking. rewrite Hs.
  fold n. fold fire. destruct fire; reflexivity.
Qed.


Lemma track_cons t r rest :
  track t (r :: rest) =
    (fst (track (fst (uninterrupted t r)) rest),
     snd (uninterrupted t r) ++
     snd (track (fst (uninterrupted t r)) rest)).
Proof.
  simpl. destruct (uninterrupted t r) as [t1 a1]. simpl.
  destruct (track t1 rest) as [t2 a2]. reflexivity.
Qed.

Lemma success_count t r :
  RequestResult.success r = true →
  currentFailures (fst (uninterrupted t r)) (RequestResult.url r) = 0%nat.
Proof.
  intros Hs. rewrite on_success by done. unfold currentFailures. simpl.
  by rewrite lookup_delete_eq.
Qed.

Lemma success_notified t r :
  RequestResult.success r = true →
  notified (fst (uninterrupted t r)) (RequestResult.url r) = false.
Proof.
  intros Hs. rewrite on_success by done. apply notified_false. simpl. set_solver.
Qed.

Lemma failure_count t r :
  RequestResult.success r = false →
  currentFailures (fst (uninterrupted t r)) (RequestResult.url r)
  = S (currentFailures t (RequestResult.url r)).
Proof.
  intros Hs. rewrite on_failure by done. unfold currentFailures at 1. simpl.
  by rewrite lookup_insert_eq.
Qed.

Lemma failure_notified t r :
  RequestResult.success r = false →
  notified (fst (uninterrupted t r)) (RequestResult.url r)
  = notified t (RequestResult.url r)
    || (3 <=? S (currentFailures t (RequestResult.url r)))%nat.
Proof.
  intros Hs. rewrite on_failure by done.
  set (b := (3 <=? S (currentFailures t (RequestResult.url r)))%nat).
  cbn [fst notifiedUrls].
  destruct (notified t (RequestResult.url r)) eqn:Hn.
  - rewrite andb_false_r. exact Hn.
  - rewrite andb_true_r. cbn [orb]. destruct b.
    + apply notified_true. cbn [notifiedUrls]. set_solver.
    + exact Hn.
Qed.

Lemma failure_alerts t r :
  RequestResult.success r = false →
  snd (uninterrupted t r)
  = if (3 <=? S (currentFailures t (RequestResult.url r)))%nat
       && negb (notified t (RequestResult.url r))
    then [failure_of (S (currentFailures t (RequestResult.url r))) r]
    else [].
Proof. intros Hs. by rewrite on_failure. Qed.

Lemma other_url_untouched t r u :
  u ≠ RequestResult.url r →
  currentFailures (fst (uninterrupted t r)) u = currentFailures t u
  ∧ notified (fst (uninterrupted t r)) u = notified t u.
Proof.
  intros Hne. unfold currentFailures, notified.
  destruct (RequestResult.success r) eqn:Hs.
  - rewrite on_success by done. simpl. rewrite lookup_delete_ne by done.
    split; [done|]. apply bool_decide_ext. set_solver.
  - rewrite on_failure by done. simpl. rewrite lookup_insert_ne by done.
    split; [done|]. apply bool_decide_ext.
    destruct (_ && _); set_solver.
Qed.

(** Three failures in a row from a clean streak alert once, at the
    third; the fourth is silent; the success that follows recovers. *)
Lemma streak_alerts t u f1 f2 f3 f4 s :
  RequestResult.url f1 = u → RequestResult.url f2 = u →
  RequestResult.url f3 = u → RequestResult.url f4 = u →
  RequestResult.url s = u →
  RequestResult.success f1 = false → RequestResult.success f2 = false →
  RequestResult.success f3 = false → RequestResult.success f4 = false →
  RequestResult.success s = true →
  currentFailures t u = 0%nat → notified t u = false →
  let t3 := fst (track t [f1; f2; f3]) in
  let t4 := fst (uninterrupted t3 f4) in
  let t5 := fst (uninterrupted t4 s) in
  snd (track t [f1; f2; f3]) = [failure_of 3 f3]
  ∧ snd (uninterrupted t3 f4) = []
  ∧ snd (uninterrupted t4 s) = [recovery_of s]
  ∧ currentFailures t5 u = 0%nat ∧ notified t5 u = false.
Proof.
  intros U1 U2 U3 U4 U5 F1 F2 F3 F4 S5 C0 N0.
  pose proof (failure_count t f1 F1) as C1.
  pose proof (failure_notified t f1 F1) as N1.
  rewrite U1, C0 in C1. rewrite U1, C0, N0 in N1. simpl in N1.
  set (t1 := fst (uninterrupted t f1)) in *.
  pose proof (failure_count t1 f2 F2) as C2.
  pose proof (failure_notified t1 f2 F2) as N2.
  rewrite U2, C1 in C2. rewrite U2, C1, N1 in N2. simpl in N2.
  set (t2 := fst (uninterrupted t1 f2)) in *.
  pose proof (failure_count t2 f3 F3) as C3.
  pose proof (failure_notified t2 f3 F3) as N3.
  rewrite U3, C2 in C3. rewrite U3, C2, N2 in N3. simpl in N3.
  set (t3' := fst (uninterrupted t2 f3)) in *.
  assert (Ht3 : fst (track t [f1; f2; f3]) = t3').
  { rewrite !track_cons. reflexivity. }
  assert (Ha3 : snd (track t [f1; f2; f3]) = [failure_of 3 f3]).
  { rewrite !track_cons. simpl. fold t1. fold t2.
    rewrite (on_failure t f1 F1), (on_failure t1 f2 F2), (on_failure t2 f3 F3).
    simpl. rewrite U1, U2, U3, C0, C1, C2, N0, N1, N2. reflexivity. }
  intros t3 t4 t5. subst t3 t4 t5. rewrite Ht3.
  pose proof (failure_count t3' f4 F4) as C4.
  pose proof (failure_notified t3' f4 F4) as N4.
  rewrite U4, C3 in C4. rewrite U4, C3, N3 in N4. cbn [orb] in N4.
  set (t4 := fst (uninterrupted t3' f4)) in *.
  split; [exact Ha3|]. split.
  { rewrite (on_failure t3' f4 F4). cbn [snd]. rewrite U4, C3, N3. reflexivity. }
  split.
  { rewrite (on_success t4 s S5). cbn [snd]. rewrite U5, N4. reflexivity. }
  rewrite <- U5. split; [by apply success_count | by apply success_notified].
Qed.

(** The failure-streak state machine of a call of [handleFailureTracking]
    during which no other handler runs.
    For every tracking state and every probe result of a url:
    other urls keep their count and flag; a success sets the url's count
    to 0, clears its flag, and calls [sendRecoveryAlert] exactly once
    iff the flag was set; a failure adds one to the count and calls
    [sendFailureAlert] exactly once, setting the flag, iff the new count
    is at least 3 and the flag was unset; hence from a clean streak
    three failures give exactly one failure alert, a fourth none, and
    the next success exactly one recovery alert and a count of 0. *)
Lemma uninterrupted_state_machine t r :
  let u := RequestResult.url r in
  let t' := fst (uninterrupted t r) in
  let alerts := snd (uninterrupted t r) in
  (∀ u', u' ≠ u →
     currentFailures t' u' = currentFailures t u' ∧ notified t' u' = notified t u')
  ∧ (if RequestResult.success r then
       currentFailures t' u = 0%nat ∧ notified t' u = false
       ∧ alerts = (if notified t u then [recovery_of r] else [])
     else
       currentFailures t' u = S (currentFailures t u)
       ∧ (if (3 <=? S (currentFailures t u))%nat && negb (notified t u)
          then alerts = [failure_of (S (currentFailures t u)) r]
               ∧ notified t' u = true
          else alerts = [] ∧ notified t' u = notified t u))
  ∧ (∀ f1 f2 f3 f4 s,
       RequestResult.url f1 = u → RequestResult.url f2 = u →
       RequestResult.url f3 = u → RequestResult.url f4 = u →
       RequestResult.url s = u →
       RequestResult.success f1 = false → RequestResult.success f2 = false →
       RequestResult.success f3 = false → RequestResult.success f4 = false →
       RequestResult.success s = true →
       currentFailures t u = 0%nat → notified t u = false →
       let t3 := fst (track t [f1; f2; f3]) in
       let t4 := fst (uninterrupted t3 f4) in
       let t5 := fst (uninterrupted t4 s) in
       snd (track t [f1; f2; f3]) = [failure_of 3 f3]
       ∧ snd (uninterrupted t3 f4) = []
       ∧ snd (uninterrupted t4 s) = [recovery_of s]
       ∧ currentFailures t5 u = 0%nat ∧ notified t5 u = false).
Proof.
  intros u t' alerts. split; [|split].
  - intros u' Hne. by apply other_url_untouched.
  - subst u t' alerts. destruct (RequestResult.success r) eqn:Hs.
    + split; [by apply success_count|]. split; [by apply success_notified|].
      by rewrite on_success.
    + split; [by apply failure_count|].
      rewrite failure_alerts, failure_notified by done.
      destruct (notified t (RequestResult.url r)).
      * by rewrite andb_false_r.
      * rewrite andb_true_r. cbn [orb].
        by destruct (3 <=? S (currentFailures t (RequestResult.url r)))%nat.
  - intros. by apply streak_alerts.
Qed.


Lemma handleFailureTracking_failure t r :
  RequestResult.success r = false →
  let n := S (currentFailures t (RequestResult.url r)) in
  let fire := (3 <=? n)%nat && negb (notified t (RequestResult.url r)) in
  handleFailureTracking t r =
    ({| failureTracker := <[RequestResult.url r := n]> (failureTracker t);
        notifiedUrls := notifiedUrls t |},
     if fire then [failure_of n r] else [],
     if fire then Some (then_add (RequestResult.url r)) else None).
Proof.
  intros Hs n fire. unfold handleFailureTracking. rewrite Hs. fold n. fold fire. by destruct fire.
Qed.

Lemma handleFailureTracking_success t r :
  RequestResult.success r = true →
  handleFailureTracking t r =
    if notified t (RequestResult.url r)
    then (t, [recovery_of r], Some (then_delete (RequestResult.url r)))
    else ({| failureTracker := delete (RequestResult.url r) (failureTracker t);
             notifiedUrls := notifiedUrls t |}, [], None).
Proof. intros Hs. unfold handleFailureTracking. by rewrite Hs. Qed.

(** A failure handled in a state where the url has no flag: the count
    goes up by one, the flag stays unset until the call's end, and the
    call alerts and waits iff the new count is at least 3. *)
Lemma called_failure (h : Handlers) r n :
  RequestResult.success r = false →
  currentFailures (tracked h) (RequestResult.url r) = n →
  notified (tracked h) (RequestResult.url r) = false →
  let h' := step h (called r) in
  currentFailures (tracked h') (RequestResult.url r) = S n
  ∧ notified (tracked h') (RequestResult.url r) = false
  ∧ sent h' = sent h ++ (if (3 <=? S n)%nat then [failure_of (S n) r] else [])
  ∧ waiting h'
    = waiting h ++ (if (3 <=? S n)%nat then [then_add (RequestResult.url r)] else []).
Proof.
  intros Hs Hn Hflag h'. subst h'. cbn [step].
  rewrite handleFailureTracking_failure by done. rewrite Hn, Hflag, andb_true_r.
  cbn [tracked sent waiting]. split.
  - unfold currentFailures. cbn [failureTracker]. by rewrite lookup_insert_eq.
  - split; [exact Hflag|]. by destruct (3 <=? S n)%nat.
Qed.

(** C1. The claim holds for calls of [handleFailureTracking] that do not
    overlap ([uninterrupted_state_machine]); the code does not keep them
    from overlapping. The flag that suppresses a repeated alert is set
    only after [await sendFailureAlert]: a fourth failure of the url that
    is handled while the alert of the third is being sent finds the flag
    unset and alerts as well, with a count of 4. When the third call has
    ended before the fourth begins, the fourth is silent. The run
    evaluated last is the one of a target listed twice whose two checks
    of a cycle fail. *)
Theorem C1_overlapping_failures_alert_twice :
  (∀ t f3 f4 u,
     RequestResult.url f3 = u → RequestResult.url f4 = u →
     RequestResult.success f3 = false → RequestResult.success f4 = false →
     currentFailures t u = 2%nat → notified t u = false →
     sent (run (quiet t) [called f3; called f4])
     = [failure_of 3 f3; failure_of 4 f4]
     ∧ sent (run (quiet t) [called f3; called f4; settled 0%nat; settled 0%nat])
       = [failure_of 3 f3; failure_of 4 f4]
     ∧ sent (run (quiet t) [called f3; settled 0%nat; called f4]) = [failure_of 3 f3])
  ∧ sent (run (quiet empty_tracking)
            [called down; called down; called down; called down;
             settled 0%nat; settled 0%nat])
    = [failure_of 3 down; failure_of 4 down].
Proof.
  split; [|reflexivity].
  intros t f3 f4 u U3 U4 F3 F4 Hcount Hflag. cbn [run fold_left].
  destruct (called_failure (quiet t) f3 2 F3) as (C3 & N3 & S3 & W3);
    [by rewrite U3 | by rewrite U3 |].
  remember (step (quiet t) (called f3)) as h3 eqn:E3.
  cbn [quiet sent waiting app Nat.leb] in S3, W3.
  destruct (called_failure h3 f4 3 F4) as (C4 & N4 & S4 & W4);
    [by rewrite U4, <- U3 | by rewrite U4, <- U3 |].
  remember (step h3 (called f4)) as h4 eqn:E4.
  rewrite S3 in S4. rewrite W3 in W4. cbn [app Nat.leb] in S4, W4.
  split; [exact S4|]. split.
  - cbn [step]. rewrite W4. cbn [lookup list_lookup waiting delete list_delete sent].
    exact S4.
  - cbn [step]. rewrite W3. cbn [lookup list_lookup].
    rewrite handleFailureTracking_failure by done. cbn [tracked].
    assert (Hset : notified (resume (tracked h3) (then_add (RequestResult.url f3)))
                     (RequestResult.url f4) = true).
    { apply notified_true. cbn [resume notifiedUrls]. rewrite U4, <- U3. set_solver. }
    rewrite Hset, andb_false_r. cbn [sent]. by rewrite S3, app_nil_r.
Qed.

Lemma notified_counts_ok_empty : notified_counts_ok empty_tracking.
Proof. intros u Hu. simpl in Hu. set_solver. Qed.

Lemma notified_counts_ok_step t r :
  notified_counts_ok t → notified_counts_ok (fst (uninterrupted t r)).
Proof.
  intros Hinv u. destruct (RequestResult.success r) eqn:Hs.
  - rewrite on_success by done. cbn [fst notifiedUrls failureTracker].
    intros Hu. apply elem_of_difference in Hu as [Hu Hne].
    rewrite lookup_delete_ne by set_solver. by apply Hinv.
  - rewrite on_failure by done. cbn [fst notifiedUrls failureTracker].
    intros Hu. destruct (decide (u = RequestResult.url r)) as [->|Hne].
    + rewrite lookup_insert_eq. eexists; split; [reflexivity|].
      destruct (3 <=? S (currentFailures t (RequestResult.url r)))%nat eqn:Hge.
      * by apply Nat.leb_le.
      * cbn [andb] in Hu. destruct (Hinv _ Hu) as (n & Hn & Hn3).
        unfold currentFailures. rewrite Hn. simpl. lia.
    + rewrite lookup_insert_ne by done. apply Hinv.
      destruct (_ && _); set_solver.
Qed.

Lemma notified_counts_ok_track results : ∀ t,
  notified_counts_ok t → notified_counts_ok (fst (track t results)).
Proof.
  induction results as [|r rest IH]; intros t Hinv; [exact Hinv|].
  rewrite track_cons. cbn [fst]. apply IH. by apply notified_counts_ok_step.
Qed.

(** From empty tracking maps, after any sequence of probe results handled
    by calls that do not overlap:
    every url in [notifiedUrls] has a recorded count of at least 3; a
    further failure of a url records its count plus one; a further
    success removes both the url's count and its membership in
    [notifiedUrls]. *)
Lemma uninterrupted_invariant (results : list RequestResult.t) :
  let t := fst (track empty_tracking results) in
  (∀ u, u ∈ notifiedUrls t →
     ∃ n, failureTracker t !! u = Some n ∧ (3 ≤ n)%nat)
  ∧ (∀ r, RequestResult.success r = false →
       failureTracker (fst (uninterrupted t r)) !! RequestResult.url r
       = Some (S (currentFailures t (RequestResult.url r)))
       ∧ (currentFailures t (RequestResult.url r)
          < currentFailures (fst (uninterrupted t r)) (RequestResult.url r))%nat)
  ∧ (∀ r, RequestResult.success r = true →
       failureTracker (fst (uninterrupted t r)) !! RequestResult.url r = None
       ∧ RequestResult.url r ∉ notifiedUrls (fst (uninterrupted t r))).
Proof.
  intros t. split; [|split].
  - apply notified_counts_ok_track, notified_counts_ok_empty.
  - intros r Hs. rewrite failure_count by done. split; [|lia].
    rewrite on_failure by done. cbn [fst failureTracker]. by rewrite lookup_insert_eq.
  - intros r Hs. rewrite on_success by done. cbn [fst failureTracker notifiedUrls].
    split; [by rewrite lookup_delete_eq | set_solver].
Qed.

(** C10. The invariant holds when the calls of [handleFailureTracking]
    do not overlap ([uninterrupted_invariant]); it is not an invariant of
    the program. A success of the url handled while the alert of its third
    failure is being sent finds the flag unset, so it removes the count and
    sends no recovery; the failing call then goes on and sets the flag. The
    url is left notified without a count. The run evaluated last is the one
    of a target listed twice of which one check fails and one succeeds. *)
Theorem C10_success_during_alert_leaves_flag :
  (∀ t f s u,
     RequestResult.url f = u → RequestResult.url s = u →
     RequestResult.success f = false → RequestResult.success s = true →
     currentFailures t u = 2%nat → notified t u = false →
     let h := run (quiet t) [called f; called s; settled 0%nat] in
     u ∈ notifiedUrls (tracked h)
     ∧ failureTracker (tracked h) !! u = None
     ∧ waiting h = []
     ∧ sent h = [failure_of 3 f]
     ∧ ¬ notified_counts_ok (tracked h))
  ∧ (let h := run (quiet empty_tracking)
                [called down; called down; called down; called up; settled 0%nat] in
     notified (tracked h) "https://example.org/health" = true
     ∧ failureTracker (tracked h) !! "https://example.org/health" = None
     ∧ sent h = [failure_of 3 down]
     ∧ ¬ notified_counts_ok (tracked h)).
Proof.
  assert (Hgen : ∀ t f s u,
     RequestResult.url f = u → RequestResult.url s = u →
     RequestResult.success f = false → RequestResult.success s = true →
     currentFailures t u = 2%nat → notified t u = false →
     let h := run (quiet t) [called f; called s; settled 0%nat] in
     u ∈ notifiedUrls (tracked h)
     ∧ failureTracker (tracked h) !! u = None
     ∧ waiting h = []
     ∧ sent h = [failure_of 3 f]
     ∧ ¬ notified_counts_ok (tracked h)).
  { intros t f s u Uf Us Ff Ss Hcount Hflag h.
    destruct (called_failure (quiet t) f 2 Ff) as (C3 & N3 & S3 & W3);
      [by rewrite Uf | by rewrite Uf |].
    subst h. cbn [run fold_left].
    remember (step (quiet t) (called f)) as h3 eqn:E3.
    cbn [quiet sent waiting app Nat.leb] in S3, W3.
    cbn [step]. rewrite handleFailureTracking_success by done. rewrite Us, <- Uf, N3.
    cbn [tracked waiting sent option_list]. rewrite W3, S3.
    cbn [app lookup list_lookup tracked waiting sent delete list_delete resume
         failureTracker notifiedUrls].
    assert (Hin : RequestResult.url f
                  ∈ notifiedUrls (tracked h3) ∪ {[RequestResult.url f]}) by set_solver.
    assert (Hnone : delete (RequestResult.url f) (failureTracker (tracked h3))
                    !! RequestResult.url f = None) by apply lookup_delete_eq.
    split; [exact Hin|]. split; [exact Hnone|]. split; [done|]. split; [done|].
    intros Hinv. destruct (Hinv _ Hin) as (n & Hn & _).
    cbn [failureTracker] in Hn. congruence. }
  split; [exact Hgen|].
  pose proof (Hgen (fst (track empty_tracking [down; down])) down up
                "https://example.org/health" eq_refl eq_refl eq_refl eq_refl
                eq_refl eq_refl) as (Hin & Hnone & _ & Hsent & Hbad).
  split; [by apply notified_true|]. split; [exact Hnone|]. split; [|exact Hbad].
  reflexivity.
Qed.

End FailureStreak.

(** ** Probes *)

Section Probes.

Implicit Types (config : URLConfig.t) (urlConfig : Legacy.UrlConfig.t).

Lemma ok_range status : Monitor.ok status = true ↔ 200 <= status < 300.
Proof. unfold Monitor.ok. rewrite andb_true_iff, !Z.leb_le. lia. Qed.

Lemma axios_success_range status :
  (200 <=? status) && (status <? 400) = true ↔ 200 <= status < 400.
Proof. rewrite andb_true_iff, Z.leb_le, Z.ltb_lt. lia. Qed.

(** What [checkUrl] does with a probe: it always returns, with the probe's
    result, the store extended by the result's row unless the store
    rejected it, and the scheduler's registry and timers as they were. *)
Lemma checkUrl_returns (s : UrlMonitor.State) urlConfig (p : UrlMonitor.Probe) :
  ∃ s' alerts,
    UrlMonitor.checkUrl s urlConfig p
    = Js.Returns (s', UrlMonitor.probe_result urlConfig p, alerts)
    ∧ UrlMonitor.intervals s' = UrlMonitor.intervals s
    ∧ UrlMonitor.loop s' = UrlMonitor.loop s
    ∧ Sql.requests (UrlMonitor.database s')
      = match UrlMonitor.storage_fault p with
        | None =>
            Sql.requests (UrlMonitor.database s) ++
            [LegacyDatabase.to_row (Sql.last_id (UrlMonitor.database s) + 1)
               (UrlMonitor.probe_result urlConfig p)]
        | Some _ => Sql.requests (UrlMonitor.database s)
        end.
Proof.
  unfold UrlMonitor.checkUrl.
  destruct (UrlMonitor.uninterrupted _ _) as [t' alerts].
  eexists _, alerts. split; [reflexivity|]. cbn.
  destruct (UrlMonitor.storage_fault p); auto.
Qed.

(** C2 (as amended). A received response is judged by its status alone:
    [UrlMonitor.checkUrl] records success iff the status is in [200,400),
    [Monitor.checkURL] records [response.ok], success iff the status is in
    [200,300). Both record the status itself; a 404 is a failure in both,
    a 301 a success in the first and a failure in the second. *)
Theorem C2_success_rule_per_variant (status : Z) :
  (∀ urlConfig p, UrlMonitor.requested p = Js.Returns status →
     let r := UrlMonitor.probe_result urlConfig p in
     Legacy.RequestResult.status r = status
     ∧ (Legacy.RequestResult.success r = true ↔ 200 <= status < 400))
  ∧ (∀ config p, Monitor.fetched p = Js.Returns status →
       let r := Monitor.probe_result config p in
       RequestResult.status r = status
       ∧ (RequestResult.success r = true ↔ 200 <= status < 300))
  ∧ (∀ urlConfig config,
       Legacy.RequestResult.success (UrlMonitor.probe_result urlConfig (answered 404)) = false
       ∧ RequestResult.success (Monitor.probe_result config (responded 404)) = false
       ∧ Legacy.RequestResult.success (UrlMonitor.probe_result urlConfig (answered 301)) = true
       ∧ RequestResult.success (Monitor.probe_result config (responded 301)) = false).
Proof.
  split; [|split].
  - intros urlConfig p Hp r. subst r. unfold UrlMonitor.probe_result. rewrite Hp.
    cbn. split; [reflexivity | apply axios_success_range].
  - intros config p Hp r. subst r. unfold Monitor.probe_result. rewrite Hp.
    cbn. split; [reflexivity | apply ok_range].
  - intros urlConfig config. repeat split.
Qed.

Lemma C2_witness :
  (Legacy.RequestResult.success (UrlMonitor.probe_result legacy_site (answered 302)) = true
   ↔ 200 <= 302 < 400)
  ∧ (RequestResult.success (Monitor.probe_result site (responded 302)) = true
     ↔ 200 <= 302 < 300).
Proof.
  split.
  - exact (proj2 (proj1 (C2_success_rule_per_variant 302) legacy_site (answered 302) eq_refl)).
  - exact (proj2 (proj1 (proj2 (C2_success_rule_per_variant 302)) site (responded 302) eq_refl)).
Defined.

(** C2, the claim as stated, fails for [Monitor.checkURL]: a 301 response
    is in [200,400) and is recorded with [success = false]. *)
Lemma C2_counterexample :
  let r := Monitor.probe_result site (responded 301) in
  Monitor.fetched (responded 301) = Js.Returns 301
  ∧ RequestResult.status r = 301
  ∧ RequestResult.success r = false
  ∧ ¬ (RequestResult.success r = true ↔ 200 <= RequestResult.status r < 400).
Proof.
  cbn. split; [reflexivity|]. split; [reflexivity|]. split; [reflexivity|].
  intros [_ H]. discriminate H. lia.
Qed.

(** C6. A probe whose request is rejected (timeout, DNS, refused,
    aborted) yields a result with status 0, [success = false] and the
    rejection's message as [error] (in [Monitor.checkURL], which falls back
    to ["Request failed"], when the message is not empty). The rejection
    is caught: [UrlMonitor.checkUrl] returns, leaving registry and timers
    as they were; [Monitor.checkURL] goes on to the insert and settles as
    the insert does, so it never throws the request's rejection. *)
Theorem C6_transport_failure_is_captured (e : Js.Exn) :
  (∀ urlConfig p s, UrlMonitor.requested p = Js.Throws e →
     let r := UrlMonitor.probe_result urlConfig p in
     Legacy.RequestResult.status r = 0
     ∧ Legacy.RequestResult.success r = false
     ∧ Legacy.RequestResult.error r = Js.message e
     ∧ ∃ s' alerts,
         UrlMonitor.checkUrl s urlConfig p = Js.Returns (s', r, alerts)
         ∧ UrlMonitor.intervals s' = UrlMonitor.intervals s
         ∧ UrlMonitor.loop s' = UrlMonitor.loop s)
  ∧ (∀ config p db, Monitor.fetched p = Js.Throws e →
       let r := Monitor.probe_result config p in
       RequestResult.status r = 0
       ∧ RequestResult.success r = false
       ∧ RequestResult.error r = Some (Js.or_str (Js.message e) "Request failed")
       ∧ (∀ m, Js.message e = Some m → m ≠ "" → RequestResult.error r = Some m)
       ∧ Monitor.checkURL db config p
         = match Monitor.storage_fault p with
           | None =>
               Js.Returns
                 {| Sql.requests :=
                      Sql.requests db ++ [Database.to_row (Sql.last_id db + 1) r];
                    Sql.last_id := Sql.last_id db + 1 |}
           | Some fault => Js.Throws (Js.SqliteFailed fault)
           end
       ∧ ∀ m, Monitor.checkURL db config p ≠ Js.Throws (Js.RequestFailed m)).
Proof.
  split.
  - intros urlConfig p s Hp r.
    assert (Hr : r = UrlMonitor.probe_result urlConfig p) by reflexivity.
    unfold UrlMonitor.probe_result in Hr. rewrite Hp in Hr.
    repeat split; try (rewrite Hr; reflexivity).
    destruct (checkUrl_returns s urlConfig p) as (s' & alerts & Hc & Hi & Hl & _).
    eauto.
  - intros config p db Hp r.
    assert (Hr : r = Monitor.probe_result config p) by reflexivity.
    unfold Monitor.probe_result in Hr. rewrite Hp in Hr.
    split; [by rewrite Hr|]. split; [by rewrite Hr|]. split; [by rewrite Hr|].
    split.
    { intros m Hm Hne. rewrite Hr. cbn. rewrite Hm. cbn.
      destruct (String.eqb_spec m ""); [contradiction | reflexivity]. }
    unfold Monitor.checkURL, Database.insertResult.
    destruct (Monitor.storage_fault p); split; try reflexivity; discriminate.
Qed.

Lemma C6_witness :
  Legacy.RequestResult.error
    (UrlMonitor.probe_result legacy_site (refused "connect ECONNREFUSED 127.0.0.1:443"))
  = Some "connect ECONNREFUSED 127.0.0.1:443"
  ∧ RequestResult.error (Monitor.probe_result site (rejected "fetch failed"))
    = Some "fetch failed"
  ∧ ∃ db, Monitor.checkURL Sql.empty site (rejected "fetch failed") = Js.Returns db.
Proof.
  split; [|split].
  - exact (proj1 (proj2 (proj2
      (proj1 (C6_transport_failure_is_captured
                (Js.RequestFailed (Some "connect ECONNREFUSED 127.0.0.1:443")))
         legacy_site (refused "connect ECONNREFUSED 127.0.0.1:443")
         UrlMonitor.fresh eq_refl)))).
  - refine (proj1 (proj2 (proj2 (proj2
      (proj2 (C6_transport_failure_is_captured (Js.RequestFailed (Some "fetch failed")))
         site (rejected "fetch failed") Sql.empty eq_refl))))
      "fetch failed" eq_refl _).
    discriminate.
  - eexists.
    exact (proj1 (proj2 (proj2 (proj2 (proj2
      (proj2 (C6_transport_failure_is_captured (Js.RequestFailed (Some "fetch failed")))
         site (rejected "fetch failed") Sql.empty eq_refl)))))).
Defined.

(** C7 (as amended). In [Monitor.checkURL] the [error] field is present
    iff [success] is false. In [UrlMonitor.checkUrl] it is present only
    after a rejected request (status 0, [success = false]); a received
    response never carries one, whatever its status. *)
Theorem C7_error_presence_per_variant :
  (∀ config p,
     is_Some (RequestResult.error (Monitor.probe_result config p))
     ↔ RequestResult.success (Monitor.probe_result config p) = false)
  ∧ (∀ urlConfig p,
       is_Some (Legacy.RequestResult.error (UrlMonitor.probe_result urlConfig p)) →
       Legacy.RequestResult.success (UrlMonitor.probe_result urlConfig p) = false
       ∧ Legacy.RequestResult.status (UrlMonitor.probe_result urlConfig p) = 0)
  ∧ (∀ urlConfig p status, UrlMonitor.requested p = Js.Returns status →
       Legacy.RequestResult.error (UrlMonitor.probe_result urlConfig p) = None).
Proof.
  split; [|split].
  - intros config p. unfold Monitor.probe_result.
    destruct (Monitor.fetched p) as [status|e]; cbn.
    + destruct (Monitor.ok status); split; intros H; done.
    + split; eauto.
  - intros urlConfig p. unfold UrlMonitor.probe_result.
    destruct (UrlMonitor.requested p) as [status|e]; cbn; [|done].
    by intros [? ?].
  - intros urlConfig p status Hp. unfold UrlMonitor.probe_result. by rewrite Hp.
Qed.

Lemma C7_witness :
  Legacy.RequestResult.success
    (UrlMonitor.probe_result legacy_site (refused "timeout of 10000ms exceeded")) = false
  ∧ Legacy.RequestResult.error (UrlMonitor.probe_result legacy_site (answered 500)) = None.
Proof.
  split.
  - exact (proj1 (proj1 (proj2 C7_error_presence_per_variant)
                    legacy_site (refused "timeout of 10000ms exceeded")
                    (ex_intro _ _ eq_refl))).
  - exact (proj2 (proj2 C7_error_presence_per_variant) legacy_site (answered 500) 500 eq_refl).
Defined.

(** C7, the claim as stated, fails for [UrlMonitor.checkUrl]: a 404
    response is recorded with [success = false] and no [error]. *)
Lemma C7_counterexample :
  let r := UrlMonitor.probe_result legacy_site (answered 404) in
  Legacy.RequestResult.success r = false
  ∧ Legacy.RequestResult.error r = None
  ∧ ¬ (is_Some (Legacy.RequestResult.error r) ↔ Legacy.RequestResult.success r = false).
Proof.
  cbn. split; [reflexivity|]. split; [reflexivity|].
  intros [_ H]. destruct (H eq_refl) as [x Hx]. discriminate.
Qed.

End Probes.

(** ** Starting the scheduler *)

Section Scheduling.

Implicit Types (s : Monitor.State) (config : URLConfig.t) (urls : list URLConfig.t).

Lemma schedule_all urls : ∀ s,
  let s' := fold_left Monitor.scheduleURL urls s in
  Monitor.isRunning s' = Monitor.isRunning s
  ∧ Js.armed (Monitor.loop s')
    = Js.armed (Monitor.loop s)
      ++ imap (λ i c, Monitor.timer_of (Js.next_handle (Monitor.loop s) + i) c) urls
  ∧ Js.next_handle (Monitor.loop s') = (Js.next_handle (Monitor.loop s) + length urls)%nat
  ∧ Monitor.launched s' = Monitor.launched s ++ urls
  ∧ dom (Monitor.intervals s')
    = dom (Monitor.intervals s) ∪ list_to_set (map URLConfig.url urls)
  ∧ (∀ u, u ∉ map URLConfig.url urls →
       Monitor.intervals s' !! u = Monitor.intervals s !! u)
  ∧ (NoDup (map URLConfig.url urls) → ∀ i c, urls !! i = Some c →
       Monitor.intervals s' !! URLConfig.url c
       = Some (Js.next_handle (Monitor.loop s) + i)%nat).
Proof.
  induction urls as [|c rest IH]; intros s; cbn [fold_left].
  - cbn [fold_left imap length map list_to_set].
    rewrite !app_nil_r, Nat.add_0_r, union_empty_r_L. split_and!; done.
  - specialize (IH (Monitor.scheduleURL s c)).
    destruct IH as (Hrun & Harm & Hnext & Hl & Hdom & Hother & Hreg).
    cbn [Monitor.scheduleURL Js.setInterval Monitor.loop Monitor.intervals
         Monitor.isRunning Monitor.launched Js.armed Js.next_handle] in *.
    split; [exact Hrun|]. split.
    { rewrite Harm, <- app_assoc. cbn. f_equal. unfold Monitor.timer_of at 2.
      rewrite Nat.add_0_r. f_equal. apply imap_ext. intros i x _. cbn.
      f_equal. lia. }
    split; [rewrite Hnext; cbn; lia|].
    split; [rewrite Hl, <- app_assoc; reflexivity|].
    split; [rewrite Hdom, dom_insert_L; cbn; set_solver|].
    split.
    { intros u Hu. cbn in Hu. rewrite Hother by set_solver.
      apply lookup_insert_ne. set_solver. }
    intros Hnd i c' Hi. cbn in Hnd. apply NoDup_cons in Hnd as [Hc Hnd].
    destruct i as [|i]; cbn in Hi.
    + injection Hi as <-. rewrite Hother by exact Hc.
      rewrite lookup_insert_eq. f_equal. lia.
    + rewrite (Hreg Hnd i c' Hi). f_equal. lia.
Qed.


(** C3 (as amended). [Monitor.start] on a running monitor throws
    "Monitor is already running" and changes nothing: registry, armed
    timers and launched probes stay as they were. So after a first start
    on targets with distinct urls (from a stopped monitor with no timers)
    there is exactly one armed timer per target, registered under the
    target's url, and a second call leaves exactly that.
    [UrlMonitor.startMonitoring] has no such guard: every call returns,
    arms one more timer and puts its handle under ["main"]. *)
Theorem C3_start_twice_is_refused :
  (∀ s urls, Monitor.isRunning s = true →
     Monitor.start s urls = (s, Js.Throws (Js.Raised "Monitor is already running")))
  ∧ (∀ s urls urls',
       Monitor.isRunning s = false → Monitor.intervals s = ∅ →
       Js.armed (Monitor.loop s) = [] → NoDup (map URLConfig.url urls) →
       let s1 := fst (Monitor.start s urls) in
       snd (Monitor.start s urls) = Js.Returns tt
       ∧ Monitor.isRunning s1 = true
       ∧ size (Monitor.intervals s1) = length urls
       ∧ length (Js.armed (Monitor.loop s1)) = length urls
       ∧ (∀ c, c ∈ urls →
            ∃ tm, Monitor.intervals s1 !! URLConfig.url c = Some (Js.handle tm)
                  ∧ tm ∈ Js.armed (Monitor.loop s1)
                  ∧ Js.payload tm = c
                  ∧ ∀ tm', tm' ∈ Js.armed (Monitor.loop s1) →
                           URLConfig.url (Js.payload tm') = URLConfig.url c → tm' = tm)
       ∧ Monitor.start s1 urls'
         = (s1, Js.Throws (Js.Raised "Monitor is already running")))
  ∧ (∀ cfg (m : UrlMonitor.State),
       let m' := fst (UrlMonitor.startMonitoring cfg m) in
       snd (UrlMonitor.startMonitoring cfg m) = Js.Returns tt
       ∧ length (Js.armed (UrlMonitor.loop m')) = S (length (Js.armed (UrlMonitor.loop m)))
       ∧ UrlMonitor.intervals m' !! "main" = Some (Js.next_handle (UrlMonitor.loop m))
       ∧ Js.next_handle (UrlMonitor.loop m') = S (Js.next_handle (UrlMonitor.loop m))).
Proof.
  assert (Hguard : ∀ s urls, Monitor.isRunning s = true →
            Monitor.start s urls = (s, Js.Throws (Js.Raised "Monitor is already running"))).
  { intros s urls Hrun. unfold Monitor.start. by rewrite Hrun. }
  split; [exact Hguard|]. split.
  - intros s urls urls' Hstopped Hempty Hidle Hnd s1.
    assert (Hs1 : s1 = fold_left Monitor.scheduleURL urls
                         {| Monitor.isRunning := true;
                            Monitor.intervals := Monitor.intervals s;
                            Monitor.loop := Monitor.loop s;
                            Monitor.launched := Monitor.launched s |}).
    { subst s1. unfold Monitor.start. by rewrite Hstopped. }
    destruct (schedule_all urls
                {| Monitor.isRunning := true;
                   Monitor.intervals := Monitor.intervals s;
                   Monitor.loop := Monitor.loop s;
                   Monitor.launched := Monitor.launched s |})
      as (Hrun & Harm & _ & _ & Hdom & _ & Hreg).
    rewrite <- Hs1 in *. cbn [Monitor.isRunning Monitor.intervals Monitor.loop] in *.
    rewrite Hidle in Harm. cbn [app] in Harm. rewrite Hempty, dom_empty_L, union_empty_l_L in Hdom.
    split; [unfold Monitor.start; by rewrite Hstopped|].
    split; [exact Hrun|].
    split.
    { rewrite <- size_dom, Hdom, size_list_to_set by exact Hnd. apply length_map. }
    split; [by rewrite Harm, length_imap|].
    split; [|by apply Hguard].
    intros c Hc. apply list_elem_of_lookup in Hc as [i Hi].
    exists (Monitor.timer_of (Js.next_handle (Monitor.loop s) + i) c).
    split; [by apply Hreg|]. split.
    { rewrite Harm. apply elem_of_lookup_imap. eauto. }
    split; [reflexivity|].
    intros tm' Htm' Hurl. rewrite Harm in Htm'.
    apply elem_of_lookup_imap in Htm' as (j & c' & -> & Hj).
    cbn in Hurl.
    assert (i = j) as <-.
    { eapply NoDup_lookup; [exact Hnd| |].
      - rewrite list_lookup_fmap, Hi. reflexivity.
      - rewrite list_lookup_fmap, Hj. cbn. by rewrite Hurl. }
    congruence.
  - intros cfg m m'. subst m'. unfold UrlMonitor.startMonitoring. cbn.
    rewrite length_app, lookup_insert_eq. cbn. split_and!; try done. lia.
Qed.

Lemma C3_witness :
  let s1 := fst (Monitor.start Monitor.fresh [Examples.site; other_site]) in
  size (Monitor.intervals s1) = 2%nat
  ∧ length (Js.armed (Monitor.loop s1)) = 2%nat
  ∧ Monitor.start s1 [Examples.site; other_site]
    = (s1, Js.Throws (Js.Raised "Monitor is already running")).
Proof.
  assert (Hnd : NoDup (map URLConfig.url [Examples.site; other_site])).
  { apply NoDup_cons. split; [|apply NoDup_singleton].
    intros H. apply list_elem_of_singleton in H. discriminate. }
  pose proof (proj1 (proj2 C3_start_twice_is_refused)
                Monitor.fresh [Examples.site; other_site] [Examples.site; other_site]
                eq_refl eq_refl eq_refl Hnd) as (_ & _ & Hsize & Harm & _ & Hagain).
  exact (conj Hsize (conj Harm Hagain)).
Defined.

(** C3, the claim as stated, fails for [UrlMonitor.startMonitoring]: a
    second call on a monitor that is already monitoring returns normally,
    leaves two timers armed and replaces the registry's entry. *)
Lemma C3_counterexample :
  let m1 := fst (UrlMonitor.startMonitoring legacy_config UrlMonitor.fresh) in
  let m2 := fst (UrlMonitor.startMonitoring legacy_config m1) in
  snd (UrlMonitor.startMonitoring legacy_config m1) = Js.Returns tt
  ∧ UrlMonitor.intervals m1 !! "main" = Some 0%nat
  ∧ UrlMonitor.intervals m2 !! "main" = Some 1%nat
  ∧ UrlMonitor.intervals m2 ≠ UrlMonitor.intervals m1
  ∧ map Js.handle (Js.armed (UrlMonitor.loop m2)) = [0; 1]%nat.
Proof.
  cbn. split; [reflexivity|]. split; [reflexivity|]. split; [reflexivity|].
  split; [|reflexivity].
  intros H. apply (f_equal (λ m : gmap string nat, m !! "main")) in H.
  vm_compute in H. discriminate.
Qed.

End Scheduling.

(** ** The reference clock *)

Section ClockFacts.

Lemma string_app_cons a (s t : string) : String a s +:+ t = String a (s +:+ t).
Proof. reflexivity. Qed.

Lemma string_app_nil_r (s : string) : s +:+ "" = s.
Proof. induction s as [|a s IH]; [done|]. by rewrite string_app_cons, IH. Qed.

Lemma string_app_assoc (s t u : string) : s +:+ (t +:+ u) = (s +:+ t) +:+ u.
Proof. induction s as [|a s IH]; [done|]. by rewrite !string_app_cons, IH. Qed.

Lemma is_nat_pretty_N_char (d : N) :
  (d < 10)%N → Ascii.is_nat (pretty_N_char d) = Some (N.to_nat d).
Proof.
  intros Hd.
  assert (d = 0 ∨ d = 1 ∨ d = 2 ∨ d = 3 ∨ d = 4 ∨ d = 5 ∨ d = 6 ∨ d = 7 ∨ d = 8 ∨ d = 9)%N
    as Hcases by lia.
  repeat (destruct Hcases as [->|Hcases]; [reflexivity|]). by subst.
Qed.

Lemma is_space_pretty_N_char (d : N) : Ascii.is_space (pretty_N_char d) = false.
Proof. unfold pretty_N_char. by repeat case_match. Qed.

(** Reading back the decimal digits [pretty_N_go] puts in front of [s]. *)
Lemma number_go_pretty (x : N) :
  ∃ p, ∀ s acc,
    Clock.number_go (pretty_N_go x s) acc = Clock.number_go s (acc * p + Z.of_N x).
Proof.
  induction (N.lt_wf_0 x) as [x _ IH].
  destruct (decide (x = 0)%N) as [->|Hx].
  - exists 1. intros s acc. rewrite pretty_N_go_0. f_equal. lia.
  - destruct (IH (x `div` 10)%N) as [p Hp]; [apply N.div_lt; lia|].
    exists (10 * p). intros s acc.
    rewrite pretty_N_go_step by lia. rewrite Hp. cbn [Clock.number_go].
    rewrite is_nat_pretty_N_char by (apply N.mod_lt; lia).
    f_equal. rewrite N_nat_Z.
    pose proof (N.div_mod x 10 ltac:(lia)) as Hdm. lia.
Qed.

(** The digits are put in front, and there is at least one for a
    positive number; none of them is white space. *)
Lemma no_space_app (s t : string) : Clock.no_space (s +:+ t) = Clock.no_space s && Clock.no_space t.
Proof.
  induction s as [|a s IH]; [done|].
  rewrite string_app_cons. cbn. by rewrite IH, andb_assoc.
Qed.

Lemma pretty_N_go_prefix (x : N) :
  ∀ s, ∃ pre, pretty_N_go x s = pre +:+ s ∧ Clock.no_space pre = true
              ∧ ((0 < x)%N → pre ≠ "").
Proof.
  induction (N.lt_wf_0 x) as [x _ IH]. intros s.
  destruct (decide (x = 0)%N) as [->|Hx].
  - exists "". rewrite pretty_N_go_0. split; [done|]. split; [done|lia].
  - destruct (IH (x `div` 10)%N ltac:(apply N.div_lt; lia)
                (String (pretty_N_char (x `mod` 10)) s)) as (pre & Hpre & Hns & _).
    exists (pre +:+ String (pretty_N_char (x `mod` 10)) "").
    rewrite pretty_N_go_step by lia. rewrite Hpre. split; [|split].
    + by rewrite <- string_app_assoc.
    + rewrite no_space_app, Hns. cbn. by rewrite is_space_pretty_N_char.
    + intros _. by destruct pre.
Qed.

Lemma number_pretty (d : Z) : 0 <= d → Clock.number (pretty d) = Some d.
Proof.
  intros Hd. destruct d as [|p|p]; [done| |lia].
  change (pretty (Z.pos p)) with (pretty_N_go (N.pos p) "").
  destruct (pretty_N_go_prefix (N.pos p) "") as (pre & Hpre & _ & Hne).
  destruct (number_go_pretty (N.pos p)) as [q Hq].
  pose proof (Hq "" 0) as H0. cbn [Clock.number_go] in H0.
  replace (0 * q + Z.of_N (N.pos p)) with (Z.pos p) in H0 by lia.
  unfold Clock.number. destruct (pretty_N_go (N.pos p) "") eqn:Hs; [|exact H0].
  exfalso. destruct pre; [apply Hne; [lia | done] | discriminate].
Qed.


Lemma words_go_no_space (w : string) :
  Clock.no_space w = true → ∀ acc rest,
  String.words_go (Some acc) (w +:+ rest)
  = String.words_go (Some (String.rev_app w acc)) rest.
Proof.
  induction w as [|a w IH]; intros Hw acc rest; [done|].
  cbn in Hw. apply andb_true_iff in Hw as [Ha Hw]. apply negb_true_iff in Ha.
  rewrite string_app_cons. cbn [String.words_go]. rewrite Ha. cbn. by apply IH.
Qed.

Lemma rev_app_rev_app (w a b : string) :
  String.rev_app (String.rev_app w a) b = String.rev_app a (w +:+ b).
Proof.
  revert a b. induction w as [|c w IH]; intros a b; [done|].
  cbn [String.rev_app]. by rewrite IH.
Qed.

Lemma words_of_modifier (digits : string) :
  Clock.no_space digits = true →
  String.words ("-" +:+ digits +:+ " days") = ["-" +:+ digits; "days"].
Proof.
  intros Hd. unfold String.words.
  change ("-" +:+ digits +:+ " days") with (String "-" (digits +:+ " days")).
  cbn [String.words_go Ascii.is_space]. cbn [from_option].
  rewrite words_go_no_space by done. cbn.
  unfold String.rev. rewrite rev_app_rev_app. cbn. by rewrite string_app_nil_r.
Qed.

(** With the reference reading, the cutoff of [cleanup] exists for every
    non-negative number of days: it is that many days before now. *)
Lemma clock_cutoff (now d : Z) :
  0 <= d → Database.cutoff (Clock.datetime_now now) d = Some (now - d * 86400).
Proof.
  intros Hd. unfold Database.cutoff, Clock.datetime_now.
  assert (Hns : Clock.no_space (pretty d) = true).
  { destruct d as [|p|p]; [done| |lia].
    change (pretty (Z.pos p)) with (pretty_N_go (N.pos p) "").
    destruct (pretty_N_go_prefix (N.pos p) "") as (pre & -> & Hns & _).
    by rewrite string_app_nil_r. }
  rewrite words_of_modifier by done.
  change ("-" +:+ pretty d) with (String "-" (pretty d)). cbn [Ascii.eqb].
  rewrite number_pretty by done. reflexivity.
Qed.

End ClockFacts.

(** ** Rounding to binary64 *)

Section Rounding.

Local Open Scope Q_scope.

Lemma two_pow_pos (k : Z) : 0 < 2 ^ k.
Proof. apply Qpower_0_lt. reflexivity. Qed.

Lemma two_pow_plus (a b : Z) : 2 ^ (a + b) == 2 ^ a * 2 ^ b.
Proof. apply Qpower_plus. discriminate. Qed.

Lemma two_pow_le (a b : Z) : (a <= b)%Z → 2 ^ a <= 2 ^ b.
Proof. intros H. apply Qpower_le_compat_l; [exact H | discriminate]. Qed.

Lemma two_pow_Z (k : Z) : (0 <= k)%Z → inject_Z (2 ^ k) == 2 ^ k.
Proof. intros H. rewrite Zpower_Qpower by exact H. reflexivity. Qed.

Lemma two_pow_succ (k : Z) : 2 ^ (k + 1) == 2 * 2 ^ k.
Proof. rewrite two_pow_plus. change (2 ^ 1) with 2. ring. Qed.

Lemma inject_Z_le_half (n k : Z) : inject_Z n <= inject_Z k + (1 # 2) → (n <= k)%Z.
Proof.
  intros H. destruct (Z_le_gt_dec n k) as [Hle|Hgt]; [exact Hle|].
  exfalso. assert (k + 1 <= n)%Z as Hn by lia.
  rewrite Zle_Qle, inject_Z_plus in Hn. change (inject_Z 1) with 1 in Hn. lra.
Qed.

(** [nearest_even m] is an integer nearest to [m]. *)
Lemma nearest_even_near (m : Q) :
  m - (1 # 2) <= inject_Z (Binary64.nearest_even m)
  ∧ inject_Z (Binary64.nearest_even m) <= m + (1 # 2).
Proof.
  unfold Binary64.nearest_even.
  pose proof (Qfloor_le m) as Hlo. pose proof (Qlt_floor m) as Hhi.
  rewrite inject_Z_plus in Hhi. change (inject_Z 1) with 1 in Hhi.
  destruct (m - inject_Z (Qfloor m) ?= 1 # 2) eqn:Hc.
  - apply Qeq_alt in Hc. destruct (Z.even (Qfloor m)).
    + split; lra.
    + rewrite inject_Z_plus. change (inject_Z 1) with 1. split; lra.
  - apply Qlt_alt in Hc. split; lra.
  - apply Qgt_alt in Hc. rewrite inject_Z_plus. change (inject_Z 1) with 1. split; lra.
Qed.

Lemma nearest_even_le (m : Q) (k : Z) :
  m <= inject_Z k → (Binary64.nearest_even m <= k)%Z.
Proof.
  intros H. apply inject_Z_le_half. destruct (nearest_even_near m). lra.
Qed.

Lemma nearest_even_ge (m : Q) (k : Z) :
  inject_Z k <= m → (k <= Binary64.nearest_even m)%Z.
Proof.
  intros H. destruct (nearest_even_near m) as [Hlo _].
  destruct (Z_le_gt_dec k (Binary64.nearest_even m)) as [Hle|Hgt]; [exact Hle|].
  exfalso. assert (Binary64.nearest_even m + 1 <= k)%Z as Hn by lia.
  rewrite Zle_Qle, inject_Z_plus in Hn. change (inject_Z 1) with 1 in Hn. lra.
Qed.

(** The exponent of a positive rational. *)
Lemma exponent_spec (x : Q) :
  0 < x → 2 ^ Binary64.exponent x <= x ∧ x < 2 ^ (Binary64.exponent x + 1).
Proof.
  intros Hx. unfold Binary64.exponent.
  destruct x as [a b]. cbn [Qnum Qden].
  assert (Ha : (0 < a)%Z).
  { unfold Qlt in Hx. cbn in Hx. lia. }
  set (la := Z.log2 a). set (lb := Z.log2 (Z.pos b)).
  pose proof (Z.log2_spec a Ha) as [Ha1 Ha2]. fold la in Ha1, Ha2.
  pose proof (Z.log2_spec (Z.pos b) eq_refl) as [Hb1 Hb2]. fold lb in Hb1, Hb2.
  pose proof (Z.log2_nonneg a) as Hla. fold la in Hla.
  pose proof (Z.log2_nonneg (Z.pos b)) as Hlb. fold lb in Hlb.
  rewrite Zle_Qle, two_pow_Z in Ha1, Hb1 by done.
  rewrite Zlt_Qlt, two_pow_Z in Ha2, Hb2 by lia.
  replace (Z.succ la) with (la + 1)%Z in Ha2 by lia.
  replace (Z.succ lb) with (lb + 1)%Z in Hb2 by lia.
  rewrite two_pow_succ in Ha2, Hb2.
  set (A := inject_Z a) in *. set (B := inject_Z (Z.pos b)) in *.
  assert (HB : 0 < B) by (subst B; unfold Qlt; cbn; lia).
  assert (Hx' : (a # b) * B == A).
  { subst A B. rewrite (Qmake_Qdiv a b). field. intros H. unfold Qeq in H. cbn in H. lia. }
  set (X := a # b) in *.
  pose proof (two_pow_pos la) as HPA. pose proof (two_pow_pos lb) as HPB.
  pose proof (two_pow_pos (la - lb)) as HP.
  assert (HPd : 2 ^ (la - lb) * 2 ^ lb == 2 ^ la).
  { rewrite <- two_pow_plus. replace (la - lb + lb)%Z with la by lia. reflexivity. }
  assert (Hup : X < 2 * 2 ^ (la - lb)).
  { apply (Qmult_lt_r _ _ B HB). rewrite Hx'.
    apply Qlt_le_trans with (2 * 2 ^ la); [exact Ha2|].
    rewrite <- HPd. rewrite <- !Qmult_assoc.
    apply Qmult_le_l; [reflexivity|]. apply Qmult_le_l; [exact HP | exact Hb1]. }
  assert (Hlow : 2 ^ (la - lb) <= 2 * X).
  { apply (Qmult_le_r _ _ B HB). rewrite <- Qmult_assoc, Hx'.
    apply Qle_trans with (2 ^ (la - lb) * (2 * 2 ^ lb)).
    - apply Qmult_le_l; [exact HP|]. apply Qlt_le_weak. exact Hb2.
    - rewrite (Qmult_comm 2 (2 ^ lb)), Qmult_assoc, HPd. lra. }
  destruct (Qle_bool (2 ^ (la - lb)) X) eqn:Hc.
  - apply Qle_bool_iff in Hc. rewrite two_pow_succ. split; [exact Hc | exact Hup].
  - assert (Hlt : X < 2 ^ (la - lb)).
    { apply Qnot_le_lt. intros H. apply Qle_bool_iff in H. congruence. }
    replace (la - lb - 1 + 1)%Z with (la - lb)%Z by lia.
    split; [|exact Hlt].
    assert (H2 : 2 * 2 ^ (la - lb - 1) == 2 ^ (la - lb)).
    { rewrite <- two_pow_succ. replace (la - lb - 1 + 1)%Z with (la - lb)%Z by lia.
      reflexivity. }
    lra.
Qed.


(** The significand of a positive rational, scaled to an integer range,
    and what [round_pos] makes of it. *)
Lemma round_pos_spec (x : Q) :
  0 < x →
  let e := Binary64.exponent x in
  let m := x * 2 ^ (52 - e) in
  let n := Binary64.nearest_even m in
  2 ^ 52 <= m ∧ m < 2 ^ 53
  ∧ (2 ^ 52 <= n <= 2 ^ 53)%Z
  ∧ m * 2 ^ (e - 52) == x
  ∧ Binary64.round_pos x == inject_Z n * 2 ^ (e - 52).
Proof.
  intros Hx e m n. destruct (exponent_spec x Hx) as [Hlo Hhi]. fold e in Hlo, Hhi.
  pose proof (two_pow_pos (52 - e)) as Hs.
  assert (H52 : 2 ^ e * 2 ^ (52 - e) == 2 ^ 52).
  { rewrite <- two_pow_plus. replace (e + (52 - e))%Z with 52%Z by lia. reflexivity. }
  assert (H53 : 2 ^ (e + 1) * 2 ^ (52 - e) == 2 ^ 53).
  { rewrite <- two_pow_plus. replace (e + 1 + (52 - e))%Z with 53%Z by lia. reflexivity. }
  assert (Hm1 : 2 ^ 52 <= m).
  { subst m. rewrite <- H52. apply Qmult_le_r; [exact Hs | exact Hlo]. }
  assert (Hm2 : m < 2 ^ 53).
  { subst m. rewrite <- H53. apply Qmult_lt_r; [exact Hs | exact Hhi]. }
  split; [exact Hm1|]. split; [exact Hm2|]. split; [|split].
  - split.
    + apply nearest_even_ge. rewrite two_pow_Z by lia. exact Hm1.
    + apply nearest_even_le. rewrite two_pow_Z by lia. apply Qlt_le_weak. exact Hm2.
  - subst m. rewrite <- Qmult_assoc, <- two_pow_plus.
    replace (52 - e + (e - 52))%Z with 0%Z by lia. change (2 ^ 0) with 1. ring.
  - unfold Binary64.round_pos. fold e. fold m. fold n. apply Qred_correct.
Qed.

Lemma round_pos_pos (x : Q) : 0 < x → 0 < Binary64.round_pos x.
Proof.
  intros Hx. destruct (round_pos_spec x Hx) as (_ & _ & [Hn _] & _ & ->).
  apply Qmult_lt_0_compat; [|apply two_pow_pos].
  change 0 with (inject_Z 0). rewrite <- Zlt_Qlt. lia.
Qed.

(** The relative error of rounding is at most [2^-53]. *)
Lemma round_pos_error (x : Q) :
  0 < x →
  x - x * 2 ^ (-53) <= Binary64.round_pos x ∧ Binary64.round_pos x <= x + x * 2 ^ (-53).
Proof.
  intros Hx. destruct (round_pos_spec x Hx) as (_ & _ & _ & Hm & ->).
  destruct (exponent_spec x Hx) as [Hlo _].
  set (e := Binary64.exponent x) in *. set (m := x * 2 ^ (52 - e)) in *.
  destruct (nearest_even_near m) as [Hn1 Hn2].
  set (n := inject_Z (Binary64.nearest_even m)) in *.
  pose proof (two_pow_pos (e - 52)) as Hs.
  assert (Hu : (1 # 2) * 2 ^ (e - 52) <= x * 2 ^ (-53)).
  { assert (H : (1 # 2) * 2 ^ (e - 52) == 2 ^ e * 2 ^ (-53)).
    { rewrite <- two_pow_plus. replace (e + -53)%Z with (e - 52 + -1)%Z by lia.
      rewrite two_pow_plus. change (2 ^ (-1)) with (1 # 2). ring. }
    rewrite H. apply Qmult_le_r; [apply two_pow_pos | exact Hlo]. }
  assert (H1 : (m - (1 # 2)) * 2 ^ (e - 52) <= n * 2 ^ (e - 52)).
  { apply Qmult_le_r; [exact Hs | exact Hn1]. }
  assert (H2 : n * 2 ^ (e - 52) <= (m + (1 # 2)) * 2 ^ (e - 52)).
  { apply Qmult_le_r; [exact Hs | exact Hn2]. }
  set (s := 2 ^ (e - 52)) in *. set (v := n * s) in *.
  split; lra.
Qed.

Lemma representable_scaled (x y : Q) (M j : Z) :
  0 < x → (0 < M < 2 ^ 53)%Z → y == inject_Z M * 2 ^ j →
  2 ^ Binary64.exponent x < y ∨ x <= y →
  ∃ K : Z, inject_Z K == y * 2 ^ (52 - Binary64.exponent x).
Proof.
  intros Hx HM Hy Hbig. destruct (exponent_spec x Hx) as [Hlo _].
  set (e := Binary64.exponent x) in *.
  assert (Hlarge : 2 ^ e <= y) by (destruct Hbig; lra).
  assert (Hj : (e - 52 <= j)%Z).
  { destruct (Z_le_gt_dec (e - 52) j) as [H|H]; [exact H|]. exfalso.
    assert (Hpow : 2 ^ j <= 2 ^ (e - 53)) by (apply two_pow_le; lia).
    assert (HMq : inject_Z M <= 2 ^ 53 - 1).
    { assert (M <= 2 ^ 53 - 1)%Z as HM' by lia.
      rewrite Zle_Qle in HM'. unfold Zminus in HM'. rewrite inject_Z_plus in HM'.
      rewrite two_pow_Z in HM' by lia. exact HM'. }
    assert (HM0 : 0 <= inject_Z M).
    { change 0 with (inject_Z 0). rewrite <- Zle_Qle. lia. }
    assert (Hp : 2 ^ 53 * 2 ^ (e - 53) == 2 ^ e).
    { rewrite <- two_pow_plus. replace (53 + (e - 53))%Z with e by lia. reflexivity. }
    pose proof (two_pow_pos (e - 53)) as H53. pose proof (two_pow_pos j) as Hjp.
    assert (Hy' : y <= (2 ^ 53 - 1) * 2 ^ (e - 53)).
    { rewrite Hy. apply Qle_trans with (inject_Z M * 2 ^ (e - 53)).
      - rewrite !(Qmult_comm (inject_Z M)). by apply Qmult_le_compat_r.
      - apply Qmult_le_r; [exact H53 | exact HMq]. }
    set (p := 2 ^ (e - 53)) in *. set (q := 2 ^ 53) in *. lra. }
  exists (M * 2 ^ (j - e + 52))%Z.
  rewrite inject_Z_mult, two_pow_Z by lia. rewrite Hy, <- Qmult_assoc, <- two_pow_plus.
  replace (j + (52 - e))%Z with (j - e + 52)%Z by lia. reflexivity.
Qed.

(** Rounding does not cross a representable number. *)
Lemma round_pos_le (x y : Q) :
  0 < x → Binary64.representable y → x <= y → Binary64.round_pos x <= y.
Proof.
  intros Hx (M & j & HM & Hy) Hxy.
  destruct (representable_scaled x y M j Hx HM Hy (or_intror Hxy)) as (K & HK).
  destruct (round_pos_spec x Hx) as (_ & _ & _ & Hm & ->).
  set (e := Binary64.exponent x) in *. set (m := x * 2 ^ (52 - e)) in *.
  assert (HmK : m <= inject_Z K).
  { rewrite HK. subst m. apply Qmult_le_r; [apply two_pow_pos | exact Hxy]. }
  apply nearest_even_le in HmK. rewrite Zle_Qle in HmK.
  assert (Hback : inject_Z K * 2 ^ (e - 52) == y).
  { rewrite HK, <- Qmult_assoc, <- two_pow_plus.
    replace (52 - e + (e - 52))%Z with 0%Z by lia. change (2 ^ 0) with 1. ring. }
  rewrite <- Hback. apply Qmult_le_r; [apply two_pow_pos | exact HmK].
Qed.

Lemma round_pos_ge (x y : Q) :
  0 < x → Binary64.representable y → y <= x → y <= Binary64.round_pos x.
Proof.
  intros Hx (M & j & HM & Hy) Hyx.
  destruct (round_pos_spec x Hx) as (_ & _ & [Hn _] & Hm & Hr).
  set (e := Binary64.exponent x) in *. set (m := x * 2 ^ (52 - e)) in *.
  destruct (Qlt_le_dec (2 ^ e) y) as [Hbig|Hsmall].
  - destruct (representable_scaled x y M j Hx HM Hy (or_introl Hbig)) as (K & HK).
    fold e in HK.
    assert (HmK : inject_Z K <= m).
    { rewrite HK. subst m. apply Qmult_le_r; [apply two_pow_pos | exact Hyx]. }
    apply nearest_even_ge in HmK. rewrite Zle_Qle in HmK.
    assert (Hback : inject_Z K * 2 ^ (e - 52) == y).
    { rewrite HK, <- Qmult_assoc, <- two_pow_plus.
      replace (52 - e + (e - 52))%Z with 0%Z by lia. change (2 ^ 0) with 1. ring. }
    rewrite Hr, <- Hback. apply Qmult_le_r; [apply two_pow_pos | exact HmK].
  - rewrite Hr. apply Qle_trans with (2 ^ e); [exact Hsmall|].
    assert (H : 2 ^ e == inject_Z (2 ^ 52) * 2 ^ (e - 52)).
    { rewrite two_pow_Z by lia. rewrite <- two_pow_plus.
      replace (52 + (e - 52))%Z with e by lia. reflexivity. }
    rewrite H. apply Qmult_le_r; [apply two_pow_pos|]. by rewrite <- Zle_Qle.
Qed.

(** [round], whatever the sign. *)
Lemma round_0 (x : Q) : x == 0 → Binary64.round x = 0.
Proof.
  intros H. unfold Binary64.round. destruct (x ?= 0) eqn:Hc; [done| |].
  - apply Qlt_alt in Hc. lra.
  - apply Qgt_alt in Hc. lra.
Qed.

Lemma round_positive (x : Q) : 0 < x → Binary64.round x = Binary64.round_pos x.
Proof.
  intros H. unfold Binary64.round. destruct (x ?= 0) eqn:Hc; [| |done].
  - apply Qeq_alt in Hc. lra.
  - apply Qlt_alt in Hc. lra.
Qed.

Lemma round_negative (x : Q) : x < 0 → Binary64.round x = - Binary64.round_pos (- x).
Proof.
  intros H. unfold Binary64.round. destruct (x ?= 0) eqn:Hc; [|done|].
  - apply Qeq_alt in Hc. lra.
  - apply Qgt_alt in Hc. lra.
Qed.

Lemma round_nonneg (x : Q) : 0 <= x → 0 <= Binary64.round x.
Proof.
  intros H. destruct (Qlt_le_dec 0 x) as [Hp|Hz].
  - rewrite round_positive by exact Hp. apply Qlt_le_weak, round_pos_pos, Hp.
  - rewrite round_0; [apply Qle_refl | lra].
Qed.

Lemma round_le (x y : Q) : 0 <= x → Binary64.representable y → x <= y → Binary64.round x <= y.
Proof.
  intros H0 Hy Hxy. destruct (Qlt_le_dec 0 x) as [Hp|Hz].
  - rewrite round_positive by exact Hp. by apply round_pos_le.
  - rewrite round_0 by lra. lra.
Qed.

Lemma round_error (x : Q) :
  0 <= x →
  x - x * 2 ^ (-53) <= Binary64.round x ∧ Binary64.round x <= x + x * 2 ^ (-53).
Proof.
  intros H0. destruct (Qlt_le_dec 0 x) as [Hp|Hz].
  - rewrite round_positive by exact Hp. by apply round_pos_error.
  - rewrite round_0 by lra. assert (x == 0) as -> by lra. split; lra.
Qed.

End Rounding.

Section RoundedMean.

Local Open Scope Q_scope.

Lemma floor_unique (y : Q) (k : Z) :
  inject_Z k <= y → y < inject_Z (k + 1) → Qfloor y = k.
Proof.
  intros Hlo Hhi. pose proof (Qfloor_le y) as H1. pose proof (Qlt_floor y) as H2.
  assert (Qfloor y < k + 1)%Z as Ha.
  { rewrite Zlt_Qlt. lra. }
  assert (k < Qfloor y + 1)%Z as Hb.
  { rewrite Zlt_Qlt. lra. }
  lia.
Qed.

(** The value of a quotient of integers. *)
Lemma quotient_value (s n : Z) :
  (0 < n)%Z → (inject_Z s / inject_Z n) * inject_Z n == inject_Z s.
Proof.
  intros Hn. field. intros H. unfold Qeq in H. cbn in H. lia.
Qed.

(** A power of two that is at least [2 n], with its inverse. *)
Lemma gap_power (n : Z) :
  (0 < n)%Z →
  ∃ J : Z, (1 <= J)%Z ∧ (2 * n <= 2 ^ J)%Z ∧ (2 ^ (J - 1) < 2 * n)%Z
           ∧ 2 ^ (- J) * inject_Z (2 * n) <= 1.
Proof.
  intros Hn. exists (Z.log2_up (2 * n)).
  destruct (Z.log2_up_spec (2 * n)) as [H1 H2]; [lia|].
  assert (HJ : (1 <= Z.log2_up (2 * n))%Z).
  { change 1%Z with (Z.log2_up 2). apply Z.log2_up_le_mono. lia. }
  replace (Z.pred (Z.log2_up (2 * n))) with (Z.log2_up (2 * n) - 1)%Z in H1 by lia.
  split; [exact HJ|]. split; [exact H2|]. split; [exact H1|].
  set (J := Z.log2_up (2 * n)) in *.
  assert (Hinv : 2 ^ (- J) * 2 ^ J == 1).
  { rewrite <- two_pow_plus. replace (- J + J)%Z with 0%Z by lia. reflexivity. }
  rewrite <- Hinv. rewrite !(Qmult_comm (2 ^ (- J))).
  apply Qmult_le_compat_r; [|apply Qlt_le_weak, two_pow_pos].
  rewrite <- two_pow_Z by lia. by rewrite <- Zle_Qle.
Qed.

(** A positive quotient below a multiple of one half stays below it when
    rounded, and one above it stays above it. *)
Lemma round_pos_below (x : Q) (s n c : Z) :
  (0 < s)%Z → (0 < n)%Z → x * inject_Z n == inject_Z s →
  (2 * s < c * n)%Z → (2 * c * n <= 2 ^ 53)%Z →
  Binary64.round_pos x < inject_Z c * (1 # 2).
Proof.
  intros Hs Hn Hx Hlt Hbound.
  destruct (gap_power n Hn) as (J & HJ & HJ1 & HJ2 & Hinv).
  assert (Hn' : 0 < inject_Z n) by (change 0 with (inject_Z 0); by rewrite <- Zlt_Qlt).
  assert (Hxpos : 0 < x).
  { apply (Qmult_lt_r _ _ (inject_Z n) Hn'). rewrite Hx, Qmult_0_l.
    change 0 with (inject_Z 0). by rewrite <- Zlt_Qlt. }
  assert (Hc : (1 <= c)%Z) by nia.
  set (M := (c * 2 ^ (J - 1) - 1)%Z).
  assert (Hpow : (1 <= 2 ^ (J - 1))%Z) by (apply Z.pow_le_mono_r with (b := 0%Z); lia).
  assert (HM : (0 < M < 2 ^ 53)%Z).
  { subst M. split; [|nia].
    destruct (Z.eq_dec n 1%Z) as [->|Hn1]; [nia|].
    assert (2 <= 2 ^ (J - 1))%Z; [|nia].
    destruct (Z.eq_dec J 1%Z) as [->|HJne]; [cbn in HJ1; lia|].
    change 2%Z with (2 ^ 1)%Z at 1. apply Z.pow_le_mono_r; lia. }
  set (y := inject_Z M * 2 ^ (- J)).
  assert (Hy : Binary64.representable y) by (exists M, (- J)%Z; split; [exact HM | reflexivity]).
  assert (Hhalf : inject_Z (2 ^ (J - 1)) * 2 ^ (- J) == 1 # 2).
  { rewrite two_pow_Z by lia. rewrite <- two_pow_plus.
    replace (J - 1 + - J)%Z with (-1)%Z by lia. reflexivity. }
  assert (Hyv : y == inject_Z c * (1 # 2) - 2 ^ (- J)).
  { subst y M. replace (c * 2 ^ (J - 1) - 1)%Z with (c * 2 ^ (J - 1) + -1)%Z by lia.
    rewrite inject_Z_plus, inject_Z_mult. change (inject_Z (-1)) with (-1).
    set (P := 2 ^ (- J)) in *. set (A := inject_Z (2 ^ (J - 1))) in *.
    rewrite <- Hhalf. ring. }
  assert (Hxy : x <= y).
  { rewrite Hyv. apply (Qmult_le_r _ _ (inject_Z (2 * n))).
    - change 0 with (inject_Z 0). rewrite <- Zlt_Qlt. lia.
    - rewrite inject_Z_mult in *. change (inject_Z 2) with 2 in *.
      assert (Hint : (2 * s + 1 <= c * n)%Z) by lia.
      rewrite Zle_Qle, inject_Z_plus, !inject_Z_mult in Hint.
      change (inject_Z 2) with 2 in Hint. change (inject_Z 1) with 1 in Hint.
      set (N := inject_Z n) in *. set (S' := inject_Z s) in *. set (C := inject_Z c) in *.
      set (P := 2 ^ (- J)) in *.
      assert (E1 : x * (2 * N) == 2 * S') by (rewrite <- Hx; ring).
      assert (E2 : (C * (1 # 2) - P) * (2 * N) == C * N - P * (2 * N)) by ring.
      rewrite E1, E2. lra. }
  pose proof (round_pos_le x y Hxpos Hy Hxy) as Hr.
  pose proof (two_pow_pos (- J)). lra.
Qed.

Lemma round_pos_above (x : Q) (s n c : Z) :
  (0 < s)%Z → (0 < n)%Z → x * inject_Z n == inject_Z s →
  (c * n < 2 * s)%Z → (2 * c * n + 2 * n <= 2 ^ 53)%Z →
  inject_Z c * (1 # 2) < Binary64.round_pos x.
Proof.
  intros Hs Hn Hx Hlt Hbound.
  assert (Hn' : 0 < inject_Z n) by (change 0 with (inject_Z 0); by rewrite <- Zlt_Qlt).
  assert (Hxpos : 0 < x).
  { apply (Qmult_lt_r _ _ (inject_Z n) Hn'). rewrite Hx, Qmult_0_l.
    change 0 with (inject_Z 0). by rewrite <- Zlt_Qlt. }
  destruct (Z_le_gt_dec c 0%Z) as [Hc0|Hc].
  { apply Qle_lt_trans with 0; [|by apply round_pos_pos].
    assert (inject_Z c <= 0) by (change 0 with (inject_Z 0); by rewrite <- Zle_Qle).
    lra. }
  destruct (gap_power n Hn) as (J & HJ & HJ1 & HJ2 & Hinv).
  set (M := (c * 2 ^ (J - 1) + 1)%Z).
  assert (Hpow : (1 <= 2 ^ (J - 1))%Z) by (apply Z.pow_le_mono_r with (b := 0%Z); lia).
  assert (HM : (0 < M < 2 ^ 53)%Z) by (subst M; split; nia).
  set (y := inject_Z M * 2 ^ (- J)).
  assert (Hy : Binary64.representable y) by (exists M, (- J)%Z; split; [exact HM | reflexivity]).
  assert (Hhalf : inject_Z (2 ^ (J - 1)) * 2 ^ (- J) == 1 # 2).
  { rewrite two_pow_Z by lia. rewrite <- two_pow_plus.
    replace (J - 1 + - J)%Z with (-1)%Z by lia. reflexivity. }
  assert (Hyv : y == inject_Z c * (1 # 2) + 2 ^ (- J)).
  { subst y M. rewrite inject_Z_plus, inject_Z_mult. change (inject_Z 1) with 1.
    set (P := 2 ^ (- J)) in *. set (A := inject_Z (2 ^ (J - 1))) in *.
    rewrite <- Hhalf. ring. }
  assert (Hyx : y <= x).
  { rewrite Hyv. apply (Qmult_le_r _ _ (inject_Z (2 * n))).
    - change 0 with (inject_Z 0). rewrite <- Zlt_Qlt. lia.
    - rewrite inject_Z_mult in *. change (inject_Z 2) with 2 in *.
      assert (Hint : (c * n + 1 <= 2 * s)%Z) by lia.
      rewrite Zle_Qle, inject_Z_plus, !inject_Z_mult in Hint.
      change (inject_Z 2) with 2 in Hint. change (inject_Z 1) with 1 in Hint.
      set (N := inject_Z n) in *. set (S' := inject_Z s) in *. set (C := inject_Z c) in *.
      set (P := 2 ^ (- J)) in *.
      assert (E1 : x * (2 * N) == 2 * S') by (rewrite <- Hx; ring).
      assert (E2 : (C * (1 # 2) + P) * (2 * N) == C * N + P * (2 * N)) by ring.
      rewrite E1, E2. lra. }
  pose proof (round_pos_ge x y Hxpos Hy Hyx) as Hr.
  pose proof (two_pow_pos (- J)). lra.
Qed.

(** [Math.round] of the binary64 quotient of a sum by a count is the
    integer nearest to the exact mean, halves upwards, when the sum and
    the count are far below [2^53]. *)
Lemma round_avg (sum n : Z) :
  (0 < n)%Z → (Z.abs sum + n <= 2 ^ 51)%Z →
  Js.round (Binary64.div (inject_Z sum) (inject_Z n)) = ((2 * sum + n) / (2 * n))%Z.
Proof.
  intros Hn Hbound. unfold Js.round, Binary64.div.
  set (k := ((2 * sum + n) / (2 * n))%Z).
  assert (Hk : (2 * n * k <= 2 * sum + n < 2 * n * (k + 1))%Z).
  { pose proof (Z.div_mod (2 * sum + n) (2 * n)) as Hdm.
    pose proof (Z.mod_pos_bound (2 * sum + n) (2 * n)) as Hmb. subst k. lia. }
  set (x := inject_Z sum / inject_Z n).
  pose proof (quotient_value sum n Hn) as Hx. fold x in Hx.
  assert (Hn' : 0 < inject_Z n) by (change 0 with (inject_Z 0); by rewrite <- Zlt_Qlt).
  apply floor_unique; rewrite ?inject_Z_plus; change (inject_Z 1) with 1.
  - (* k - 1/2 <= round x *)
    destruct (Z.lt_trichotomy sum 0%Z) as [Hneg|[->|Hpos]].
    + assert (Hxneg : x < 0).
      { apply (Qmult_lt_r _ _ (inject_Z n) Hn'). rewrite Hx, Qmult_0_l.
        change 0 with (inject_Z 0). by rewrite <- Zlt_Qlt. }
      rewrite round_negative by exact Hxneg.
      assert (Hopp : - x * inject_Z n == inject_Z (- sum)).
      { rewrite inject_Z_opp, <- Hx. ring. }
      assert (Hle : Binary64.round_pos (- x) <= inject_Z (1 - 2 * k) * (1 # 2)).
      { apply round_pos_le.
        - lra.
        - exists (1 - 2 * k)%Z, (-1)%Z. split; [nia | reflexivity].
        - apply (Qmult_le_r _ _ (inject_Z n) Hn'). rewrite Hopp.
          assert (Hint : (2 * - sum <= (1 - 2 * k) * n)%Z) by nia.
          rewrite Zle_Qle, !inject_Z_mult in Hint. change (inject_Z 2) with 2 in Hint.
          set (a := inject_Z (- sum)) in *. set (b := inject_Z (1 - 2 * k)) in *.
          set (N := inject_Z n) in *.
          assert (E : b * (1 # 2) * N == (1 # 2) * (b * N)) by ring.
          rewrite E. lra. }
      unfold Zminus in Hle. rewrite inject_Z_plus, inject_Z_opp, inject_Z_mult in Hle.
      change (inject_Z 1) with 1 in Hle. change (inject_Z 2) with 2 in Hle. lra.
    + assert (k = 0)%Z as -> by (subst k; apply Z.div_small; lia).
      rewrite round_0; [|subst x; reflexivity]. change (inject_Z 0) with 0. lra.
    + assert (Hxpos : 0 < x).
      { apply (Qmult_lt_r _ _ (inject_Z n) Hn'). rewrite Hx, Qmult_0_l.
        change 0 with (inject_Z 0). by rewrite <- Zlt_Qlt. }
      rewrite round_positive by exact Hxpos.
      destruct (Z_le_gt_dec k 0%Z) as [Hk0|Hk1].
      { pose proof (round_pos_pos x Hxpos).
        assert (inject_Z k <= 0) by (change 0 with (inject_Z 0); by rewrite <- Zle_Qle).
        lra. }
      assert (Hge : inject_Z (2 * k - 1) * (1 # 2) <= Binary64.round_pos x).
      { apply round_pos_ge.
        - exact Hxpos.
        - exists (2 * k - 1)%Z, (-1)%Z. split; [nia | reflexivity].
        - apply (Qmult_le_r _ _ (inject_Z n) Hn'). rewrite Hx.
          assert (Hint : ((2 * k - 1) * n <= 2 * sum)%Z) by nia.
          rewrite Zle_Qle, !inject_Z_mult in Hint. change (inject_Z 2) with 2 in Hint.
          set (a := inject_Z sum) in *. set (b := inject_Z (2 * k - 1)) in *.
          set (N := inject_Z n) in *.
          assert (E : b * (1 # 2) * N == (1 # 2) * (b * N)) by ring.
          rewrite E. lra. }
      unfold Zminus in Hge. rewrite inject_Z_plus, inject_Z_mult in Hge.
      change (inject_Z (- (1))) with (-1) in Hge. change (inject_Z 2) with 2 in Hge. lra.
  - (* round x < k + 1/2 *)
    destruct (Z.lt_trichotomy sum 0%Z) as [Hneg|[->|Hpos]].
    + assert (Hxneg : x < 0).
      { apply (Qmult_lt_r _ _ (inject_Z n) Hn'). rewrite Hx, Qmult_0_l.
        change 0 with (inject_Z 0). by rewrite <- Zlt_Qlt. }
      rewrite round_negative by exact Hxneg.
      assert (Hopp : - x * inject_Z n == inject_Z (- sum)).
      { rewrite inject_Z_opp, <- Hx. ring. }
      assert (Hgt : inject_Z (- 2 * k - 1) * (1 # 2) < Binary64.round_pos (- x)).
      { apply (round_pos_above (- x) (- sum) n); [lia | exact Hn | exact Hopp | nia | nia]. }
      unfold Zminus in Hgt. rewrite inject_Z_plus, inject_Z_mult in Hgt.
      change (inject_Z (- (1))) with (-1) in Hgt. change (inject_Z (-2)) with (-2) in Hgt. lra.
    + assert (k = 0)%Z as -> by (subst k; apply Z.div_small; lia).
      rewrite round_0; [|subst x; reflexivity]. change (inject_Z 0) with 0. lra.
    + assert (Hxpos : 0 < x).
      { apply (Qmult_lt_r _ _ (inject_Z n) Hn'). rewrite Hx, Qmult_0_l.
        change 0 with (inject_Z 0). by rewrite <- Zlt_Qlt. }
      rewrite round_positive by exact Hxpos.
      assert (Hlt : Binary64.round_pos x < inject_Z (2 * k + 1) * (1 # 2)).
      { apply (round_pos_below x sum n); [exact Hpos | exact Hn | exact Hx | nia | nia]. }
      rewrite inject_Z_plus, inject_Z_mult in Hlt.
      change (inject_Z 1) with 1 in Hlt. change (inject_Z 2) with 2 in Hlt. lra.
Qed.

End RoundedMean.

Section Rates.

Local Open Scope Q_scope.

Lemma round_ge (x y : Q) : 0 < y → Binary64.representable y → y <= x → y <= Binary64.round x.
Proof.
  intros Hy Hrep Hyx. rewrite round_positive by lra. apply round_pos_ge; [lra | exact Hrep | exact Hyx].
Qed.

Lemma representable_Z (k : Z) : (0 < k < 2 ^ 53)%Z → Binary64.representable (inject_Z k).
Proof. intros Hk. exists k, 0%Z. split; [exact Hk|]. change (2 ^ 0) with 1. ring. Qed.

(** The quotient of a count by a larger one lies between 0 and 1. *)
Lemma quotient_unit (s t : Z) :
  (0 <= s <= t)%Z → (0 < t)%Z → 0 <= inject_Z s / inject_Z t ∧ inject_Z s / inject_Z t <= 1.
Proof.
  intros Hst Ht. pose proof (quotient_value s t Ht) as Hx.
  set (x := inject_Z s / inject_Z t) in *.
  assert (Ht' : 0 < inject_Z t) by (change 0 with (inject_Z 0); by rewrite <- Zlt_Qlt).
  split; apply (Qmult_le_r _ _ (inject_Z t) Ht'); rewrite Hx.
  - rewrite Qmult_0_l. change 0 with (inject_Z 0). rewrite <- Zle_Qle. lia.
  - rewrite Qmult_1_l. rewrite <- Zle_Qle. lia.
Qed.

Lemma rate_bounds (s t : Z) :
  (0 <= s <= t)%Z → (0 < t)%Z →
  0 <= Binary64.mul (Binary64.div (inject_Z s) (inject_Z t)) 100
  ∧ Binary64.mul (Binary64.div (inject_Z s) (inject_Z t)) 100 <= 100.
Proof.
  intros Hst Ht. destruct (quotient_unit s t Hst Ht) as [H0 H1].
  unfold Binary64.mul, Binary64.div. set (x := inject_Z s / inject_Z t) in *.
  pose proof (round_nonneg x H0) as Hr0.
  assert (Hr1 : Binary64.round x <= 1).
  { apply round_le; [exact H0 | | exact H1]. by apply (representable_Z 1). }
  split.
  - apply round_nonneg. lra.
  - apply round_le; [lra | by apply (representable_Z 100) | lra].
Qed.

(** It is within two roundings of the exact percentage. *)
Lemma rate_close (s t : Z) :
  (0 <= s)%Z → (0 < t)%Z →
  let exact := inject_Z s / inject_Z t * 100 in
  exact - exact * 2 ^ (-51) <= Binary64.mul (Binary64.div (inject_Z s) (inject_Z t)) 100
  ∧ Binary64.mul (Binary64.div (inject_Z s) (inject_Z t)) 100 <= exact + exact * 2 ^ (-51).
Proof.
  intros Hs Ht exact. subst exact.
  pose proof (quotient_value s t Ht) as Hx.
  unfold Binary64.mul, Binary64.div. set (x := inject_Z s / inject_Z t) in *.
  assert (Ht' : 0 < inject_Z t) by (change 0 with (inject_Z 0); by rewrite <- Zlt_Qlt).
  assert (H0 : 0 <= x).
  { apply (Qmult_le_r _ _ (inject_Z t) Ht'). rewrite Hx, Qmult_0_l.
    change 0 with (inject_Z 0). by rewrite <- Zle_Qle. }
  destruct (round_error x H0) as [Ha Hb].
  pose proof (round_nonneg x H0) as Hr0.
  set (r := Binary64.round x) in *.
  assert (H100 : 0 <= r * 100) by lra.
  destruct (round_error (r * 100) H100) as [Hc Hd].
  set (r' := Binary64.round (r * 100)) in *.
  change (2 ^ (-53)) with (1 # 9007199254740992) in *.
  change (2 ^ (-51)) with (1 # 2251799813685248).
  lra.
Qed.

(** The ends of the scale are exact. *)
Lemma rate_full (t : Z) :
  (0 < t)%Z → Binary64.mul (Binary64.div (inject_Z t) (inject_Z t)) 100 == 100.
Proof.
  intros Ht. unfold Binary64.mul, Binary64.div.
  assert (Hx : inject_Z t / inject_Z t == 1).
  { field. intros H. unfold Qeq in H. cbn in H. lia. }
  set (x := inject_Z t / inject_Z t) in *.
  assert (Hr : Binary64.round x == 1).
  { apply Qle_antisym.
    - apply round_le; [lra | by apply (representable_Z 1) | lra].
    - apply round_ge; [lra | by apply (representable_Z 1) | lra]. }
  set (r := Binary64.round x) in *.
  apply Qle_antisym.
  - apply round_le; [lra | by apply (representable_Z 100) | lra].
  - apply round_ge; [lra | by apply (representable_Z 100) | lra].
Qed.

Lemma rate_none (t : Z) :
  (0 < t)%Z → Binary64.mul (Binary64.div (inject_Z 0) (inject_Z t)) 100 == 0.
Proof.
  intros Ht. unfold Binary64.mul, Binary64.div.
  rewrite (round_0 (inject_Z 0 / inject_Z t)).
  - by rewrite round_0.
  - field. intros H. unfold Qeq in H. cbn in H. lia.
Qed.

End Rates.

(** ** The result store *)

Section Store.

(** SQLite's [datetime(t)] and [datetime('now', m)], as in [Database]. *)
Variable datetime : string → option Z.
Variable datetime_now : string → option Z.

Implicit Types (db : Sql.Store) (r : Row.t).

Local Abbreviation cleanup := (Database.cleanup datetime datetime_now).
Local Abbreviation expired := (Database.expired datetime datetime_now).
Local Abbreviation cutoff := (Database.cutoff datetime_now).



Local Abbreviation getResults := (Database.getResults datetime datetime_now).
Local Abbreviation in_range := (Database.in_range datetime datetime_now).

Global Instance newest_first_total : Total Database.newest_first.
Proof. intros r1 r2. unfold Database.newest_first. destruct (total String.le (Row.timestamp r1) (Row.timestamp r2)); auto. Qed.

Global Instance newest_first_trans : Transitive Database.newest_first.
Proof. intros r1 r2 r3 H12 H23. unfold Database.newest_first in *. by etrans. Qed.

(** Stored text columns that came through [x || null] are never empty. *)
Lemma of_row_to_row new_id (result : RequestResult.t) :
  Database.of_row (Database.to_row new_id result)
  = {| RequestResult.id := Some new_id;
       RequestResult.url := RequestResult.url result;
       RequestResult.name := RequestResult.name result;
       RequestResult.countryCode := Js.or_null (RequestResult.countryCode result);
       RequestResult.group_name := Js.or_null (RequestResult.group_name result);
       RequestResult.timestamp := RequestResult.timestamp result;
       RequestResult.status := RequestResult.status result;
       RequestResult.responseTime := RequestResult.responseTime result;
       RequestResult.success := RequestResult.success result;
       RequestResult.error := Js.or_null (RequestResult.error result) |}.
Proof.
  unfold Database.of_row, Database.to_row. cbn. f_equal.
  by destruct (RequestResult.success result).
Qed.

Lemma or_null_id (o : option string) : o ≠ Some "" → Js.or_null o = o.
Proof.
  destruct o as [s|]; cbn; [|done]. intros Hne.
  destruct (String.eqb_spec s ""); [congruence | done].
Qed.

Lemma in_getResults db timeRange (x : RequestResult.t) :
  In x (getResults db timeRange None)
  ↔ ∃ r, In r (Sql.requests db) ∧ in_range timeRange r = true ∧ x = Database.of_row r.
Proof.
  unfold Database.getResults. rewrite in_map_iff. split.
  - intros (r & <- & Hr). exists r.
    apply (Permutation_in _ (merge_sort_Permutation _ _)) in Hr.
    apply filter_In in Hr as [Hin Hw]. rewrite andb_true_r in Hw. auto.
  - intros (r & Hin & Hw & ->). exists r. split; [done|].
    apply (Permutation_in _ (Permutation_sym (merge_sort_Permutation _ _))).
    apply filter_In. by rewrite andb_true_r.
Qed.

(** C9 (as amended). A result inserted and read back with [getResults]
    over a time range that covers its timestamp comes back with the
    generated id and with every field as inserted, except that a country
    code, group or error that was the empty string comes back absent; so
    it comes back equal (but for the id) when none of the three is the
    empty string. The rows of every [getResults] are in descending order of
    their timestamp text. *)
Theorem C9_insert_then_query_round_trip db (result : RequestResult.t) timeRange :
  Sql.ge (datetime (RequestResult.timestamp result)) (datetime_now timeRange) = true →
  ∃ db',
    Database.insertResult None db result = Js.Returns db'
    ∧ In {| RequestResult.id := Some (Sql.last_id db + 1);
            RequestResult.url := RequestResult.url result;
            RequestResult.name := RequestResult.name result;
            RequestResult.countryCode := Js.or_null (RequestResult.countryCode result);
            RequestResult.group_name := Js.or_null (RequestResult.group_name result);
            RequestResult.timestamp := RequestResult.timestamp result;
            RequestResult.status := RequestResult.status result;
            RequestResult.responseTime := RequestResult.responseTime result;
            RequestResult.success := RequestResult.success result;
            RequestResult.error := Js.or_null (RequestResult.error result) |}
         (getResults db' timeRange None)
    ∧ (RequestResult.countryCode result ≠ Some "" →
       RequestResult.group_name result ≠ Some "" →
       RequestResult.error result ≠ Some "" →
       In (Database.with_id (Sql.last_id db + 1) result) (getResults db' timeRange None))
    ∧ ∀ groupName,
        StronglySorted
          (λ a b, String.le (RequestResult.timestamp b) (RequestResult.timestamp a))
          (getResults db' timeRange groupName).
Proof.
  intros Hcovers. eexists. split; [reflexivity|].
  assert (Hback : In (Database.of_row (Database.to_row (Sql.last_id db + 1) result))
                     (getResults
                        {| Sql.requests :=
                             Sql.requests db ++ [Database.to_row (Sql.last_id db + 1) result];
                           Sql.last_id := Sql.last_id db + 1 |} timeRange None)).
  { apply in_getResults. eexists. split; [|split; [|reflexivity]].
    - cbn. apply in_or_app. right. by left.
    - exact Hcovers. }
  rewrite of_row_to_row in Hback. split; [exact Hback|]. split.
  - intros Hc Hg He. unfold Database.with_id.
    rewrite <- (or_null_id _ Hc), <- (or_null_id _ Hg), <- (or_null_id _ He) at 1.
    exact Hback.
  - intros groupName. unfold Database.getResults.
    apply (StronglySorted_fmap Database.of_row Database.newest_first).
    + intros x y Hxy. exact Hxy.
    + apply StronglySorted_merge_sort; apply _.
Qed.

Local Abbreviation getStats := (Database.getStats datetime datetime_now).
Local Abbreviation stats_of := Database.stats_of.

(** The rows of a group, as one selection from the table. *)
Lemma filter_both {A} (p q : A → bool) (l : list A) :
  List.filter p (List.filter q l) = List.filter (λ x, p x && q x) l.
Proof.
  induction l as [|x l IH]; [done|]. cbn.
  destruct (q x); cbn; [destruct (p x); cbn|rewrite andb_false_r]; by rewrite IH.
Qed.

Lemma sum_of_fold {A} (f : A → Z) (l : list A) :
  Sql.sum_of f l = fold_right Z.add 0 (map f l).
Proof. induction l as [|x l IH]; cbn; [done|]. unfold Sql.sum_of in IH. by rewrite IH. Qed.

Lemma abs_sum_le (l : list Z) :
  Z.abs (fold_right Z.add 0 l) <= fold_right Z.add 0 (map Z.abs l).
Proof. induction l as [|x l IH]; cbn [fold_right map]; lia. Qed.

Lemma key_of_stats_of db selected k :
  Database.key_of_stats (stats_of db selected k) = k.
Proof. by destruct k as [[[u n] g] c]. Qed.

Lemma in_groups db timeRange k :
  In k (merge_sort (Database.by_name Database.key_name)
          (remove_dups (map Database.key_of
                          (List.filter (in_range timeRange) (Sql.requests db)))))
  ↔ ∃ r, In r (Sql.requests db) ∧ in_range timeRange r = true ∧ Database.key_of r = k.
Proof.
  rewrite <- list_elem_of_In, merge_sort_Permutation, elem_of_remove_dups,
    list_elem_of_In, in_map_iff.
  split; intros (r & H1 & H2).
  - apply filter_In in H2 as [? ?]. eauto.
  - destruct H2. exists r. by rewrite filter_In.
Qed.

Lemma successRate_7_of_10 : (Database.successRate 7 10 == 70)%Q.
Proof. vm_compute. reflexivity. Qed.

(** On the floats of the kernel too, 7 successes of 10 give exactly 70. *)
Example successRate_7_of_10_binary64 : Database.successRate_binary64 7 10 = 70%float.
Proof. vm_compute. reflexivity. Qed.

(** 11 successes of 20 give the number next above 55, [55 + 2^-47], and
    the floats of the kernel agree on every rate of up to 40 rows. *)
Example successRate_11_of_20 :
  (Database.successRate 11 20 == 55 + 2 ^ (-47))%Q ∧ Binary64.agrees 11 20 = true.
Proof. split; vm_compute; reflexivity. Qed.

Example binary64_agrees_with_floats : Binary64.grid 40 Binary64.agrees = true.
Proof. vm_compute. reflexivity. Qed.

(** C4. [getStats] returns one entry per (url, name, group, country) of
    the rows in the time range, and only such entries. With the rows of
    an entry being the rows in the range with its tuple: the total is
    their number, the success and failure counts are the numbers of them
    stored with success 1 and 0, and the success rate is the binary64
    value of [successCount / totalCount * 100] (the guard for a zero total
    yields 0): a number within the fraction [2^-51] of the exact
    percentage, which is the exact one for 7 successes among 10 rows (70),
    for no success (0) and for no failure (100). The average response time
    is the integer nearest to the mean of the rows' response times, halves
    rounded up, for response times that add up to less than [2^51]. *)
Theorem C4_stats_per_tuple db timeRange :
  let in_window r :=
    match datetime (Row.timestamp r), datetime_now timeRange with
    | Some t, Some from => from <=? t
    | _, _ => false
    end in
  let tuple_of r := (Row.url r, Row.name r, Row.group_name r, Row.countryCode r) in
  let tuple s :=
    (URLStats.url s, URLStats.name s, URLStats.group_name s, URLStats.countryCode s) in
  NoDup (map tuple (getStats db timeRange))
  ∧ (∀ r, In r (Sql.requests db) → in_window r = true →
          ∃ s, In s (getStats db timeRange) ∧ tuple s = tuple_of r)
  ∧ (∀ successful, Database.successRate successful 0 = 0%Q)
  ∧ Forall
      (λ s,
         let rows :=
           List.filter (λ r, bool_decide (tuple_of r = tuple s) && in_window r)
             (Sql.requests db) in
         let total := Z.of_nat (length rows) in
         let successful := Z.of_nat (length (List.filter (λ r, Row.success r =? 1) rows)) in
         let failed := Z.of_nat (length (List.filter (λ r, Row.success r =? 0) rows)) in
         let sum := fold_right Z.add 0 (map Row.responseTime rows) in
         let size := fold_right Z.add 0 (map (λ r, Z.abs (Row.responseTime r)) rows) in
         let exact := (inject_Z successful / inject_Z total * 100)%Q in
         0 < total
         ∧ URLStats.totalRequests s = total
         ∧ URLStats.successfulRequests s = successful
         ∧ URLStats.failedRequests s = failed
         ∧ URLStats.successRate s
           = Binary64.mul (Binary64.div (inject_Z successful) (inject_Z total)) 100
         ∧ (exact - exact * 2 ^ (-51) <= URLStats.successRate s
            ∧ URLStats.successRate s <= exact + exact * 2 ^ (-51))%Q
         ∧ (total = 10 → successful = 7 → (URLStats.successRate s == 70)%Q)
         ∧ (successful = 0 → (URLStats.successRate s == 0)%Q)
         ∧ (successful = total → (URLStats.successRate s == 100)%Q)
         ∧ (size + total <= 2 ^ 51 →
            URLStats.averageResponseTime s = (2 * sum + total) / (2 * total)
            ∧ 2 * sum - total < 2 * total * URLStats.averageResponseTime s <= 2 * sum + total))
      (getStats db timeRange).
Proof.
  intros in_window tuple_of tuple. unfold Database.getStats.
  set (selected := List.filter (in_range timeRange) (Sql.requests db)).
  set (groups := merge_sort _ _).
  assert (Hkeys : map tuple (map (stats_of db selected) groups) = groups).
  { rewrite map_map. rewrite <- (map_id groups) at 2. apply map_ext.
    intros k. apply key_of_stats_of. }
  split.
  { rewrite Hkeys. subst groups. rewrite merge_sort_Permutation. apply NoDup_remove_dups. }
  split.
  { intros r Hin Hr. exists (stats_of db selected (Database.key_of r)).
    split; [|apply key_of_stats_of].
    apply in_map. apply in_groups. eauto. }
  split; [reflexivity|].
  apply Forall_forall. intros s Hs. apply list_elem_of_In, in_map_iff in Hs as (k & <- & Hk).
  change (tuple (stats_of db selected k)) with (Database.key_of_stats (stats_of db selected k)).
  rewrite key_of_stats_of.
  apply in_groups in Hk as (r0 & Hin0 & Hr0 & Hk0).
  change (List.filter (λ r, bool_decide (tuple_of r = k) && in_window r) (Sql.requests db))
    with (List.filter (λ r, Database.in_group k r && in_range timeRange r) (Sql.requests db)).
  rewrite <- (filter_both (Database.in_group k) (in_range timeRange)). fold selected.
  set (rows := List.filter (Database.in_group k) selected).
  assert (Hpos : 0 < Z.of_nat (length rows)).
  { assert (In r0 rows) as Hin.
    { apply filter_In. split; [by apply filter_In|].
      unfold Database.in_group. by apply bool_decide_eq_true. }
    destruct rows; [done | cbn; lia]. }
  destruct k as [[[u n] g] c].
  cbn [Database.stats_of URLStats.totalRequests URLStats.successfulRequests
       URLStats.failedRequests URLStats.successRate URLStats.averageResponseTime].
  fold rows. unfold Sql.count_where.
  set (total := Z.of_nat (length rows)) in *.
  assert (Hrate : ∀ successful,
             Database.successRate successful total
             = Binary64.mul (Binary64.div (inject_Z successful) (inject_Z total)) 100).
  { intros successful. unfold Database.successRate. apply Z.ltb_lt in Hpos. by rewrite Hpos. }
  rewrite Hrate.
  set (successful := Z.of_nat (length (List.filter (λ r, Row.success r =? 1) rows))).
  assert (Hs : 0 <= successful) by (subst successful; lia).
  split; [exact Hpos|]. split; [reflexivity|]. split; [reflexivity|].
  split; [reflexivity|]. split; [reflexivity|].
  split; [by apply rate_close|].
  split; [intros -> ->; vm_compute; reflexivity|].
  split; [intros ->; by apply rate_none|].
  split; [intros ->; by apply rate_full|].
  intros Hsize. unfold Sql.avg. rewrite sum_of_fold.
  set (sum := fold_right Z.add 0 (map Row.responseTime rows)).
  assert (Habs : Z.abs sum <= fold_right Z.add 0 (map (λ r, Z.abs (Row.responseTime r)) rows)).
  { subst sum. rewrite <- (map_map Row.responseTime Z.abs). apply abs_sum_le. }
  rewrite round_avg by lia. fold total. split; [reflexivity|].
  clear Hsize Habs. clearbody total sum.
  pose proof (Z.div_mod (2 * sum + total) (2 * total)) as Hdm.
  pose proof (Z.mod_pos_bound (2 * sum + total) (2 * total)) as Hb.
  lia.
Qed.

End Store.


Lemma C9_witness :
  ∃ db',
    Database.insertResult None ten (Monitor.probe_result site recent)
    = Js.Returns db'
    ∧ In (Database.with_id 11 (Monitor.probe_result site recent))
         (Database.getResults Clock.datetime (Clock.datetime_now now) db' "-24 hours" None).
Proof.
  destruct (C9_insert_then_query_round_trip Clock.datetime (Clock.datetime_now now)
              ten (Monitor.probe_result site recent) "-24 hours" eq_refl)
    as (db' & Hins & _ & Hback & _).
  exists db'. split; [exact Hins|].
  apply Hback; discriminate.
Defined.

(** C9, the claim as stated, fails for a result whose country code is the
    empty string: it is stored as [NULL] and comes back absent. *)
Lemma C9_counterexample :
  ∃ db',
    Database.insertResult None Sql.empty blank_country = Js.Returns db'
    ∧ Sql.ge (Clock.datetime (RequestResult.timestamp blank_country))
             (Clock.datetime_now now "-24 hours") = true
    ∧ RequestResult.countryCode blank_country = Some ""
    ∧ map RequestResult.countryCode
          (Database.getResults Clock.datetime (Clock.datetime_now now) db' "-24 hours" None)
      = [None]
    ∧ ¬ In (Database.with_id 1 blank_country)
           (Database.getResults Clock.datetime (Clock.datetime_now now) db' "-24 hours" None).
Proof.
  eexists. split; [reflexivity|]. split; [reflexivity|]. split; [reflexivity|].
  split; [reflexivity|].
  intros H. apply (in_map RequestResult.countryCode) in H.
  vm_compute in H. destruct H as [H|[]]. discriminate.
Qed.


Lemma C4_witness :
  (∃ s, In s (Database.getStats Clock.datetime (Clock.datetime_now now) two_targets "-24 hours")
        ∧ (URLStats.url s, URLStats.name s, URLStats.group_name s, URLStats.countryCode s)
          = ("https://example.org/health", "Example", Some "Web", Some "DE")
        ∧ URLStats.totalRequests s = 10
        ∧ URLStats.successfulRequests s = 7
        ∧ URLStats.failedRequests s = 3
        ∧ (URLStats.successRate s == 70)%Q
        ∧ URLStats.averageResponseTime s = 123)
  ∧ (∃ s, In s (Database.getStats Clock.datetime (Clock.datetime_now now) two_targets "-24 hours")
          ∧ (URLStats.url s, URLStats.name s, URLStats.group_name s, URLStats.countryCode s)
            = ("https://example.org/login", "Login", Some "Web", None)
          ∧ URLStats.totalRequests s = 2
          ∧ URLStats.successfulRequests s = 1
          ∧ URLStats.failedRequests s = 1
          ∧ (URLStats.successRate s == 50)%Q
          ∧ URLStats.averageResponseTime s = 2).
Proof.
  pose proof (C4_stats_per_tuple Clock.datetime (Clock.datetime_now now)
                two_targets "-24 hours") as H.
  cbv beta zeta in H. destruct H as (_ & Hall & _ & Hstats).
  rewrite Forall_forall in Hstats.
  split.
  - destruct (Hall (stored 1 "2024-05-31T09:00:00.000Z" 200 100 1)) as (s & Hin & Htuple);
      [right; left; reflexivity | reflexivity |].
    pose proof (Hstats s (proj2 (list_elem_of_In _ _) Hin)) as Hs. rewrite Htuple in Hs.
    destruct Hs as (_ & Htotal & Hsuccessful & Hfailed & _ & _ & Hrate & _ & _ & Hmean).
    destruct Hmean as [Hmean _]; [vm_compute; discriminate|].
    exists s. split; [exact Hin|]. split; [exact Htuple|].
    split; [rewrite Htotal; reflexivity|]. split; [rewrite Hsuccessful; reflexivity|].
    split; [rewrite Hfailed; reflexivity|]. split; [apply Hrate; reflexivity|].
    rewrite Hmean. reflexivity.
  - destruct (Hall (login 11 "2024-05-31T09:46:00.000Z" 200 1 1)) as (s & Hin & Htuple);
      [left; reflexivity | reflexivity |].
    pose proof (Hstats s (proj2 (list_elem_of_In _ _) Hin)) as Hs. rewrite Htuple in Hs.
    destruct Hs as (_ & Htotal & Hsuccessful & Hfailed & Hrate & _ & _ & _ & _ & Hmean).
    destruct Hmean as [Hmean _]; [vm_compute; discriminate|].
    exists s. split; [exact Hin|]. split; [exact Htuple|].
    split; [rewrite Htotal; reflexivity|]. split; [rewrite Hsuccessful; reflexivity|].
    split; [rewrite Hfailed; reflexivity|]. split; [rewrite Hrate; vm_compute; reflexivity|].
    rewrite Hmean. reflexivity.
Defined.

(** C4, the claim as stated, fails for 11 successes among 20 rows: the
    rate that [getStats] returns is not [11 / 20 * 100], which is 55, but
    the binary64 number next above it. *)
Lemma C4_counterexample :
  ∃ s, Database.getStats Clock.datetime (Clock.datetime_now now) twenty "-24 hours" = [s]
       ∧ URLStats.totalRequests s = 20
       ∧ URLStats.successfulRequests s = 11
       ∧ URLStats.failedRequests s = 9
       ∧ ¬ (URLStats.successRate s
            == inject_Z (URLStats.successfulRequests s) / inject_Z (URLStats.totalRequests s)
               * 100)%Q
       ∧ (URLStats.successRate s == 55 + 2 ^ (-47))%Q.
Proof.
  eexists. split; [vm_compute; reflexivity|].
  split; [reflexivity|]. split; [reflexivity|]. split; [reflexivity|].
  split; [|vm_compute; reflexivity].
  intros H. vm_compute in H. discriminate.
Qed.

(** The ten-result example: one entry, 10 requests, 7 successes, 3
    failures, a success rate of 70 and the mean 123.4 rounded to 123. *)
Example getStats_ten_results :
  map (λ s, (URLStats.totalRequests s, URLStats.successfulRequests s,
             URLStats.failedRequests s, Qred (URLStats.successRate s),
             URLStats.averageResponseTime s, URLStats.lastChecked s,
             URLStats.lastStatus s))
      (Database.getStats Clock.datetime (Clock.datetime_now now) ten "-24 hours")
  = [(10, 7, 3, 70%Q, 123, Some "2024-05-31T09:45:00.000Z", Some 200)].
Proof. vm_compute. reflexivity. Qed.

(** ** Insertion-ordered maps *)

Section DictFacts.

Context {V : Type}.
Implicit Types (m : Dict.t V) (k : string) (v : V).

Lemma get_set_eq k v m : Dict.get k (Dict.set k v m) = Some v.
Proof.
  induction m as [|[k' v'] m IH]; cbn.
  - by rewrite String.eqb_refl.
  - destruct (String.eqb_spec k k') as [->|Hne]; cbn.
    + by rewrite String.eqb_refl.
    + by destruct (String.eqb_spec k k').
Qed.

Lemma get_set_ne k k' v m : k ≠ k' → Dict.get k' (Dict.set k v m) = Dict.get k' m.
Proof.
  intros Hne. induction m as [|[k0 v0] m IH]; cbn.
  - by destruct (String.eqb_spec k' k); [congruence|].
  - destruct (String.eqb_spec k k0) as [->|Hne0]; cbn.
    + by destruct (String.eqb_spec k' k0); [congruence|].
    + by rewrite IH.
Qed.

Lemma get_In k v m : Dict.get k m = Some v → In (k, v) m.
Proof.
  induction m as [|[k' v'] m IH]; cbn; [done|].
  destruct (String.eqb_spec k k') as [->|Hne].
  - intros [= ->]. by left.
  - intros H. right. by apply IH.
Qed.

Lemma get_None k m : Dict.get k m = None ↔ ¬ In k (Dict.keys m).
Proof.
  induction m as [|[k' v'] m IH]; cbn; [tauto|].
  destruct (String.eqb_spec k k') as [->|Hne].
  - split; [done|]. intros H. destruct H. by left.
  - rewrite IH. split; [|tauto]. intros H [?|?]; [congruence | done].
Qed.

Lemma In_get k v m : NoDup (Dict.keys m) → In (k, v) m → Dict.get k m = Some v.
Proof.
  induction m as [|[k' v'] m IH]; cbn; [done|].
  intros Hnd. apply NoDup_cons in Hnd as [Hk' Hnd]. intros [[= -> ->]|Hin].
  - by rewrite String.eqb_refl.
  - destruct (String.eqb_spec k k') as [->|Hne]; [|by apply IH].
    exfalso. apply Hk'. apply list_elem_of_In. change k' with (fst (k', v)).
    by apply in_map.
Qed.

Lemma keys_set k v m :
  Dict.keys (Dict.set k v m)
  = if Dict.has k m then Dict.keys m else Dict.keys m ++ [k].
Proof.
  unfold Dict.has, Dict.keys. induction m as [|[k' v'] m IH]; cbn; [done|].
  destruct (String.eqb_spec k k') as [->|Hne]; cbn; [done|].
  rewrite IH. by destruct (Dict.get k m).
Qed.

Lemma NoDup_keys_set k v m : NoDup (Dict.keys m) → NoDup (Dict.keys (Dict.set k v m)).
Proof.
  intros Hnd. rewrite keys_set. unfold Dict.has.
  destruct (Dict.get k m) eqn:Hg; [done|].
  apply NoDup_app. split; [done|]. split; [|apply NoDup_singleton].
  intros x Hx Hx'. apply list_elem_of_singleton in Hx' as ->.
  apply get_None in Hg. apply Hg. by apply list_elem_of_In.
Qed.

End DictFacts.

(** ** The group hierarchy *)

Section LegacyHierarchy.

Import LegacyDatabase.

Implicit Types (result : Dict.t (Dict.t (list link))) (row : Shown) (g c : string).










End LegacyHierarchy.

Section Hierarchy.

Import Database.

Implicit Types (m : Dict.t GroupHierarchy.t) (row : Combo) (e : GroupHierarchy.t).

Lemma entry_ok_mono rows row k e : entry_ok rows k e → entry_ok (row :: rows) k e.
Proof.
  intros [(r & Hr & H) Hl]. split.
  - exists r. split; [by right | exact H].
  - intros l Hin. destruct (Hl l Hin) as (r' & Hr' & H'). exists r'. split; [by right | exact H'].
Qed.

Lemma has_url_app u urls urls' :
  has_url u (urls ++ urls') = has_url u urls || has_url u urls'.
Proof. apply existsb_app. Qed.

Lemma hierarchy_inv_step rows m row :
  hierarchy_inv rows m → hierarchy_inv (row :: rows) (add_combo m row).
Proof.
  intros (Hnd & Hok & Hcov). unfold add_combo.
  set (key := hierarchy_key row).
  set (entry := match Dict.get key m with Some e => e | None => _ end).
  set (entry' := if has_url _ _ then entry else _).
  assert (Hentry : entry_ok (row :: rows) key entry).
  { subst entry. destruct (Dict.get key m) as [e0|] eqn:Hg.
    - apply entry_ok_mono, Hok. by apply get_In.
    - split; [|by intros l []]. exists row. split; [by left | done]. }
  assert (Hentry' : entry_ok (row :: rows) key entry').
  { subst entry'. destruct (has_url _ _); [done|].
    destruct Hentry as [Hhead Hlinks]. split; [exact Hhead|].
    cbn [GroupHierarchy.urls]. intros l Hl. apply in_app_or in Hl as [Hl|[<-|[]]].
    - by apply Hlinks.
    - exists row. split; [by left | done]. }
  assert (Hgrow : ∀ u, has_url u (GroupHierarchy.urls entry) = true →
                       has_url u (GroupHierarchy.urls entry') = true).
  { intros u Hu. subst entry'. destruct (has_url (c_url row) _); [done|].
    cbn [GroupHierarchy.urls]. by rewrite has_url_app, Hu. }
  assert (Hnd' : NoDup (Dict.keys (Dict.set key entry' m))) by by apply NoDup_keys_set.
  split; [exact Hnd'|]. split.
  - intros k e Hin. apply In_get in Hin; [|exact Hnd'].
    destruct (decide (key = k)) as [<-|Hne].
    + rewrite get_set_eq in Hin. by injection Hin as <-.
    + rewrite get_set_ne in Hin by done. apply entry_ok_mono, Hok. by apply get_In.
  - intros row' [<-|Hin].
    + exists entry'. split; [apply get_set_eq|].
      subst entry'. destruct (has_url (c_url row) _) eqn:Hu; [done|].
      cbn [GroupHierarchy.urls]. rewrite has_url_app. cbn.
      by rewrite String.eqb_refl, orb_true_r.
    + destruct (Hcov row' Hin) as (e & Hg & Hu).
      destruct (decide (key = hierarchy_key row')) as [Heq|Hne].
      * exists entry'. rewrite <- Heq, get_set_eq. split; [done|].
        apply Hgrow. subst entry. rewrite <- Heq in Hg. fold key in Hg. by rewrite Hg.
      * exists e. by rewrite get_set_ne.
Qed.

Lemma hierarchy_inv_fold rest : ∀ rows m,
  hierarchy_inv rows m → hierarchy_inv (rev rest ++ rows) (fold_left add_combo rest m).
Proof.
  induction rest as [|row rest IH]; intros rows m Hinv; [done|].
  cbn [fold_left rev]. rewrite <- app_assoc. cbn [app].
  by apply IH, hierarchy_inv_step.
Qed.

Lemma getGroupHierarchy_values db :
  getGroupHierarchy db = Dict.values (fold_left add_combo (select_combos db) []).
Proof. unfold getGroupHierarchy. by destruct (select_combos db). Qed.

Lemma hierarchy_inv_final db :
  hierarchy_inv (select_combos db) (fold_left add_combo (select_combos db) []).
Proof.
  pose proof (hierarchy_inv_fold (select_combos db) [] []) as H.
  rewrite app_nil_r in H.
  destruct H as (Hnd & Hok & Hcov).
  { split; [apply NoDup_nil_2|]. split; [by intros ? ? [] | by intros ? []]. }
  split; [done|]. split.
  - intros k e Hin. destruct (Hok k e Hin) as [(r & Hr & H) Hl]. split.
    + exists r. split; [by apply in_rev | exact H].
    + intros l Hlin. destruct (Hl l Hlin) as (r' & Hr' & H'). exists r'.
      split; [by apply in_rev | exact H'].
  - intros row Hin. apply Hcov. by apply in_rev in Hin.
Qed.

Lemma in_select_combos db row :
  In row (select_combos db) ↔ ∃ r, In r (Sql.requests db) ∧ combo_of r = Some row.
Proof.
  unfold select_combos.
  rewrite <- list_elem_of_In, merge_sort_Permutation, elem_of_remove_dups, list_elem_of_omap.
  by setoid_rewrite list_elem_of_In.
Qed.

Lemma combo_of_Some r row :
  combo_of r = Some row ↔
  Js.truthy_str (Row.group_name r) = true
  ∧ row = {| c_group_name := Sql.coalesce (Row.group_name r) "";
             c_countryCode := Row.countryCode r;
             c_url := Row.url r;
             c_name := Row.name r |}.
Proof.
  unfold combo_of, Js.truthy_str. destruct (Row.group_name r) as [g|]; cbn.
  - destruct (String.eqb g ""); cbn; [by split; [|intros []] |].
    split; [by intros [= <-] | by intros [_ ->]].
  - by split; [|intros []].
Qed.

Lemma in_values m e : In e (Dict.values m) ↔ ∃ k, In (k, e) m.
Proof.
  unfold Dict.values. rewrite in_map_iff. split.
  - intros ([k e'] & <- & Hin). eauto.
  - intros (k & Hin). by exists (k, e).
Qed.


End Hierarchy.




(** ** Worked examples *)

(** An outage of four failed probes and the recovery: one failure alert,
    at the third failure, and one recovery alert. *)
Example outage_and_recovery :
  snd (UrlMonitor.track UrlMonitor.empty_tracking [down; down; down; down; up])
  = [UrlMonitor.failure_of 3 down; UrlMonitor.recovery_of up].
Proof. reflexivity. Qed.

(** Two probes of the same target, one answered with 404, one rejected. *)
Example probe_404 :
  Monitor.probe_result site (responded 404)
  = {| RequestResult.id := None;
       RequestResult.url := "https://example.org/health";
       RequestResult.name := "Example";
       RequestResult.countryCode := Some "DE";
       RequestResult.group_name := Some "Web";
       RequestResult.timestamp := "2024-05-01T10:00:00.120Z";
       RequestResult.status := 404;
       RequestResult.responseTime := 120;
       RequestResult.success := false;
       RequestResult.error := Some "HTTP 404" |}.
Proof. reflexivity. Qed.

Example probe_rejected :
  UrlMonitor.probe_result legacy_site (refused "getaddrinfo ENOTFOUND example.org")
  = {| Legacy.RequestResult.id := None;
       Legacy.RequestResult.url := "https://example.org/health";
       Legacy.RequestResult.name := "Example";
       Legacy.RequestResult.group := Some "Web";
       Legacy.RequestResult.timestamp := "2024-05-01T10:00:10.000Z";
       Legacy.RequestResult.status := 0;
       Legacy.RequestResult.responseTime := 10000;
       Legacy.RequestResult.success := false;
       Legacy.RequestResult.error := Some "getaddrinfo ENOTFOUND example.org" |}.
Proof. reflexivity. Qed.

(** Starting, then stopping: the registry is empty and no timer is left. *)
Example start_then_stop :
  let s := Monitor.stop (fst (Monitor.start Monitor.fresh [site; other_site])) in
  Monitor.isRunning s = false
  ∧ Monitor.intervals s = ∅
  ∧ Js.armed (Monitor.loop s) = [].
Proof. vm_compute. repeat split. Qed.

(** The legacy hierarchy of the two sparse rows: both are listed, under
    the labels that stand for what they lack. *)
Example legacy_hierarchy_sparse :
  LegacyDatabase.getGroupHierarchy Js.standard LegacyDatabase.shared_table sparse
  = Some (Js.Returns
     [{| LegacyDatabase.group_name := "Ungrouped";
        LegacyDatabase.countryCode := "DE";
        LegacyDatabase.urls :=
          [{| LegacyDatabase.name := "A"; LegacyDatabase.url := "https://example.org/a" |}] |};
     {| LegacyDatabase.group_name := "Web";
        LegacyDatabase.countryCode := "Unknown";
        LegacyDatabase.urls :=
          [{| LegacyDatabase.name := "B"; LegacyDatabase.url := "https://example.org/b" |}] |}]).
Proof. reflexivity. Qed.

(** A group called like a member of [Object.prototype] is not among the
    keys the loop creates: the embedding gives no hierarchy for it. *)
Example legacy_hierarchy_inherited_label :
  LegacyDatabase.getGroupHierarchy Js.standard LegacyDatabase.shared_table
    {| Sql.requests :=
         [labelled_row 1 "https://example.org/a" "A" (Some "DE") (Some "constructor")];
       Sql.last_id := 1 |}
  = None.
Proof. reflexivity. Qed.

(** The ten results of the last day come back newest first. *)
Example getResults_ten_newest_first :
  map RequestResult.id
      (Database.getResults Clock.datetime (Clock.datetime_now now) ten "-24 hours" None)
  = map Some [10; 9; 8; 7; 6; 5; 4; 3; 2; 1].
Proof. vm_compute. reflexivity. Qed.
(** ** Stopping and restarting *)

Section Lifecycle.

Implicit Types (s : Monitor.State) (config : URLConfig.t) (urls : list URLConfig.t).

Lemma filter_filter_andb {A} (p q : A → bool) (l : list A) :
  List.filter p (List.filter q l) = List.filter (λ x, q x && p x) l.
Proof.
  induction l as [|x l IH]; [done|]. cbn.
  destruct (q x); cbn; [destruct (p x)|]; by rewrite IH.
Qed.

(** [clearInterval] over a list of registry entries, in any order. *)
Lemma clear_all {P} (es : list (string * nat)) : ∀ l : Js.Loop P,
  let l' := fold_left (λ l e, Js.clearInterval l (snd e)) es l in
  Js.next_handle l' = Js.next_handle l
  ∧ Js.armed l'
    = List.filter (λ t, forallb (λ e, negb (Nat.eqb (Js.handle t) (snd e))) es) (Js.armed l).
Proof.
  induction es as [|e es IH]; intros l; cbn [fold_left forallb].
  - split; [done|]. induction (Js.armed l) as [|t ts IHt]; [done|]. cbn. by rewrite <- IHt.
  - destruct (IH (Js.clearInterval l (snd e))) as [Hn Ha]. cbn in Hn, Ha |- *.
    split; [done|]. by rewrite Ha, filter_filter_andb.
Qed.

Lemma survives_clear {P} (es : list (string * nat)) (l : Js.Loop P) (t : Js.Timer P) :
  In t (Js.armed (fold_left (λ l e, Js.clearInterval l (snd e)) es l))
  ↔ In t (Js.armed l) ∧ ¬ In (Js.handle t) (map snd es).
Proof.
  destruct (clear_all es l) as [_ ->]. rewrite filter_In.
  apply and_iff_compat_l. rewrite forallb_forall. split.
  - intros H Hin. apply in_map_iff in Hin as (e & He & Hin).
    specialize (H e Hin). apply negb_true_iff, Nat.eqb_neq in H. congruence.
  - intros H e Hin. apply negb_true_iff, Nat.eqb_neq. intros Heq. apply H.
    apply in_map_iff. eauto.
Qed.

Lemma in_handles (m : gmap string nat) (h : nat) :
  In h (Registry.handles m) ↔ ∃ u, m !! u = Some h.
Proof.
  unfold Registry.handles. rewrite in_map_iff. split.
  - intros ([u h'] & <- & Hin). exists u. by apply elem_of_map_to_list, list_elem_of_In.
  - intros (u & Hu). exists (u, h). split; [done|].
    by apply list_elem_of_In, elem_of_map_to_list.
Qed.

(** The registry after scheduling a list of targets: a url maps to the
    handle of the last entry configured for it. *)
Lemma schedule_registry urls : ∀ s u,
  Monitor.intervals (fold_left Monitor.scheduleURL urls s) !! u
  = match Registry.last_index u urls with
    | Some i => Some (Js.next_handle (Monitor.loop s) + i)%nat
    | None => Monitor.intervals s !! u
    end.
Proof.
  induction urls as [|c rest IH]; intros s u; [done|].
  cbn [fold_left Registry.last_index]. rewrite IH.
  destruct (Registry.last_index u rest) as [j|].
  - cbn. f_equal. lia.
  - cbn. destruct (String.eqb_spec (URLConfig.url c) u) as [->|Hne].
    + rewrite lookup_insert_eq. f_equal. lia.
    + by rewrite lookup_insert_ne.
Qed.

Lemma last_index_lookup u urls i :
  Registry.last_index u urls = Some i →
  ∃ c, urls !! i = Some c ∧ URLConfig.url c = u.
Proof.
  revert i. induction urls as [|c rest IH]; intros i; cbn; [done|].
  destruct (Registry.last_index u rest) as [j|].
  - intros [= <-]. by apply IH.
  - destruct (String.eqb_spec (URLConfig.url c) u); [|done]. intros [= <-]. eauto.
Qed.

Lemma last_index_is_Some u urls i c :
  urls !! i = Some c → URLConfig.url c = u → is_Some (Registry.last_index u urls).
Proof.
  revert i. induction urls as [|c0 rest IH]; intros i; [done|].
  cbn [Registry.last_index]. destruct i as [|i]; cbn.
  - intros [= ->] ->. destruct (Registry.last_index _ rest); [eauto|].
    rewrite String.eqb_refl. eauto.
  - intros Hi Hu. destruct (IH i Hi Hu) as [j ->]. eauto.
Qed.

Lemma last_index_NoDup urls i c :
  NoDup (map URLConfig.url urls) → urls !! i = Some c →
  Registry.last_index (URLConfig.url c) urls = Some i.
Proof.
  intros Hnd Hi.
  destruct (last_index_is_Some _ _ _ _ Hi eq_refl) as [j Hj].
  destruct (last_index_lookup _ _ _ Hj) as (c' & Hc' & Hu).
  rewrite Hj. f_equal. eapply NoDup_lookup; [exact Hnd| |].
  - rewrite list_lookup_fmap, Hc'. cbn. by rewrite Hu.
  - by rewrite list_lookup_fmap, Hi.
Qed.


Lemma last_index_max u urls i :
  Registry.last_index u urls = Some i →
  ∀ j c, urls !! j = Some c → URLConfig.url c = u → (j ≤ i)%nat.
Proof.
  revert i. induction urls as [|c0 rest IH]; intros i; cbn [Registry.last_index]; [done|].
  destruct (Registry.last_index u rest) as [k|] eqn:Hk.
  - intros [= <-] j c Hj Hu. destruct j as [|j]; [lia|]. cbn in Hj.
    specialize (IH k eq_refl j c Hj Hu). lia.
  - destruct (String.eqb_spec (URLConfig.url c0) u); [|done].
    intros [= <-] j c Hj Hu. destruct j as [|j]; [lia|]. cbn in Hj.
    destruct (last_index_is_Some _ _ _ _ Hj Hu) as [k' Hk']. congruence.
Qed.

Lemma interval_of_nonzero config : Monitor.interval_of config ≠ 0.
Proof.
  unfold Monitor.interval_of. destruct (URLConfig.interval config) as [ms|]; [|done].
  destruct (Z.eqb_spec ms 0); [done | done].
Qed.

Lemma start_armed s urls :
  Monitor.isRunning s = false →
  Monitor.isRunning (fst (Monitor.start s urls)) = true
  ∧ Js.armed (Monitor.loop (fst (Monitor.start s urls)))
    = Js.armed (Monitor.loop s)
      ++ imap (λ i c, Monitor.timer_of (Js.next_handle (Monitor.loop s) + i) c) urls.
Proof.
  intros Hstopped. unfold Monitor.start. rewrite Hstopped. cbn [fst].
  destruct (schedule_all urls
              {| Monitor.isRunning := true;
                 Monitor.intervals := Monitor.intervals s;
                 Monitor.loop := Monitor.loop s;
                 Monitor.launched := Monitor.launched s |})
    as (Hrun & Harm & _).
  done.
Qed.

Lemma stop_survivors s :
  Monitor.isRunning s = true →
  ∀ tm, In tm (Js.armed (Monitor.loop (Monitor.stop s)))
        ↔ In tm (Js.armed (Monitor.loop s))
          ∧ ¬ ∃ u, Monitor.intervals s !! u = Some (Js.handle tm).
Proof.
  intros Hrun tm. unfold Monitor.stop. rewrite Hrun. cbn [negb Monitor.loop].
  rewrite survives_clear. apply and_iff_compat_l. by rewrite <- in_handles.
Qed.

(** X1. [Monitor.start] on a stopped monitor returns normally, launches
    one immediate probe per configured entry, in order, and arms one timer
    per entry, in order, with the entry's interval ([60000] when it is
    missing or zero, so never zero); the monitored urls are the old ones
    and the urls of the entries. *)
Theorem start_launches_and_arms s urls :
  Monitor.isRunning s = false →
  let s1 := fst (Monitor.start s urls) in
  snd (Monitor.start s urls) = Js.Returns tt
  ∧ Monitor.isRunning s1 = true
  ∧ Monitor.launched s1 = Monitor.launched s ++ urls
  ∧ Js.armed (Monitor.loop s1)
    = Js.armed (Monitor.loop s)
      ++ imap (λ i c, Monitor.timer_of (Js.next_handle (Monitor.loop s) + i) c) urls
  ∧ Forall (λ tm, Js.period tm ≠ 0)
      (imap (λ i c, Monitor.timer_of (Js.next_handle (Monitor.loop s) + i) c) urls)
  ∧ Monitor.getMonitoredURLs s1
    = Monitor.getMonitoredURLs s ∪ list_to_set (map URLConfig.url urls).
Proof.
  intros Hstopped s1. subst s1. unfold Monitor.start. rewrite Hstopped. cbn [fst snd].
  destruct (schedule_all urls
              {| Monitor.isRunning := true;
                 Monitor.intervals := Monitor.intervals s;
                 Monitor.loop := Monitor.loop s;
                 Monitor.launched := Monitor.launched s |})
    as (Hrun & Harm & _ & Hl & Hdom & _ & _).
  cbn [Monitor.isRunning Monitor.intervals Monitor.loop Monitor.launched] in *.
  split; [done|]. split; [done|]. split; [done|]. split; [done|]. split; [|done].
  apply Forall_forall. intros tm Htm.
  apply elem_of_lookup_imap in Htm as (i & c & -> & _). apply interval_of_nonzero.
Qed.

Lemma start_launches_and_arms_witness :
  Monitor.launched (fst (Monitor.start Monitor.fresh [site; other_site])) = [site; other_site]
  ∧ map Js.period (Js.armed (Monitor.loop (fst (Monitor.start Monitor.fresh [site; other_site]))))
    = [30000; 60000].
Proof.
  pose proof (start_launches_and_arms Monitor.fresh [site; other_site] eq_refl)
    as (_ & _ & Hl & Ha & _).
  split; [exact Hl|]. rewrite Ha. reflexivity.
Defined.

(** X2. [Monitor.stop] does nothing on a stopped monitor. On a running
    one it clears the flag and the registry and disarms exactly the timers
    whose handle the registry held; probes already launched are not
    touched. After [stop], [start] is accepted again. *)
Theorem stop_disarms_registered s :
  (Monitor.isRunning s = false → Monitor.stop s = s)
  ∧ (Monitor.isRunning s = true →
     Monitor.isRunning (Monitor.stop s) = false
     ∧ Monitor.intervals (Monitor.stop s) = ∅
     ∧ Monitor.launched (Monitor.stop s) = Monitor.launched s
     ∧ ∀ tm, In tm (Js.armed (Monitor.loop (Monitor.stop s)))
             ↔ In tm (Js.armed (Monitor.loop s))
               ∧ ¬ ∃ u, Monitor.intervals s !! u = Some (Js.handle tm))
  ∧ ∀ urls, snd (Monitor.start (Monitor.stop s) urls) = Js.Returns tt.
Proof.
  unfold Monitor.stop. destruct (Monitor.isRunning s) eqn:Hrun; cbn [negb].
  - split; [done|]. split.
    + intros _. cbn [Monitor.isRunning Monitor.intervals Monitor.launched Monitor.loop].
      split; [done|]. split; [done|]. split; [done|].
      pose proof (stop_survivors s Hrun) as Hsurv. unfold Monitor.stop in Hsurv.
      rewrite Hrun in Hsurv. exact Hsurv.
    + intros urls. reflexivity.
  - split; [done|]. split; [done|]. intros urls. unfold Monitor.start. by rewrite Hrun.
Qed.

Lemma stop_disarms_registered_witness :
  Monitor.stop Monitor.fresh = Monitor.fresh
  ∧ Monitor.intervals (Monitor.stop (fst (Monitor.start Monitor.fresh [site]))) = ∅.
Proof.
  split.
  - exact (proj1 (stop_disarms_registered Monitor.fresh) eq_refl).
  - exact (proj1 (proj2 (proj1 (proj2 (stop_disarms_registered
                                          (fst (Monitor.start Monitor.fresh [site])))) eq_refl))).
Defined.

(** X3. After [start] on a stopped monitor without timers and [stop], the
    timers still armed are exactly those of the entries that are not the
    last one configured for their url: the registry is keyed by url, so an
    entry that repeats a url takes the place of the earlier one, whose
    timer [stop] no longer finds. With distinct urls none is left. *)
Theorem stop_leaves_timers_of_repeated_urls s urls :
  Monitor.isRunning s = false → Monitor.intervals s = ∅ →
  Js.armed (Monitor.loop s) = [] →
  let s2 := Monitor.stop (fst (Monitor.start s urls)) in
  (∀ tm, In tm (Js.armed (Monitor.loop s2))
         ↔ ∃ i c, urls !! i = Some c
                  ∧ tm = Monitor.timer_of (Js.next_handle (Monitor.loop s) + i) c
                  ∧ Registry.last_index (URLConfig.url c) urls ≠ Some i)
  ∧ (∀ i j c c', (i < j)%nat → urls !! i = Some c → urls !! j = Some c' →
       URLConfig.url c = URLConfig.url c' →
       In (Monitor.timer_of (Js.next_handle (Monitor.loop s) + i) c)
          (Js.armed (Monitor.loop s2)))
  ∧ (NoDup (map URLConfig.url urls) → Js.armed (Monitor.loop s2) = []).
Proof.
  intros Hstopped Hempty Hidle s2.
  destruct (start_armed s urls Hstopped) as (Hrun & Harm).
  rewrite Hidle in Harm. cbn [app] in Harm.
  assert (Hreg : ∀ u, Monitor.intervals (fst (Monitor.start s urls)) !! u
                      = match Registry.last_index u urls with
                        | Some i => Some (Js.next_handle (Monitor.loop s) + i)%nat
                        | None => None
                        end).
  { intros u. unfold Monitor.start. rewrite Hstopped. cbn [fst].
    rewrite schedule_registry. cbn [Monitor.intervals Monitor.loop].
    rewrite Hempty. by destruct (Registry.last_index u urls). }
  assert (Hmain : ∀ tm, In tm (Js.armed (Monitor.loop s2))
         ↔ ∃ i c, urls !! i = Some c
                  ∧ tm = Monitor.timer_of (Js.next_handle (Monitor.loop s) + i) c
                  ∧ Registry.last_index (URLConfig.url c) urls ≠ Some i).
  { intros tm. subst s2.
    rewrite (stop_survivors _ Hrun).
    rewrite Harm, <- list_elem_of_In, elem_of_lookup_imap. split.
    - intros ((i & c & -> & Hi) & Hnone). exists i, c. split; [done|]. split; [done|].
      intros Hlast. apply Hnone. exists (URLConfig.url c). by rewrite Hreg, Hlast.
    - intros (i & c & Hi & -> & Hlast). split; [eauto|].
      intros (u & Hu). rewrite Hreg in Hu. cbn in Hu.
      destruct (Registry.last_index u urls) as [k|] eqn:Hk; [|done].
      injection Hu as Hu. assert (k = i) as -> by lia.
      destruct (last_index_lookup _ _ _ Hk) as (c' & Hc' & <-).
      rewrite Hi in Hc'. injection Hc' as <-. done. }
  split; [exact Hmain|]. split.
  - intros i j c c' Hij Hi Hj Hu. apply Hmain. exists i, c. split; [done|]. split; [done|].
    intros Hlast. pose proof (last_index_max _ _ _ Hlast j c' Hj (eq_sym Hu)). lia.
  - intros Hnd. destruct (Js.armed (Monitor.loop s2)) as [|tm tms] eqn:Ha; [done|].
    exfalso. destruct (proj1 (Hmain tm) ltac:(by left)) as (i & c & Hi & _ & Hlast).
    apply Hlast. by apply last_index_NoDup.
Qed.

Lemma stop_leaves_timers_of_repeated_urls_witness :
  Js.armed (Monitor.loop (Monitor.stop (fst (Monitor.start Monitor.fresh [site; other_site]))))
  = []
  ∧ In (Monitor.timer_of 0 site)
       (Js.armed (Monitor.loop (Monitor.stop (fst (Monitor.start Monitor.fresh [site; site]))))).
Proof.
  split.
  - refine (proj2 (proj2 (stop_leaves_timers_of_repeated_urls Monitor.fresh [site; other_site]
                            eq_refl eq_refl eq_refl)) _).
    apply NoDup_cons. split; [|apply NoDup_singleton].
    intros H. apply list_elem_of_singleton in H. discriminate.
  - refine (proj1 (proj2 (stop_leaves_timers_of_repeated_urls Monitor.fresh [site; site]
                            eq_refl eq_refl eq_refl)) 0%nat 1%nat site site _ eq_refl eq_refl eq_refl).
    lia.
Defined.

(** X4. [UrlMonitor.stopMonitoring] clears the registry and disarms the
    timer registered under ["main"]. After one [startMonitoring] no timer
    is left; after two, the timer of the first call, which the second
    call's entry replaced, stays armed. *)
Theorem stopMonitoring_disarms_only_main cfg1 cfg2 (m : UrlMonitor.State) :
  UrlMonitor.intervals m = ∅ → Js.armed (UrlMonitor.loop m) = [] →
  let once := fst (UrlMonitor.startMonitoring cfg1 m) in
  let twice := fst (UrlMonitor.startMonitoring cfg2 once) in
  UrlMonitor.intervals (UrlMonitor.stopMonitoring once) = ∅
  ∧ Js.armed (UrlMonitor.loop (UrlMonitor.stopMonitoring once)) = []
  ∧ UrlMonitor.intervals (UrlMonitor.stopMonitoring twice) = ∅
  ∧ Js.armed (UrlMonitor.loop (UrlMonitor.stopMonitoring twice))
    = [{| Js.handle := Js.next_handle (UrlMonitor.loop m);
          Js.period := Legacy.MonitoringConfig.defaultInterval cfg1;
          Js.payload := Legacy.MonitoringConfig.urls cfg1 |}].
Proof.
  intros Hempty Hidle once twice. subst once twice.
  unfold UrlMonitor.stopMonitoring, UrlMonitor.startMonitoring.
  cbn [fst Js.setInterval UrlMonitor.intervals UrlMonitor.loop Js.armed Js.next_handle].
  rewrite Hempty, Hidle, insert_insert_eq, !insert_empty, !map_to_list_singleton.
  cbn. rewrite !Nat.eqb_refl. cbn.
  assert ((Js.next_handle (UrlMonitor.loop m) =? S (Js.next_handle (UrlMonitor.loop m)))%nat
          = false) as -> by (apply Nat.eqb_neq; lia).
  done.
Qed.

Lemma stopMonitoring_disarms_only_main_witness :
  map Js.handle
      (Js.armed (UrlMonitor.loop
                   (UrlMonitor.stopMonitoring
                      (fst (UrlMonitor.startMonitoring legacy_config
                              (fst (UrlMonitor.startMonitoring legacy_config UrlMonitor.fresh)))))))
  = [0%nat].
Proof.
  pose proof (stopMonitoring_disarms_only_main legacy_config legacy_config UrlMonitor.fresh
                eq_refl eq_refl) as (_ & _ & _ & H).
  rewrite H. reflexivity.
Defined.

End Lifecycle.

(** ** More on the result store *)

Section StoreQueries.

Variable datetime : string → option Z.
Variable datetime_now : string → option Z.

Implicit Types (db : Sql.Store) (r : Row.t).

Local Abbreviation cleanup := (Database.cleanup datetime datetime_now).
Local Abbreviation expired := (Database.expired datetime datetime_now).
Local Abbreviation cutoff := (Database.cutoff datetime_now).
Local Abbreviation getResults := (Database.getResults datetime datetime_now).
Local Abbreviation in_range := (Database.in_range datetime datetime_now).
Local Abbreviation getStats := (Database.getStats datetime datetime_now).

Lemma filter_ext_in_list {A} (p q : A → bool) (l : list A) :
  (∀ x, In x l → p x = q x) → List.filter p l = List.filter q l.
Proof.
  induction l as [|x l IH]; intros H; [done|]. cbn.
  rewrite (H x (or_introl eq_refl)), IH; [done|]. intros y Hy. apply H. by right.
Qed.

Lemma filter_Permutation {A} (p : A → bool) (l l' : list A) :
  l ≡ₚ l' → List.filter p l ≡ₚ List.filter p l'.
Proof.
  induction 1 as [|x l l' _ IH|x y l|l l' l'' _ IH1 _ IH2]; cbn.
  - done.
  - destruct (p x); by rewrite IH.
  - destruct (p x), (p y); try done. apply perm_swap.
  - by rewrite IH1.
Qed.

(** X5. The group filter of [getResults]: an empty group name filters
    nothing; a non-empty one keeps exactly the results of the time range
    stored with that group, so a row stored without a group is listed
    under no group. Each selected row is returned once. *)
Theorem getResults_group_filter db timeRange :
  getResults db timeRange (Some "") = getResults db timeRange None
  ∧ (∀ g x, g ≠ "" →
       (In x (getResults db timeRange (Some g))
        ↔ In x (getResults db timeRange None) ∧ RequestResult.group_name x = Some g))
  ∧ (∀ g, g ≠ "" →
       getResults db timeRange (Some g)
       ≡ₚ List.filter (λ x, bool_decide (RequestResult.group_name x = Some g))
            (getResults db timeRange None))
  ∧ getResults db timeRange None
    ≡ₚ map Database.of_row (List.filter (in_range timeRange) (Sql.requests db)).
Proof.
  split; [reflexivity|].
  assert (Hnone : getResults db timeRange None
    ≡ₚ map Database.of_row (List.filter (in_range timeRange) (Sql.requests db))).
  { unfold Database.getResults. rewrite merge_sort_Permutation.
    erewrite filter_ext_in_list; [reflexivity|]. intros r _. apply andb_true_r. }
  assert (Hsome : ∀ g, g ≠ "" →
       getResults db timeRange (Some g)
       ≡ₚ List.filter (λ x, bool_decide (RequestResult.group_name x = Some g))
            (getResults db timeRange None)).
  { intros g Hg. rewrite (filter_Permutation _ _ _ Hnone). unfold Database.getResults.
    rewrite merge_sort_Permutation.
    destruct (String.eqb_spec g ""); [done|]. clear Hnone.
    induction (Sql.requests db) as [|r rows IH]; [done|]. cbn.
    destruct (in_range timeRange r); cbn; [|exact IH].
    unfold Sql.text_eq.
    destruct (Row.group_name r) as [s|]; cbn.
    - destruct (String.eqb_spec s g) as [->|Hne].
      + rewrite bool_decide_eq_true_2 by done. cbn. by rewrite IH.
      + rewrite bool_decide_eq_false_2 by congruence. exact IH.
    - exact IH. }
  split; [|split; [exact Hsome | exact Hnone]].
  intros g x Hg. rewrite <- !list_elem_of_In, (Hsome g Hg), !list_elem_of_In, filter_In.
  by rewrite bool_decide_eq_true.
Qed.


(** X6. [cleanup] does not change what [getResults] returns for a time
    range that starts no earlier than the cleanup's cutoff, whatever the
    group; and a second [cleanup] at the same instant deletes nothing. *)
Theorem cleanup_keeps_recent_results db (olderThanDays : Z) timeRange :
  (∀ c t, cutoff olderThanDays = Some c → datetime_now timeRange = Some t → c <= t) →
  (∀ groupName,
     getResults (fst (cleanup db olderThanDays)) timeRange groupName
     = getResults db timeRange groupName)
  ∧ cleanup (fst (cleanup db olderThanDays)) olderThanDays
    = (fst (cleanup db olderThanDays), 0).
Proof.
  intros Hlater. split.
  - intros groupName. unfold Database.getResults, Database.cleanup.
    cbn [fst Sql.requests]. rewrite filter_filter_andb.
    f_equal. f_equal. apply filter_ext_in_list. intros r _.
    destruct (in_range timeRange r) eqn:Hr; cbn [andb]; [|apply andb_false_r].
    assert (expired olderThanDays r = false) as ->; [|done].
    unfold Database.in_range, Database.expired, Sql.ge, Sql.lt in *.
    destruct (datetime (Row.timestamp r)) as [x|]; [|done].
    destruct (datetime_now timeRange) as [t|] eqn:Ht; [|done].
    destruct (Database.cutoff datetime_now olderThanDays) as [c|] eqn:Hc; [|done].
    specialize (Hlater c t eq_refl eq_refl).
    apply Z.leb_le in Hr. apply Z.ltb_ge. lia.
  - unfold Database.cleanup. cbn [fst Sql.requests Sql.last_id].
    rewrite !filter_filter_andb. f_equal.
    + f_equal. apply filter_ext_in_list. intros r _. by destruct (expired olderThanDays r).
    + erewrite (filter_ext_in_list _ (λ _, false)).
      * by induction (Sql.requests db).
      * intros r _. by destruct (expired olderThanDays r).
Qed.

Lemma sum_of_Permutation {A} (f : A → Z) (l l' : list A) :
  l ≡ₚ l' → Sql.sum_of f l = Sql.sum_of f l'.
Proof.
  induction 1 as [|x l l' _ IH|x y l|l l' l'' _ IH1 _ IH2]; cbn; try lia.
  unfold Sql.sum_of in *. lia.
Qed.

Lemma sum_of_map {A B} (f : B → Z) (g : A → B) (l : list A) :
  Sql.sum_of f (map g l) = Sql.sum_of (λ x, f (g x)) l.
Proof. induction l as [|x l IH]; cbn; [done|]. unfold Sql.sum_of in IH. by rewrite IH. Qed.

Lemma sum_of_ext {A} (f g : A → Z) (l : list A) :
  (∀ x, In x l → f x = g x) → Sql.sum_of f l = Sql.sum_of g l.
Proof.
  induction l as [|x l IH]; intros H; cbn; [done|].
  unfold Sql.sum_of in IH. rewrite IH, (H x); auto; [by left|]. intros y Hy. apply H. by right.
Qed.

Lemma sum_of_plus {A} (f g : A → Z) (l : list A) :
  Sql.sum_of (λ x, f x + g x) l = Sql.sum_of f l + Sql.sum_of g l.
Proof. induction l as [|x l IH]; cbn; [done|]. unfold Sql.sum_of in IH. rewrite IH. lia. Qed.

Lemma sum_of_indicator `{EqDecision K} (k0 : K) (ks : list K) :
  NoDup ks →
  Sql.sum_of (λ k, if bool_decide (k0 = k) then 1 else 0) ks
  = if bool_decide (k0 ∈ ks) then 1 else 0.
Proof.
  induction 1 as [|k ks Hk _ IH]; cbn; [done|].
  unfold Sql.sum_of in IH. rewrite IH.
  destruct (decide (k0 = k)) as [->|Hne].
  - rewrite bool_decide_eq_true_2 by done.
    rewrite (bool_decide_eq_false_2 (k ∈ ks)) by done.
    rewrite bool_decide_eq_true_2 by left. done.
  - rewrite bool_decide_eq_false_2 by done.
    destruct (decide (k0 ∈ ks)).
    + rewrite !bool_decide_eq_true_2; [done| by right | done].
    + rewrite !bool_decide_eq_false_2; [done| |done].
      intros [?|?]%elem_of_cons; done.
Qed.

(** Counting the rows of a list key by key counts each row once. *)
Lemma count_by_key `{EqDecision K} {A} (key : A → K) (ks : list K) (l : list A) :
  NoDup ks → (∀ x, In x l → key x ∈ ks) →
  Sql.sum_of (λ k, Z.of_nat (length (List.filter (λ x, bool_decide (key x = k)) l))) ks
  = Z.of_nat (length l).
Proof.
  intros Hnd. induction l as [|x l IH]; intros Hin.
  - cbn. induction ks as [|k ks IHk]; cbn; [done|].
    apply NoDup_cons in Hnd as [_ Hnd]. unfold Sql.sum_of in IHk. by rewrite IHk.
  - rewrite (sum_of_ext _ (λ k, (if bool_decide (key x = k) then 1 else 0)
                                + Z.of_nat (length (List.filter
                                                      (λ x, bool_decide (key x = k)) l)))).
    + rewrite sum_of_plus, IH by (intros y Hy; apply Hin; by right).
      rewrite sum_of_indicator by done.
      rewrite bool_decide_eq_true_2 by (apply Hin; by left). cbn [length]. lia.
    + intros k _. cbn [List.filter]. destruct (bool_decide (key x = k)); cbn [length]; lia.
Qed.

Lemma filter_comm {A} (p q : A → bool) (l : list A) :
  List.filter p (List.filter q l) = List.filter q (List.filter p l).
Proof.
  rewrite !filter_filter_andb. apply filter_ext_in_list. intros x _. apply andb_comm.
Qed.

Lemma groups_NoDup db timeRange :
  NoDup (merge_sort (Database.by_name Database.key_name)
           (remove_dups (map Database.key_of
                           (List.filter (in_range timeRange) (Sql.requests db))))).
Proof. rewrite merge_sort_Permutation. apply NoDup_remove_dups. Qed.

Lemma groups_cover db timeRange (p : Row.t → bool) r :
  In r (List.filter p (List.filter (in_range timeRange) (Sql.requests db))) →
  Database.key_of r
  ∈ merge_sort (Database.by_name Database.key_name)
      (remove_dups (map Database.key_of
                      (List.filter (in_range timeRange) (Sql.requests db)))).
Proof.
  intros [Hr _]%filter_In. rewrite merge_sort_Permutation, elem_of_remove_dups.
  apply list_elem_of_In, in_map, Hr.
Qed.

(** X7. The entries of [getStats] split the rows of the time range: their
    totals add up to the number of rows in the range, their success counts
    to the number of those stored with success 1, their failure counts to
    the number stored with success 0. *)
Theorem getStats_totals_add_up db timeRange :
  let selected := List.filter (in_range timeRange) (Sql.requests db) in
  Invariants.total URLStats.totalRequests (getStats db timeRange)
  = Z.of_nat (length selected)
  ∧ Invariants.total URLStats.successfulRequests (getStats db timeRange)
    = Sql.count_where (λ r, Row.success r =? 1) selected
  ∧ Invariants.total URLStats.failedRequests (getStats db timeRange)
    = Sql.count_where (λ r, Row.success r =? 0) selected.
Proof.
  intros selected. unfold Invariants.total, Database.getStats. fold selected.
  rewrite !sum_of_map.
  assert (Hcount : ∀ p : Row.t → bool,
    Sql.sum_of (λ k, Sql.count_where p (List.filter (Database.in_group k) selected))
      (merge_sort (Database.by_name Database.key_name)
         (remove_dups (map Database.key_of selected)))
    = Sql.count_where p selected).
  { intros p. unfold Sql.count_where.
    erewrite sum_of_ext; [|intros k _; by rewrite filter_comm].
    apply (count_by_key Database.key_of); [apply groups_NoDup|].
    intros r Hr. by apply (groups_cover _ _ p). }
  split; [|split].
  - erewrite sum_of_ext.
    + apply (count_by_key Database.key_of); [apply groups_NoDup|].
      intros r Hr. apply (groups_cover _ _ (λ _, true)).
      apply filter_In. by split.
    + by intros [[[u n] g] c] _.
  - rewrite <- Hcount. apply sum_of_ext. by intros [[[u n] g] c] _.
  - rewrite <- Hcount. apply sum_of_ext. by intros [[[u n] g] c] _.
Qed.

Lemma count_split (l : list Row.t) :
  Forall (λ r, Row.success r = 0 ∨ Row.success r = 1) l →
  Sql.count_where (λ r, Row.success r =? 1) l + Sql.count_where (λ r, Row.success r =? 0) l
  = Z.of_nat (length l).
Proof.
  unfold Sql.count_where. induction 1 as [|r l [Hr|Hr] _ IH]; cbn; [done| |];
    rewrite Hr; cbn; lia.
Qed.

Lemma successRate_bounds (s t : Z) :
  0 <= s <= t → (0 <= Database.successRate s t ∧ Database.successRate s t <= 100)%Q.
Proof.
  intros Hst. unfold Database.successRate.
  destruct (Z.ltb_spec 0 t) as [Ht|Ht]; [|done].
  by apply rate_bounds.
Qed.

(** X8. [insertResult] stores the success flag as 0 or 1 and [cleanup]
    only deletes, so every store they build from the empty one has such
    flags; then in every entry of [getStats] the success and failure counts
    add up to the total, the total is positive, and the success rate lies
    between 0 and 100. *)
Theorem success_flags_are_kept db :
  Invariants.flags_ok Sql.empty
  ∧ (∀ result db', Database.insertResult None db result = Js.Returns db' →
       Invariants.flags_ok db → Invariants.flags_ok db')
  ∧ (∀ olderThanDays, Invariants.flags_ok db →
       Invariants.flags_ok (fst (cleanup db olderThanDays)))
  ∧ (Invariants.flags_ok db →
     ∀ timeRange,
       Forall (λ s, URLStats.successfulRequests s + URLStats.failedRequests s
                    = URLStats.totalRequests s
                    ∧ 0 < URLStats.totalRequests s
                    ∧ 0 <= URLStats.successfulRequests s
                    ∧ 0 <= URLStats.failedRequests s
                    ∧ (0 <= URLStats.successRate s)%Q
                    ∧ (URLStats.successRate s <= 100)%Q)
              (getStats db timeRange)).
Proof.
  unfold Invariants.flags_ok. split; [by constructor|]. split; [|split].
  - intros result db' [= <-] Hok. cbn [Sql.requests]. apply Forall_app. split; [done|].
    constructor; [|constructor]. cbn. destruct (RequestResult.success result); auto.
  - intros olderThanDays Hok. cbn [Database.cleanup fst Sql.requests].
    rewrite Forall_forall in *. intros r [Hr _]%list_elem_of_In%filter_In.
    by apply Hok, list_elem_of_In.
  - intros Hok timeRange. rewrite Forall_forall. intros s Hs.
    apply list_elem_of_In in Hs. unfold Database.getStats in Hs.
    apply in_map_iff in Hs as (k & <- & Hk).
    apply in_groups in Hk as (r0 & Hin0 & Hsel0 & Hkey0).
    set (selected := List.filter (in_range timeRange) (Sql.requests db)).
    set (rows := List.filter (Database.in_group k) selected).
    assert (Hrows : Forall (λ r, Row.success r = 0 ∨ Row.success r = 1) rows).
    { rewrite Forall_forall in *. intros r Hr. apply Hok.
      apply list_elem_of_In in Hr. apply list_elem_of_In.
      apply filter_In in Hr as [Hr _]. by apply filter_In in Hr as [Hr _]. }
    assert (Hne : (0 < length rows)%nat).
    { assert (In r0 rows) as Hr0.
      { apply filter_In. split; [by apply filter_In|].
        unfold Database.in_group. by apply bool_decide_eq_true. }
      destruct rows; [done | cbn; lia]. }
    pose proof (count_split rows Hrows) as Hsplit.
    assert (0 <= Sql.count_where (λ r, Row.success r =? 1) rows) by (unfold Sql.count_where; lia).
    assert (0 <= Sql.count_where (λ r, Row.success r =? 0) rows) by (unfold Sql.count_where; lia).
    destruct k as [[[u n] g] c]. cbn -[Database.successRate Sql.count_where].
    fold selected. fold rows.
    destruct (successRate_bounds (Sql.count_where (λ r, Row.success r =? 1) rows)
                (Z.of_nat (length rows))) as [? ?]; [lia|].
    repeat split; try done; lia.
Qed.


Lemma by_name_total {A} (name : A → string) : Total (Database.by_name name).
Proof. intros a b. unfold Database.by_name. apply (total String.le). Qed.

Lemma by_name_trans {A} (name : A → string) : Transitive (Database.by_name name).
Proof. intros a b c. unfold Database.by_name. apply (transitivity (R := String.le)). Qed.

Lemma StronglySorted_map {A B} (R : relation A) (R' : relation B) (f : A → B) l :
  (∀ a b, R a b → R' (f a) (f b)) → StronglySorted R l → StronglySorted R' (map f l).
Proof.
  intros Hf. induction 1 as [|a l _ IH Hall]; cbn; constructor; [done|].
  apply Forall_forall. intros y Hy. apply list_elem_of_In, in_map_iff in Hy as (b & <- & Hb).
  apply Hf. rewrite Forall_forall in Hall. by apply Hall, list_elem_of_In.
Qed.

Lemma max_text_spec {A} (f : A → string) (l : list A) :
  l ≠ [] →
  ∃ x, In x l ∧ Sql.max_text f l = Some (f x) ∧ ∀ y, In y l → String.le (f y) (f x).
Proof.
  induction l as [|a l IH]; [done|]. intros _. cbn.
  destruct l as [|b l'].
  - cbn. exists a. split; [by left|]. split; [done|]. by intros y [<-|[]].
  - destruct IH as (x & Hx & Hmax & Hle); [done|]. unfold Sql.max_text in Hmax.
    rewrite Hmax. destruct (String.leb (f x) (f a)) eqn:Hcmp.
    + exists a. split; [by left|]. split; [done|]. intros y [<-|Hy]; [done|].
      transitivity (f x); [by apply Hle|]. unfold String.le. by rewrite Hcmp.
    + exists x. split; [by right|]. split; [done|]. intros y [<-|Hy]; [|by apply Hle].
      destruct (total String.le (f a) (f x)) as [?|Hc]; [done|].
      unfold String.le in Hc. by rewrite Hcmp in Hc.
Qed.

Lemma last_status_spec db u r0 :
  In r0 (Sql.requests db) → Row.url r0 = u →
  ∃ r, In r (Sql.requests db) ∧ Row.url r = u
       ∧ Database.last_status db u = Some (Row.status r)
       ∧ ∀ r', In r' (Sql.requests db) → Row.url r' = u →
               String.le (Row.timestamp r') (Row.timestamp r).
Proof.
  intros Hin Hu. unfold Database.last_status.
  set (rows := List.filter (λ r, String.eqb (Row.url r) u) (Sql.requests db)).
  assert (Hrows : ∀ r, In r rows ↔ In r (Sql.requests db) ∧ Row.url r = u).
  { intros r. subst rows. rewrite filter_In. by rewrite String.eqb_eq. }
  pose proof (StronglySorted_merge_sort Database.newest_first rows) as Hsorted.
  pose proof (merge_sort_Permutation Database.newest_first rows) as Hperm.
  destruct (merge_sort Database.newest_first rows) as [|r sorted].
  - exfalso. apply Permutation_nil in Hperm.
    assert (In r0 rows) as H0 by by apply Hrows. by rewrite Hperm in H0.
  - assert (Hr : In r rows).
    { apply list_elem_of_In. rewrite <- Hperm. by left. }
    apply Hrows in Hr as [Hr1 Hr2]. exists r. split; [done|]. split; [done|].
    split; [done|]. intros r' Hr' Hu'.
    assert (In r' rows) as Hr'' by by apply Hrows.
    apply list_elem_of_In in Hr''. rewrite <- Hperm in Hr''.
    apply elem_of_cons in Hr'' as [->|Hr'']; [done|].
    apply StronglySorted_inv in Hsorted as [_ Hall].
    rewrite Forall_forall in Hall. by apply Hall.
Qed.

(** X9. [getStats] lists its entries in the order of their name. An
    entry's [lastChecked] is the greatest timestamp text among its rows in
    the time range. Its [lastStatus] is the status of a stored row with the
    entry's url whose timestamp text is greatest among all stored rows with
    that url, in or out of the time range and whatever their name, group and
    country; so entries with the same url show the same [lastStatus]. *)
Theorem getStats_order_and_last_fields db timeRange :
  StronglySorted (λ a b, String.le (URLStats.name a) (URLStats.name b))
    (getStats db timeRange)
  ∧ Forall (λ s,
      ∃ r, In r (Sql.requests db) ∧ in_range timeRange r = true
           ∧ Database.key_of r = Database.key_of_stats s
           ∧ URLStats.lastChecked s = Some (Row.timestamp r)
           ∧ ∀ r', In r' (Sql.requests db) → in_range timeRange r' = true →
                   Database.key_of r' = Database.key_of_stats s →
                   String.le (Row.timestamp r') (Row.timestamp r))
      (getStats db timeRange)
  ∧ Forall (λ s,
      ∃ r, In r (Sql.requests db) ∧ Row.url r = URLStats.url s
           ∧ URLStats.lastStatus s = Some (Row.status r)
           ∧ ∀ r', In r' (Sql.requests db) → Row.url r' = URLStats.url s →
                   String.le (Row.timestamp r') (Row.timestamp r))
      (getStats db timeRange)
  ∧ ∀ s1 s2, In s1 (getStats db timeRange) → In s2 (getStats db timeRange) →
             URLStats.url s1 = URLStats.url s2 →
             URLStats.lastStatus s1 = URLStats.lastStatus s2.
Proof.
  unfold Database.getStats.
  set (selected := List.filter (in_range timeRange) (Sql.requests db)).
  split; [|split; [|split]].
  - apply (StronglySorted_map (Database.by_name Database.key_name)).
    + by intros [[[u n] g] c] [[[u' n'] g'] c'].
    + apply StronglySorted_merge_sort; [apply by_name_trans | apply by_name_total].
  - apply Forall_forall. intros s Hs.
    apply list_elem_of_In, in_map_iff in Hs as (k & <- & Hk).
    apply in_groups in Hk as (r0 & Hin0 & Hsel0 & Hkey0).
    rewrite key_of_stats_of.
    set (rows := List.filter (Database.in_group k) selected).
    assert (Hrows : ∀ r, In r rows
                         ↔ In r (Sql.requests db) ∧ in_range timeRange r = true
                           ∧ Database.key_of r = k).
    { intros r. subst rows selected. rewrite !filter_In. unfold Database.in_group.
      rewrite bool_decide_eq_true. tauto. }
    destruct (max_text_spec Row.timestamp rows) as (r & Hr & Hmax & Hle).
    { intros Hnil. assert (In r0 rows) as H0 by by apply Hrows. by rewrite Hnil in H0. }
    apply Hrows in Hr as (Hr1 & Hr2 & Hr3). exists r.
    split; [done|]. split; [done|]. split; [done|]. split.
    + by destruct k as [[[u n] g] c].
    + intros r' H1 H2 H3. apply Hle. by apply Hrows.
  - apply Forall_forall. intros s Hs.
    apply list_elem_of_In, in_map_iff in Hs as (k & <- & Hk).
    apply in_groups in Hk as (r0 & Hin0 & Hsel0 & Hkey0).
    destruct k as [[[u n] g] c]. cbn [Database.stats_of URLStats.url URLStats.lastStatus].
    apply (last_status_spec db u r0); [done|].
    unfold Database.key_of in Hkey0. congruence.
  - intros s1 s2 (k1 & <- & _)%in_map_iff (k2 & <- & _)%in_map_iff.
    destruct k1 as [[[u1 n1] g1] c1], k2 as [[[u2 n2] g2] c2]. cbn. by intros ->.
Qed.

End StoreQueries.

Section HierarchyShape.

Import Database.

Implicit Types (m : Dict.t GroupHierarchy.t) (row : Combo) (e : GroupHierarchy.t).

Lemma in_set_inv {V} (k k0 : string) (v v0 : V) (m0 : Dict.t V) :
  In (k, v) (Dict.set k0 v0 m0) → (k = k0 ∧ v = v0) ∨ In (k, v) m0.
Proof.
  induction m0 as [|[k' v'] m0 IH]; cbn.
  - intros [[= <- <-]|[]]. by left.
  - destruct (String.eqb_spec k0 k') as [->|Hne]; cbn.
    + intros [[= <- <-]|H]; [by left | by right; right].
    + intros [H|H]; [by right; left|]. destruct (IH H); [by left | by right; right].
Qed.

Lemma has_url_false u (urls : list GroupHierarchy.link) :
  has_url u urls = false ↔ ¬ In u (map GroupHierarchy.url urls).
Proof.
  unfold has_url. induction urls as [|l urls IH]; cbn; [tauto|].
  destruct (String.eqb_spec (GroupHierarchy.url l) u) as [->|Hne]; cbn.
  - split; [done|]. intros H. destruct H. by left.
  - rewrite IH. split; [|tauto]. intros H [?|?]; [congruence | done].
Qed.

Lemma or_str_or_null (o : option string) d : Js.or_str (Js.or_null o) d = Js.or_str o d.
Proof.
  destruct o as [s|]; cbn; [|done]. destruct (String.eqb s "") eqn:Hs; cbn; [done|].
  by rewrite Hs.
Qed.

Lemma shape_step m row :
  (∀ k e, In (k, e) m → Invariants.keyed k e ∧ GroupHierarchy.urls e ≠ []) →
  ∀ k e, In (k, e) (add_combo m row) → Invariants.keyed k e ∧ GroupHierarchy.urls e ≠ [].
Proof.
  intros Hm k e Hin. unfold add_combo in Hin.
  apply in_set_inv in Hin as [[-> ->]|Hin]; [|by apply Hm].
  destruct (Dict.get (hierarchy_key row) m) as [e0|] eqn:Hg.
  - apply get_In, Hm in Hg as [(Hk & Hc & Hnd) Hne].
    destruct (has_url (c_url row) (GroupHierarchy.urls e0)) eqn:Hu; [done|].
    split; [split; [done | split; [done|]] |]; cbn [GroupHierarchy.urls].
    + rewrite map_app. apply NoDup_app. split; [done|]. split; [|apply NoDup_singleton].
      intros u Hin Hin'. cbn in Hin'. apply list_elem_of_singleton in Hin' as ->.
      apply has_url_false in Hu. by apply Hu, list_elem_of_In.
    + by destruct (GroupHierarchy.urls e0).
  - cbn [GroupHierarchy.urls has_url existsb app]. split; [|done]. split; [|split].
    + unfold hierarchy_key. cbn [GroupHierarchy.group_name GroupHierarchy.countryCode].
      by rewrite or_str_or_null.
    + destruct (c_countryCode row) as [s|]; cbn; [|done].
      destruct (String.eqb_spec s ""); [done | congruence].
    + apply NoDup_singleton.
Qed.

Lemma shape_fold rows : ∀ m,
  (∀ k e, In (k, e) m → Invariants.keyed k e ∧ GroupHierarchy.urls e ≠ []) →
  ∀ k e, In (k, e) (fold_left add_combo rows m) → Invariants.keyed k e ∧ GroupHierarchy.urls e ≠ [].
Proof.
  induction rows as [|row rows IH]; intros m Hm; [done|].
  cbn [fold_left]. by apply IH, shape_step.
Qed.

(** X10. In the result of [getGroupHierarchy] no two entries have the
    same group name and country code, every entry has at least one url, the
    urls of an entry are pairwise different, the group name is not empty
    and the country code is absent or not empty. *)
Theorem getGroupHierarchy_shape (db : Sql.Store) :
  NoDup (map (λ e, (GroupHierarchy.group_name e, GroupHierarchy.countryCode e))
           (getGroupHierarchy db))
  ∧ Forall (λ e, GroupHierarchy.urls e ≠ []
                 ∧ NoDup (map GroupHierarchy.url (GroupHierarchy.urls e))
                 ∧ GroupHierarchy.group_name e ≠ ""
                 ∧ GroupHierarchy.countryCode e ≠ Some "")
      (getGroupHierarchy db).
Proof.
  rewrite getGroupHierarchy_values.
  set (m := fold_left add_combo (select_combos db) []).
  assert (Hshape : ∀ k e, In (k, e) m → Invariants.keyed k e ∧ GroupHierarchy.urls e ≠ []).
  { apply shape_fold. by intros k e []. }
  destruct (hierarchy_inv_final db) as (Hnd & Hok & _). fold m in Hnd, Hok.
  split.
  - apply (NoDup_fmap_1 (λ p : string * option string,
                           fst p +:+ "|" +:+ Js.or_str (snd p) "no-country")).
    assert (Hkeys : (λ p : string * option string,
                       fst p +:+ "|" +:+ Js.or_str (snd p) "no-country")
                    <$> map (λ e, (GroupHierarchy.group_name e, GroupHierarchy.countryCode e))
                          (Dict.values m)
                    = Dict.keys m).
    { unfold Dict.values, Dict.keys. clear Hnd Hok.
      induction m as [|[k e] m IH]; [done|]. cbn. f_equal.
      - symmetry. apply (Hshape k e). by left.
      - apply IH. intros k' e' Hin. apply Hshape. by right. }
    by rewrite Hkeys.
  - apply Forall_forall. intros e He. apply list_elem_of_In, in_values in He as (k & Hin).
    destruct (Hshape k e Hin) as [(_ & Hc & Hndu) Hne].
    split; [done|]. split; [done|]. split; [|done].
    destruct (Hok k e Hin) as [(row & Hrow & _ & Hg & _) _].
    apply in_select_combos in Hrow as (r & _ & Hr). apply combo_of_Some in Hr as [Ht ->].
    rewrite Hg. cbn. unfold Js.truthy_str in Ht.
    destruct (Row.group_name r) as [g|]; [|done]. cbn.
    destruct (String.eqb_spec g ""); [done | done].
Qed.

End HierarchyShape.

Lemma getResults_group_filter_witness :
  In (Database.of_row (stored 3 "2024-05-31T09:10:00.000Z" 500 120 0))
     (Database.getResults Clock.datetime (Clock.datetime_now now) ten
        "-24 hours" (Some "Web")).
Proof.
  apply (proj1 (proj2 (getResults_group_filter Clock.datetime (Clock.datetime_now now)
                         ten "-24 hours")) "Web"); [discriminate|].
  split; [|reflexivity].
  vm_compute. repeat (first [left; reflexivity | right]).
Defined.

Lemma cleanup_keeps_recent_results_witness :
  Database.getResults Clock.datetime (Clock.datetime_now now)
    (fst (Database.cleanup Clock.datetime (Clock.datetime_now now) aged 30)) "-24 hours" None
  = Database.getResults Clock.datetime (Clock.datetime_now now) aged "-24 hours" None.
Proof.
  apply (cleanup_keeps_recent_results Clock.datetime (Clock.datetime_now now) aged 30 "-24 hours").
  intros c t Hc Ht. vm_compute in Hc, Ht. injection Hc as <-. injection Ht as <-. lia.
Defined.

Lemma success_flags_are_kept_witness :
  Forall (λ s, URLStats.successfulRequests s + URLStats.failedRequests s
               = URLStats.totalRequests s)
    (Database.getStats Clock.datetime (Clock.datetime_now now) ten "-24 hours").
Proof.
  assert (Hok : Invariants.flags_ok ten).
  { unfold Invariants.flags_ok. vm_compute. repeat (apply List.Forall_cons; [auto|]). apply List.Forall_nil. }
  pose proof (proj2 (proj2 (proj2 (success_flags_are_kept Clock.datetime
                                      (Clock.datetime_now now) ten))) Hok "-24 hours") as H.
  eapply Forall_impl; [exact H|]. intros s Hs. exact (proj1 Hs).
Defined.

(** ** The queries of the legacy store *)

Section LegacyStore.

Variable datetime_now_text : string → option string.

Local Abbreviation since := (LegacyQueries.since datetime_now_text).
Local Abbreviation legacy_getResults := (LegacyQueries.getResults datetime_now_text).
Local Abbreviation getFailedRequests := (LegacyQueries.getFailedRequests datetime_now_text).

Lemma compare_app_same_length (d d' x y : string) :
  String.length d = String.length d' →
  String.compare (d +:+ x) (d' +:+ y)
  = match String.compare d d' with
    | Eq => String.compare x y
    | c => c
    end.
Proof.
  revert d'. induction d as [|a d IH]; intros [|a' d']; cbn [String.length]; try done.
  intros [= Hlen]. rewrite !string_app_cons. cbn [String.compare].
  destruct (Ascii.compare a a'); [by apply IH | done | done].
Qed.

(** X11. The legacy [getResults] compares the stored timestamp with the
    cutoff as texts. For a row stamped in the ISO form [date T time] and a
    cutoff [date time] of SQLite, the row is returned iff its date is not
    before the cutoff's date: the time of day does not count, so every row
    of the cutoff's day is returned. *)
Theorem legacy_range_keeps_whole_days db timeRange (d t : string) :
  timeRange ≠ "" →
  datetime_now_text timeRange = Some (d +:+ " " +:+ t) →
  ∀ r d' t',
    Row.timestamp r = d' +:+ "T" +:+ t' → String.length d' = String.length d →
    (In r (legacy_getResults db (Some timeRange) None None)
     ↔ In r (Sql.requests db) ∧ String.le d d').
Proof.
  intros Hne Hcut r d' t' Hts Hlen. unfold LegacyQueries.getResults.
  rewrite <- list_elem_of_In, merge_sort_Permutation, list_elem_of_In, filter_In.
  apply and_iff_compat_l. cbn [LegacyQueries.condition].
  destruct (String.eqb_spec timeRange ""); [done|]. rewrite !andb_true_r.
  unfold LegacyQueries.since. rewrite Hcut, Hts. unfold String.le, String.leb.
  rewrite compare_app_same_length by done.
  destruct (String.compare d d'); [|done|done].
  rewrite !string_app_cons. cbn. done.
Qed.

Lemma failed_rows db (x : LegacyQueries.FailedRequest.t) :
  In x (getFailedRequests db None)
  ↔ ∃ r, In r (Sql.requests db) ∧ Row.success r = 0 ∧ x = LegacyQueries.failed_of r.
Proof.
  unfold LegacyQueries.getFailedRequests. rewrite in_map_iff. split.
  - intros (r & <- & Hr). exists r.
    apply list_elem_of_In in Hr. rewrite merge_sort_Permutation in Hr.
    apply list_elem_of_In, filter_In in Hr as [Hin Hw]. cbn in Hw.
    rewrite andb_true_r in Hw. apply Z.eqb_eq in Hw. done.
  - intros (r & Hin & Hs & ->). exists r. split; [done|].
    apply list_elem_of_In. rewrite merge_sort_Permutation.
    apply list_elem_of_In, filter_In. split; [done|]. cbn. rewrite andb_true_r.
    by apply Z.eqb_eq.
Qed.

(** X12. A probe of [UrlMonitor.checkUrl] that the store accepts is
    listed by [getFailedRequests] from then on iff it failed, with the id
    the store gave it, the target's group or ["Ungrouped"], and the
    probe's status, response time and error; a successful probe adds
    nothing to the list, and nothing leaves it. *)
Theorem failed_probe_is_listed (s : UrlMonitor.State) urlConfig (p : UrlMonitor.Probe) :
  UrlMonitor.storage_fault p = None →
  ∃ s' alerts,
    UrlMonitor.checkUrl s urlConfig p
    = Js.Returns (s', UrlMonitor.probe_result urlConfig p, alerts)
    ∧ ∀ x,
        In x (getFailedRequests (UrlMonitor.database s') None)
        ↔ In x (getFailedRequests (UrlMonitor.database s) None)
          ∨ (Legacy.RequestResult.success (UrlMonitor.probe_result urlConfig p) = false
             ∧ x = {| LegacyQueries.FailedRequest.id := Sql.last_id (UrlMonitor.database s) + 1;
                      LegacyQueries.FailedRequest.url := Legacy.UrlConfig.url urlConfig;
                      LegacyQueries.FailedRequest.name := Legacy.UrlConfig.name urlConfig;
                      LegacyQueries.FailedRequest.group_name :=
                        Sql.coalesce (Legacy.UrlConfig.group urlConfig) "Ungrouped";
                      LegacyQueries.FailedRequest.timestamp := UrlMonitor.isoNow p;
                      LegacyQueries.FailedRequest.status :=
                        Legacy.RequestResult.status (UrlMonitor.probe_result urlConfig p);
                      LegacyQueries.FailedRequest.responseTime :=
                        UrlMonitor.endTime p - UrlMonitor.startTime p;
                      LegacyQueries.FailedRequest.error :=
                        Legacy.RequestResult.error (UrlMonitor.probe_result urlConfig p) |}).
Proof.
  intros Hfault.
  destruct (checkUrl_returns s urlConfig p) as (s' & alerts & Hret & _ & _ & Hrows).
  rewrite Hfault in Hrows. exists s', alerts. split; [exact Hret|].
  intros x. rewrite !failed_rows. rewrite Hrows.
  set (result := UrlMonitor.probe_result urlConfig p).
  set (row := LegacyDatabase.to_row _ result).
  assert (Hrow : LegacyQueries.failed_of row
                 = {| LegacyQueries.FailedRequest.id := Sql.last_id (UrlMonitor.database s) + 1;
                      LegacyQueries.FailedRequest.url := Legacy.UrlConfig.url urlConfig;
                      LegacyQueries.FailedRequest.name := Legacy.UrlConfig.name urlConfig;
                      LegacyQueries.FailedRequest.group_name :=
                        Sql.coalesce (Legacy.UrlConfig.group urlConfig) "Ungrouped";
                      LegacyQueries.FailedRequest.timestamp := UrlMonitor.isoNow p;
                      LegacyQueries.FailedRequest.status := Legacy.RequestResult.status result;
                      LegacyQueries.FailedRequest.responseTime :=
                        UrlMonitor.endTime p - UrlMonitor.startTime p;
                      LegacyQueries.FailedRequest.error := Legacy.RequestResult.error result |}).
  { subst row result. unfold UrlMonitor.probe_result.
    by destruct (UrlMonitor.requested p). }
  assert (Hflag : Row.success row = 0 ↔ Legacy.RequestResult.success result = false).
  { subst row. cbn. by destruct (Legacy.RequestResult.success result). }
  split.
  - intros (r & Hin & Hs & ->). apply in_app_or in Hin as [Hin|[<-|[]]].
    + left. eauto.
    + right. split; [by apply Hflag | exact Hrow].
  - intros [(r & Hin & Hs & ->)|[Hs ->]].
    + exists r. split; [apply in_or_app; by left | done].
    + exists row. split; [apply in_or_app; right; by left|].
      split; [by apply Hflag | by rewrite Hrow].
Qed.

End LegacyStore.

Section LegacyGroups.

Import LegacyQueries.

Lemma text_eq_decide (g : string) (r : Row.t) :
  Sql.text_eq (Row.group_name r) g = bool_decide (Row.group_name r = Some g).
Proof.
  unfold Sql.text_eq. destruct (Row.group_name r) as [s|].
  - destruct (String.eqb_spec s g) as [->|Hne].
    + by rewrite bool_decide_eq_true_2.
    + rewrite bool_decide_eq_false_2; [done | congruence].
  - by rewrite bool_decide_eq_false_2.
Qed.

(** X13. [getGroupStats] counts every stored row in exactly one entry and
    shows the rows without a group under ["Ungrouped"]. The per-url totals
    of [getUrlsByGroup] for a group add up to the total of the rows stored
    with that group. Asked for ["Ungrouped"], [getUrlsByGroup] returns
    nothing unless rows are stored with that very text as their group: the
    rows that [getGroupStats] shows under the label are not found. *)
Theorem getGroupStats_and_drilldown (db : Sql.Store) :
  Invariants.total GroupStats.total_requests (getGroupStats db)
  = Z.of_nat (length (Sql.requests db))
  ∧ (∀ r, In r (Sql.requests db) →
       ∃ e, In e (getGroupStats db)
            ∧ GroupStats.group_name e = Sql.coalesce (Row.group_name r) "Ungrouped"
            ∧ 0 < GroupStats.total_requests e)
  ∧ (∀ g, Invariants.total UrlStats.total_requests (getUrlsByGroup db g)
          = GroupStats.total_requests (group_stats_of (Sql.requests db) (Some g)))
  ∧ ((∀ r, In r (Sql.requests db) → Row.group_name r ≠ Some "Ungrouped") →
     getUrlsByGroup db "Ungrouped" = []).
Proof.
  split; [|split; [|split]].
  - unfold Invariants.total, getGroupStats. rewrite sum_of_map. cbn [GroupStats.total_requests group_stats_of].
    apply (count_by_key Row.group_name); [apply NoDup_remove_dups|].
    intros r Hr. apply elem_of_remove_dups, list_elem_of_In. by apply in_map.
  - intros r Hr. exists (group_stats_of (Sql.requests db) (Row.group_name r)).
    split; [|split; [done|]].
    + unfold getGroupStats. apply in_map. apply list_elem_of_In, elem_of_remove_dups,
        list_elem_of_In. by apply in_map.
    + cbn [GroupStats.total_requests group_stats_of].
      assert (In r (List.filter (λ r0, bool_decide (Row.group_name r0 = Row.group_name r))
                      (Sql.requests db))) as Hin.
      { apply filter_In. split; [done|]. by apply bool_decide_eq_true. }
      destruct (List.filter _ _); [done | cbn; lia].
  - intros g. unfold Invariants.total, getUrlsByGroup. rewrite sum_of_map.
    cbn [UrlStats.total_requests url_stats_of GroupStats.total_requests group_stats_of].
    rewrite (count_by_key (λ r, (Row.name r, Row.url r))).
    + f_equal. f_equal. apply filter_ext_in_list. intros r _. apply text_eq_decide.
    + apply NoDup_remove_dups.
    + intros r Hr. apply elem_of_remove_dups, list_elem_of_In.
      by apply (in_map (λ r, (Row.name r, Row.url r))).
  - intros Hnone. unfold getUrlsByGroup.
    rewrite (filter_ext_in_list _ (λ _, false)).
    + assert (List.filter (λ _ : Row.t, false) (Sql.requests db) = []) as ->; [|done].
      clear Hnone. induction (Sql.requests db) as [|r0 rows IH]; [done | exact IH].
    + intros r Hr. rewrite text_eq_decide. apply bool_decide_eq_false. by apply Hnone.
Qed.

End LegacyGroups.

Lemma legacy_range_keeps_whole_days_witness :
  In (stored 2 "2024-05-31T00:00:01.000Z" 200 110 1)
     (LegacyQueries.getResults text_now night (Some "-1 hour") None None).
Proof.
  apply (legacy_range_keeps_whole_days text_now night "-1 hour" "2024-05-31" "09:00:00"
           ltac:(discriminate) eq_refl
           (stored 2 "2024-05-31T00:00:01.000Z" 200 110 1) "2024-05-31" "00:00:01.000Z"
           eq_refl eq_refl).
  split; [right; left; reflexivity | vm_compute; exact I].
Defined.

Lemma failed_probe_is_listed_witness :
  ∃ s' alerts,
    UrlMonitor.checkUrl UrlMonitor.fresh legacy_site (refused "connect ECONNREFUSED")
    = Js.Returns (s', UrlMonitor.probe_result legacy_site (refused "connect ECONNREFUSED"),
                  alerts)
    ∧ map LegacyQueries.FailedRequest.error
          (LegacyQueries.getFailedRequests text_now (UrlMonitor.database s') None)
      = [Some "connect ECONNREFUSED"].
Proof.
  destruct (failed_probe_is_listed text_now UrlMonitor.fresh legacy_site
              (refused "connect ECONNREFUSED") eq_refl) as (s' & alerts & Hret & _).
  exists s', alerts. split; [exact Hret|].
  injection Hret as <- _. reflexivity.
Defined.

(** ** Notifications *)

Section Notifications.

Import Legacy UrlMonitor.

Lemma http_error_result urlConfig (p : Probe) :
  (∃ status, requested p = Js.Returns status ∧ ¬ 200 <= status < 400) →
  RequestResult.url (probe_result urlConfig p) = UrlConfig.url urlConfig
  ∧ RequestResult.success (probe_result urlConfig p) = false
  ∧ RequestResult.error (probe_result urlConfig p) = None.
Proof.
  intros (status & Hp & Hs). unfold probe_result. rewrite Hp. cbn.
  split; [done|]. split; [|done].
  apply not_true_iff_false. rewrite axios_success_range. done.
Qed.

Lemma response_result urlConfig (p : Probe) status :
  requested p = Js.Returns status →
  RequestResult.url (probe_result urlConfig p) = UrlConfig.url urlConfig
  ∧ RequestResult.name (probe_result urlConfig p) = UrlConfig.name urlConfig
  ∧ RequestResult.group (probe_result urlConfig p) = UrlConfig.group urlConfig
  ∧ RequestResult.error (probe_result urlConfig p) = None.
Proof. intros Hp. unfold probe_result. by rewrite Hp. Qed.

Lemma enabled_iff (SLACK_WEBHOOK_URL : option string) :
  SlackNotifier.enableNotifications (SlackNotifier.make SLACK_WEBHOOK_URL)
  = Js.truthy_str SLACK_WEBHOOK_URL.
Proof.
  unfold SlackNotifier.make. cbn [SlackNotifier.enableNotifications].
  destruct SLACK_WEBHOOK_URL as [w|]; cbn; [|done].
  by destruct (String.eqb w "") eqn:Hw; cbn; rewrite ?Hw.
Qed.

(** X14. Whatever the tracking collections hold when a received response
    is handled, the alert the handler sends is posted, when a webhook is
    configured, without an error text of its own, so a failure alert reads
    ["Connection failed"]; without a webhook, or with an empty one, nothing
    is posted; and no notifier call throws, however the post settles. In
    the run in which every handler has ended before the next is called,
    an outage of four responses with a status outside [200,400) followed
    by a response inside it posts twice: the alert, which counts 3
    failures, after the third, and the recovery after the success. *)
Theorem outage_alert_reads_connection_failed
    (SLACK_WEBHOOK_URL : option string) (posted : Js.completion Js.Exn unit)
    urlConfig (p1 p2 p3 p4 p5 : Probe) :
  Forall (λ p, ∃ status, requested p = Js.Returns status ∧ ¬ 200 <= status < 400)
    [p1; p2; p3; p4] →
  (∃ status, requested p5 = Js.Returns status ∧ 200 <= status < 400) →
  let notifier := SlackNotifier.make SLACK_WEBHOOK_URL in
  let posts alerts := flat_map (λ a, fst (SlackNotifier.deliver notifier posted a)) alerts in
  let h := run (quiet empty_tracking)
             [called (probe_result urlConfig p1); called (probe_result urlConfig p2);
              called (probe_result urlConfig p3); settled 0%nat;
              called (probe_result urlConfig p4);
              called (probe_result urlConfig p5); settled 0%nat] in
  (∀ t p status,
     requested p = Js.Returns status →
     let alerts := snd (fst (handleFailureTracking t (probe_result urlConfig p))) in
     Forall (λ post, SlackNotifier.address post = Js.or_str SLACK_WEBHOOK_URL ""
                     ∧ (SlackNotifier.error_section post = None
                        ∨ SlackNotifier.error_section post
                          = Some "*Error:* Connection failed"))
       (posts alerts)
     ∧ (Js.truthy_str SLACK_WEBHOOK_URL = false → posts alerts = [])
     ∧ Forall (λ a, snd (SlackNotifier.deliver notifier posted a) = Js.Returns tt) alerts)
  ∧ waiting h = []
  ∧ posts (sent h)
    = (if Js.truthy_str SLACK_WEBHOOK_URL then
         [{| SlackNotifier.address := Js.or_str SLACK_WEBHOOK_URL "";
             SlackNotifier.headline := "🚨 URL Monitor Alert";
             SlackNotifier.fields :=
               ["*URL:* " +:+ UrlConfig.name urlConfig +:+ SlackNotifier.newline
                +:+ UrlConfig.url urlConfig;
                "*Group:* " +:+ Js.or_str (UrlConfig.group urlConfig) "Ungrouped"
                +:+ SlackNotifier.newline +:+ "*Consecutive Failures:* 3"];
             SlackNotifier.error_section := Some "*Error:* Connection failed" |};
          {| SlackNotifier.address := Js.or_str SLACK_WEBHOOK_URL "";
             SlackNotifier.headline := "✅ URL Monitor Recovery";
             SlackNotifier.fields :=
               ["*URL:* " +:+ UrlConfig.name urlConfig +:+ SlackNotifier.newline
                +:+ UrlConfig.url urlConfig;
                "*Group:* " +:+ Js.or_str (UrlConfig.group urlConfig) "Ungrouped"
                +:+ SlackNotifier.newline +:+ "*Status:* Back Online! 🎉"];
             SlackNotifier.error_section := None |}]
       else []).
Proof.
  intros Hout (s5 & Hp5 & Hs5) notifier posts h.
  assert (Hdeliver : ∀ a,
    snd (SlackNotifier.deliver notifier posted a) = Js.Returns tt
    ∧ fst (SlackNotifier.deliver notifier posted a)
      = if Js.truthy_str SLACK_WEBHOOK_URL then
          match a with
          | sendFailureAlert n => [SlackNotifier.failure_post notifier n]
          | sendRecoveryAlert n => [SlackNotifier.recovery_post notifier n]
          end
        else []).
  { intros a. subst notifier.
    destruct a as [n|n]; cbn [SlackNotifier.deliver];
      unfold SlackNotifier.sendFailureAlert, SlackNotifier.sendRecoveryAlert;
      rewrite enabled_iff; destruct (Js.truthy_str SLACK_WEBHOOK_URL); cbn [negb];
      by destruct posted. }
  split.
  - intros t p status Hp alerts.
    destruct (response_result urlConfig p status Hp) as (_ & _ & _ & Herr).
    assert (Hshape : alerts = []
                     ∨ alerts = [recovery_of (probe_result urlConfig p)]
                     ∨ ∃ n, alerts = [failure_of n (probe_result urlConfig p)]).
    { subst alerts. unfold handleFailureTracking.
      destruct (RequestResult.success _); [destruct (notified _ _)|destruct (_ && _)];
        cbn [fst snd]; eauto. }
    split; [|split].
    + apply Forall_forall. intros post Hpost. subst posts.
      apply list_elem_of_In, in_flat_map in Hpost as (a & Ha & Hpost).
      rewrite (proj2 (Hdeliver a)) in Hpost.
      destruct (Js.truthy_str SLACK_WEBHOOK_URL); [|done].
      destruct Hshape as [->|[->|[n ->]]]; [done| |].
      * destruct Ha as [<-|[]]. destruct Hpost as [<-|[]]. cbn. auto.
      * destruct Ha as [<-|[]]. destruct Hpost as [<-|[]]. cbn. rewrite Herr. auto.
    + intros Hoff. subst posts. cbn beta. clear Hshape.
      induction alerts as [|a alerts' IH]; [done|]. cbn [flat_map].
      rewrite (proj2 (Hdeliver a)), Hoff. exact IH.
    + apply Forall_forall. intros a _. apply Hdeliver.
  - apply Forall_cons in Hout as [(s1 & H1 & Hs1) Hout].
    apply Forall_cons in Hout as [(s2 & H2 & Hs2) Hout].
    apply Forall_cons in Hout as [(s3 & H3 & Hs3) Hout].
    apply Forall_cons in Hout as [(s4 & H4 & Hs4) _].
    destruct (http_error_result urlConfig p1 (ex_intro _ s1 (conj H1 Hs1))) as (U1 & F1 & _).
    destruct (http_error_result urlConfig p2 (ex_intro _ s2 (conj H2 Hs2))) as (U2 & F2 & _).
    destruct (http_error_result urlConfig p3 (ex_intro _ s3 (conj H3 Hs3))) as (U3 & F3 & E3).
    destruct (http_error_result urlConfig p4 (ex_intro _ s4 (conj H4 Hs4))) as (U4 & F4 & _).
    destruct (response_result urlConfig p3 s3 H3) as (_ & N3 & G3 & _).
    destruct (response_result urlConfig p5 s5 Hp5) as (U5 & N5 & G5 & _).
    assert (S5 : RequestResult.success (probe_result urlConfig p5) = true).
    { unfold probe_result. rewrite Hp5. cbn. by apply axios_success_range. }
    set (u := UrlConfig.url urlConfig) in *.
    assert (Hrun : waiting h = []
                   ∧ sent h = [failure_of 3 (probe_result urlConfig p3);
                               recovery_of (probe_result urlConfig p5)]).
    { subst h. cbn [run fold_left].
      destruct (called_failure (quiet empty_tracking) _ 0 F1) as (C1 & M1 & A1 & W1);
        [by rewrite U1 | by rewrite U1 |].
      remember (step (quiet empty_tracking) (called (probe_result urlConfig p1))) as h1.
      cbn [quiet sent waiting app Nat.leb] in A1, W1.
      destruct (called_failure h1 _ 1 F2) as (C2 & M2 & A2 & W2);
        [by rewrite U2, <- U1 | by rewrite U2, <- U1 |].
      remember (step h1 (called (probe_result urlConfig p2))) as h2.
      rewrite A1 in A2. rewrite W1 in W2. cbn [app Nat.leb] in A2, W2.
      destruct (called_failure h2 _ 2 F3) as (C3 & M3 & A3 & W3);
        [by rewrite U3, <- U2 | by rewrite U3, <- U2 |].
      remember (step h2 (called (probe_result urlConfig p3))) as h3.
      rewrite A2 in A3. rewrite W2 in W3. cbn [app Nat.leb] in A3, W3.
      cbn [step]. rewrite W3. cbn [lookup list_lookup delete list_delete].
      rewrite (handleFailureTracking_failure _ _ F4). cbn [tracked waiting sent].
      assert (Hset : ∀ t, RequestResult.url (probe_result urlConfig p3)
                          ∈ notifiedUrls t ∪ {[RequestResult.url (probe_result urlConfig p3)]})
        by (intros; set_solver).
      assert (N4 : notified (resume (tracked h3)
                               (then_add (RequestResult.url (probe_result urlConfig p3))))
                     (RequestResult.url (probe_result urlConfig p4)) = true).
      { apply notified_true. cbn [resume notifiedUrls]. rewrite U4, <- U3. apply Hset. }
      rewrite N4, andb_false_r. cbn [app option_list].
      rewrite (handleFailureTracking_success _ _ S5). unfold notified. cbn [notifiedUrls].
      assert (N5' : bool_decide (RequestResult.url (probe_result urlConfig p5)
                                 ∈ notifiedUrls
                                     (resume (tracked h3)
                                        (then_add (RequestResult.url
                                                     (probe_result urlConfig p3)))))
                    = true).
      { apply bool_decide_eq_true. cbn [resume notifiedUrls]. rewrite U5, <- U3. apply Hset. }
      rewrite N5'. cbn [tracked waiting sent app option_list lookup list_lookup
                        delete list_delete].
      by rewrite A3. }
    destruct Hrun as [Hwait Hsent]. split; [exact Hwait|].
    rewrite Hsent. subst posts. cbn [flat_map].
    rewrite !(proj2 (Hdeliver _)).
    destruct (Js.truthy_str SLACK_WEBHOOK_URL); [|done].
    unfold failure_of, recovery_of, SlackNotifier.failure_post, SlackNotifier.recovery_post.
    cbn [SlackNotification.url SlackNotification.name SlackNotification.groupName
         SlackNotification.lastError SlackNotification.consecutiveFailures app].
    rewrite E3, U3, U5, N3, N5, G3, G5. subst notifier. reflexivity.
Qed.

End Notifications.

Lemma outage_alert_reads_connection_failed_witness :
  map SlackNotifier.error_section
      (flat_map (λ a, fst (SlackNotifier.deliver
                             (SlackNotifier.make (Some "https://hooks.slack.example/T0"))
                             (Js.Returns tt) a))
         (UrlMonitor.sent
            (UrlMonitor.run (UrlMonitor.quiet UrlMonitor.empty_tracking)
               [UrlMonitor.called (UrlMonitor.probe_result legacy_site (answered 500));
                UrlMonitor.called (UrlMonitor.probe_result legacy_site (answered 503));
                UrlMonitor.called (UrlMonitor.probe_result legacy_site (answered 404));
                UrlMonitor.settled 0%nat;
                UrlMonitor.called (UrlMonitor.probe_result legacy_site (answered 500));
                UrlMonitor.called (UrlMonitor.probe_result legacy_site (answered 200));
                UrlMonitor.settled 0%nat])))
  = [Some "*Error:* Connection failed"; None].
Proof.
  destruct (outage_alert_reads_connection_failed (Some "https://hooks.slack.example/T0")
              (Js.Returns tt) legacy_site
              (answered 500) (answered 503) (answered 404) (answered 500) (answered 200))
    as (_ & _ & Hposts).
  - repeat (apply List.Forall_cons; [eexists; split; [reflexivity | lia] |]).
    apply List.Forall_nil.
  - exists 200. split; [reflexivity | lia].
  - rewrite Hposts. reflexivity.
Defined.

(** ** Loading the targets *)

Section Loading.

Variable trim : string → string.
Variable parseInt : option string → option Z.

Local Abbreviation parse_row := (ConfigLoader.parse_row trim parseInt).
Local Abbreviation loadFromCSV := (ConfigLoader.loadFromCSV trim parseInt).

Lemma or_num_nonzero o d : d ≠ 0 → ConfigLoader.or_num o d ≠ 0.
Proof.
  intros Hd. unfold ConfigLoader.or_num. destruct o as [n|]; [|done].
  by destruct (Z.eqb_spec n 0).
Qed.

Lemma or_str_nonempty o d : d ≠ "" → Js.or_str o d ≠ "".
Proof.
  intros Hd. unfold Js.or_str. destruct o as [s|]; [|done].
  by destruct (String.eqb_spec s "").
Qed.

Lemma or_null_nonempty o : Js.or_null o ≠ Some "".
Proof.
  unfold Js.or_null. destruct o as [s|]; [|done].
  destruct (String.eqb_spec s ""); [done | congruence].
Qed.

Lemma parse_row_usable defaultConfig row c :
  parse_row defaultConfig row = Some c → Invariants.usable c.
Proof.
  unfold ConfigLoader.parse_row. destruct (option_map trim (ConfigLoader.CsvRow.url row)) as [u|]; [|done].
  destruct (String.prefix "http" u) eqn:Hu; [|done]. intros [= <-].
  unfold Invariants.usable. cbn. split; [done|]. split; [|split; [|split]].
  - apply or_str_nonempty. intros ->. discriminate Hu.
  - apply or_null_nonempty.
  - apply or_null_nonempty.
  - eexists. split; [done|]. by apply or_num_nonzero, or_num_nonzero.
Qed.

Lemma parse_row_url defaultConfig row :
  URLConfig.url <$> parse_row defaultConfig row
  = match option_map trim (ConfigLoader.CsvRow.url row) with
    | Some u => if String.prefix "http" u then Some u else None
    | None => None
    end.
Proof.
  unfold ConfigLoader.parse_row. destruct (option_map trim (ConfigLoader.CsvRow.url row)) as [u|]; [|done].
  by destruct (String.prefix "http" u).
Qed.

(** X15. [loadFromCSV] on an existing file returns a configuration whose
    targets are, in the order of the file, the rows whose trimmed url
    starts with [http]; every one has a non-empty name, a country code and
    a group that are absent or not empty, and an interval that is set and
    not zero, which is the one the scheduler uses. The defaults of the
    configuration are not zero or empty either. Without the file the
    call is rejected. *)
Theorem loadFromCSV_targets_are_usable csvPath (rows : list ConfigLoader.CsvRow.t)
    defaultConfig :
  (∃ cfg,
     loadFromCSV csvPath (Some rows) defaultConfig = Js.Returns cfg
     ∧ Forall Invariants.usable (ConfigLoader.MonitorConfig.urls cfg)
     ∧ Forall (λ c, URLConfig.interval c = Some (Monitor.interval_of c))
         (ConfigLoader.MonitorConfig.urls cfg)
     ∧ map URLConfig.url (ConfigLoader.MonitorConfig.urls cfg)
       = List.filter (String.prefix "http")
           (omap (λ row, option_map trim (ConfigLoader.CsvRow.url row)) rows)
     ∧ ConfigLoader.MonitorConfig.defaultInterval cfg ≠ 0
     ∧ ConfigLoader.MonitorConfig.timeout cfg ≠ 0
     ∧ ConfigLoader.MonitorConfig.userAgent cfg ≠ "")
  ∧ loadFromCSV csvPath None defaultConfig
    = Js.Throws (Js.Raised ("CSV file not found: " +:+ csvPath)).
Proof.
  split; [|done]. eexists. split; [reflexivity|].
  cbn [ConfigLoader.MonitorConfig.urls ConfigLoader.MonitorConfig.defaultInterval
       ConfigLoader.MonitorConfig.timeout ConfigLoader.MonitorConfig.userAgent].
  assert (Husable : Forall Invariants.usable (omap (parse_row defaultConfig) rows)).
  { apply Forall_forall. intros c (row & _ & Hrow)%list_elem_of_omap.
    by apply (parse_row_usable defaultConfig row). }
  split; [exact Husable|]. split; [|split; [|split; [|split]]].
  - eapply Forall_impl; [exact Husable|]. intros c (_ & _ & _ & _ & ms & Hms & Hne).
    unfold Monitor.interval_of. rewrite Hms. by destruct (Z.eqb_spec ms 0).
  - clear Husable. induction rows as [|row rows IH]; [done|]. cbn [omap list_omap].
    pose proof (parse_row_url defaultConfig row) as Hrow.
    destruct (parse_row defaultConfig row) as [c|];
      destruct (option_map trim (ConfigLoader.CsvRow.url row)) as [u|];
      cbn in Hrow; try done.
    + destruct (String.prefix "http" u) eqn:Hu; [|done]. injection Hrow as Hrow.
      cbn [map List.filter]. rewrite Hrow, Hu. by rewrite IH.
    + destruct (String.prefix "http" u) eqn:Hu; [done|]. cbn [List.filter]. by rewrite Hu.
  - by apply or_num_nonzero.
  - by apply or_num_nonzero.
  - by apply or_str_nonempty.
Qed.

Section WithSqlite.

Variable datetime : string → option Z.
Variable datetime_now : string → option Z.

Lemma probe_error_nonempty config (p : Monitor.Probe) :
  RequestResult.error (Monitor.probe_result config p) ≠ Some "".
Proof.
  unfold Monitor.probe_result. destruct (Monitor.fetched p) as [status|e]; cbn.
  - destruct (Monitor.ok status);
      first [done | intros [= H]; rewrite string_app_cons in H; discriminate H].
  - intros [= H]. by apply (or_str_nonempty (Js.message e) "Request failed").
Qed.

Lemma in_getResults_group db timeRange g (x : RequestResult.t) :
  g ≠ "" →
  (In x (Database.getResults datetime datetime_now db timeRange (Some g))
   ↔ ∃ r, In r (Sql.requests db)
          ∧ Database.in_range datetime datetime_now timeRange r = true
          ∧ Row.group_name r = Some g ∧ x = Database.of_row r).
Proof.
  intros Hg. unfold Database.getResults. rewrite in_map_iff.
  destruct (String.eqb_spec g ""); [done|].
  assert (Hw : ∀ r, In r (merge_sort Database.newest_first
                            (List.filter
                               (λ r, Database.in_range datetime datetime_now timeRange r
                                     && Sql.text_eq (Row.group_name r) g)
                               (Sql.requests db)))
                    ↔ In r (Sql.requests db)
                      ∧ Database.in_range datetime datetime_now timeRange r = true
                      ∧ Row.group_name r = Some g).
  { intros r. rewrite <- list_elem_of_In, merge_sort_Permutation, list_elem_of_In, filter_In,
      andb_true_iff, text_eq_decide, bool_decide_eq_true. tauto. }
  split.
  - intros (r & <- & Hr). apply Hw in Hr. exists r. tauto.
  - intros (r & H1 & H2 & H3 & ->). exists r. split; [done|]. by apply Hw.
Qed.

(** X16. A target loaded by [loadFromCSV], probed by [Monitor.checkURL]
    and stored, is read back by [getResults] over a time range that covers
    the probe exactly as the probe recorded it, with the id the store gave
    it; and also under the target's group, if it has one. *)
Theorem loaded_target_round_trips csvPath rows defaultConfig cfg (c : URLConfig.t)
    (db : Sql.Store) (p : Monitor.Probe) timeRange :
  loadFromCSV csvPath (Some rows) defaultConfig = Js.Returns cfg →
  In c (ConfigLoader.MonitorConfig.urls cfg) →
  Monitor.storage_fault p = None →
  Sql.ge (datetime (Monitor.isoNow p)) (datetime_now timeRange) = true →
  ∃ db',
    Monitor.checkURL db c p = Js.Returns db'
    ∧ In (Database.with_id (Sql.last_id db + 1) (Monitor.probe_result c p))
         (Database.getResults datetime datetime_now db' timeRange None)
    ∧ ∀ g, URLConfig.group_name c = Some g →
           In (Database.with_id (Sql.last_id db + 1) (Monitor.probe_result c p))
              (Database.getResults datetime datetime_now db' timeRange (Some g)).
Proof.
  intros [= <-] Hc Hfault Hrange. cbn [ConfigLoader.MonitorConfig.urls] in Hc.
  apply list_elem_of_In, list_elem_of_omap in Hc as (row & _ & Hrow).
  destruct (parse_row_usable _ _ _ Hrow) as (_ & _ & Hcountry & Hgroup & _).
  unfold Monitor.checkURL. rewrite Hfault. eexists. split; [reflexivity|].
  set (result := Monitor.probe_result c p).
  set (new_id := Sql.last_id db + 1).
  assert (Hts : RequestResult.timestamp result = Monitor.isoNow p).
  { subst result. unfold Monitor.probe_result. by destruct (Monitor.fetched p). }
  assert (Hcc : RequestResult.countryCode result = URLConfig.countryCode c).
  { subst result. unfold Monitor.probe_result. by destruct (Monitor.fetched p). }
  assert (Hgn : RequestResult.group_name result = URLConfig.group_name c).
  { subst result. unfold Monitor.probe_result. by destruct (Monitor.fetched p). }
  assert (Hback : Database.of_row (Database.to_row new_id result)
                  = Database.with_id new_id result).
  { rewrite of_row_to_row. unfold Database.with_id.
    rewrite !or_null_id; [done | apply probe_error_nonempty | by rewrite Hgn | by rewrite Hcc]. }
  assert (Hin : In (Database.to_row new_id result)
                   (Sql.requests db ++ [Database.to_row new_id result])).
  { apply in_or_app. right. by left. }
  assert (Hsel : Database.in_range datetime datetime_now timeRange
                   (Database.to_row new_id result) = true).
  { unfold Database.in_range. cbn [Database.to_row Row.timestamp]. by rewrite Hts. }
  split.
  - apply in_getResults. exists (Database.to_row new_id result). cbn [Sql.requests]. done.
  - intros g Hg. apply in_getResults_group.
    + intros ->. by rewrite Hg in Hgroup.
    + exists (Database.to_row new_id result). cbn [Sql.requests].
      split; [done|]. split; [done|]. split; [|done].
      cbn [Database.to_row Row.group_name]. rewrite Hgn, or_null_id by done. exact Hg.
Qed.

End WithSqlite.

End Loading.

(** ** The headless cycle *)

Section Headless.

Import HeadlessApplication.

(** X17. One task of [runSingleCycle]. With a response and a store that
    accepts the insert it does what [Monitor.checkURL] does. A rejected
    request is stored with status 0 and, as its response time, the
    difference of two clock readings taken one after the other in the
    [catch], which is not positive when the clock does not go back and
    never the time the request took. A response whose insert the store
    rejects is caught as well and stored, if the second insert is accepted,
    as a failure with status 0 and the store's message. A task adds one
    row or none, and rejects only with the rejection of the second insert. *)
Theorem headless_task_outcomes (db : Sql.Store) (urlConfig : URLConfig.t) (t : Task) :
  (∀ status, fetched t = Js.Returns status → storage_fault t = None →
     runTask db urlConfig t = Monitor.checkURL db urlConfig (as_probe t))
  ∧ (∀ e, fetched t = Js.Throws e → retry_fault t = None →
       ∃ row,
         runTask db urlConfig t
         = Js.Returns {| Sql.requests := Sql.requests db ++ [row];
                         Sql.last_id := Sql.last_id db + 1 |}
         ∧ Row.status row = 0 ∧ Row.success row = 0
         ∧ Row.responseTime row = caughtAt t - caughtAt' t
         ∧ (caughtAt t <= caughtAt' t → Row.responseTime row <= 0)
         ∧ Row.error row = Some (Js.or_str (Js.message e) "Request failed"))
  ∧ (∀ status msg, fetched t = Js.Returns status → storage_fault t = Some msg →
       retry_fault t = None →
       ∃ row,
         runTask db urlConfig t
         = Js.Returns {| Sql.requests := Sql.requests db ++ [row];
                         Sql.last_id := Sql.last_id db + 1 |}
         ∧ Row.status row = 0 ∧ Row.success row = 0
         ∧ Row.error row = Some (Js.or_str (Some msg) "Request failed"))
  ∧ (∀ db', runTask db urlConfig t = Js.Returns db' →
       ∃ row, Sql.requests db' = Sql.requests db ++ [row])
  ∧ (∀ e, runTask db urlConfig t = Js.Throws e →
       ∃ msg, retry_fault t = Some msg ∧ e = Js.SqliteFailed msg).
Proof.
  assert (Hcaught : ∀ e, retry_fault t = None →
    ∃ row,
      Database.insertResult (retry_fault t) db (caught_result urlConfig t e)
      = Js.Returns {| Sql.requests := Sql.requests db ++ [row];
                      Sql.last_id := Sql.last_id db + 1 |}
      ∧ Row.status row = 0 ∧ Row.success row = 0
      ∧ Row.responseTime row = caughtAt t - caughtAt' t
      ∧ Row.error row = Some (Js.or_str (Js.message e) "Request failed")).
  { intros e Hretry. rewrite Hretry. eexists. split; [reflexivity|]. cbn.
    split; [done|]. split; [done|]. split; [done|].
    destruct (String.eqb_spec (Js.or_str (Js.message e) "Request failed") "") as [Heq|]; [|done].
    by apply or_str_nonempty in Heq. }
  split; [|split; [|split; [|split]]].
  - intros status Hf Hs.
    unfold runTask, Monitor.checkURL, answered_result, Monitor.probe_result, as_probe.
    cbn [Monitor.startTime Monitor.endTime Monitor.isoNow Monitor.fetched
         Monitor.storage_fault].
    by rewrite Hf, Hs.
  - intros e Hf Hretry. unfold runTask. rewrite Hf.
    destruct (Hcaught e Hretry) as (row & Hrun & H1 & H2 & H3 & H4).
    exists row. rewrite H3. repeat split; try done. lia.
  - intros status msg Hf Hs Hretry. unfold runTask. rewrite Hf, Hs.
    cbn [Database.insertResult].
    destruct (Hcaught (Js.SqliteFailed msg) Hretry) as (row & Hrun & H1 & H2 & _ & H4).
    exists row. done.
  - intros db'. unfold runTask.
    destruct (fetched t) as [status|e].
    + destruct (storage_fault t) as [msg|]; cbn [Database.insertResult].
      * destruct (retry_fault t); [done|]. intros [= <-]. by eexists.
      * intros [= <-]. by eexists.
    + destruct (retry_fault t); cbn [Database.insertResult]; [done|].
      intros [= <-]. by eexists.
  - intros e. unfold runTask.
    destruct (fetched t) as [status|e'].
    + destruct (storage_fault t) as [msg|]; cbn [Database.insertResult]; [|done].
      destruct (retry_fault t) as [msg'|]; [|done]. intros [= <-]. eauto.
    + destruct (retry_fault t) as [msg'|]; cbn [Database.insertResult]; [|done].
      intros [= <-]. eauto.
Qed.

End Headless.

Lemma loaded_target_round_trips_witness :
  ∃ db',
    Monitor.checkURL ten site recent = Js.Returns db'
    ∧ In (Database.with_id 11 (Monitor.probe_result site recent))
         (Database.getResults Clock.datetime (Clock.datetime_now now) db' "-24 hours"
            (Some "Web")).
Proof.
  destruct (loaded_target_round_trips (λ s, s) (λ _, Some 30000)
              Clock.datetime (Clock.datetime_now now) "urls.csv"
              [{| ConfigLoader.CsvRow.url := Some "https://example.org/health";
                  ConfigLoader.CsvRow.name := Some "Example";
                  ConfigLoader.CsvRow.countryCode := Some "DE";
                  ConfigLoader.CsvRow.group := Some "Web";
                  ConfigLoader.CsvRow.interval := Some "30000" |}]
              None _ site ten recent "-24 hours" eq_refl
              ltac:(left; reflexivity) eq_refl eq_refl)
    as (db' & Hrun & _ & Hgroup).
  exists db'. split; [exact Hrun|]. by apply Hgroup.
Defined.
